(** * schempy: a shallow embedding of the interpreter in [main.py]

    The development follows the pipeline of the program: [tokenize],
    [atom], [tokens_to_syntax_tree], [parse], the class [Env], the class
    [Procedure], [standard_env], [evaluate] and [schemestr].

    Conventions of the model.
    - Python [str] is [string]; a character is a code point below 256.
    - Python [int] is [Z]; Python [float] is the kernel's binary64 [float],
      and a token is read as a float by correct rounding.
    - A Python exception is a result [Raise e]; nothing in [main.py]
      catches an exception except [atom], so a raised exception reaches the
      caller unchanged.
    - [Env] objects are mutable and shared: they live in a store (a list of
      objects, an address is an index) and a [Procedure] holds the address
      of the environment it captured.
    - The evaluator has a fuel argument (the model of [while True] and of
      recursion) and a stack budget: the number of nested activations of
      [evaluate] the host still allows. Frames of the host other than
      those of [evaluate] are not counted. [parse] is modelled without
      stack limit; [parse_within] is the parser with a budget of
      activations of [tokens_to_syntax_tree], and the two are compared.
    - What depends on the identity of an object or on the memory of the
      host, and the host functions of [standard_env] that are lazy, do
      input or output or divide, answer [Unmodelled]. The names that
      [standard_env] takes from the host's [math] module (line 33) and the
      loop [repl] (lines 191-196) are left out. *)

From Stdlib Require Import ZArith List String Ascii Bool Lia DecimalString.
From Stdlib Require Import PrimFloat SpecFloat FloatOps.
From Stdlib Require DecimalN.
From stdpp Require Import base tactics option list.

Local Open Scope string_scope.
Local Open Scope list_scope.
Local Open Scope Z_scope.

(** ** Results of host computations *)

(** The exception classes of the host that the modelled code can raise. *)
Inductive exn : Type :=
| SyntaxError
| IndexError
| AttributeError
| ValueError
| TypeError
| KeyError
| OverflowError
| RecursionError.

(** The class name of an exception, as the host prints it. *)
Definition exn_name (e : exn) : string :=
  match e with
  | SyntaxError => "SyntaxError"
  | IndexError => "IndexError"
  | AttributeError => "AttributeError"
  | ValueError => "ValueError"
  | TypeError => "TypeError"
  | KeyError => "KeyError"
  | OverflowError => "OverflowError"
  | RecursionError => "RecursionError"
  end.

(** [NoFuel]: the fuel of the model ran out (more fuel may give a result).
    [Unmodelled]: the host behaviour at this point depends on something the
    model does not track (object identity, a dangling frame address). *)
Inductive res (A : Type) : Type :=
| Ok (a : A)
| Raise (e : exn)
| NoFuel
| Unmodelled.

Arguments Ok {A} a.
Arguments Raise {A} e.
Arguments NoFuel {A}.
Arguments Unmodelled {A}.

Definition res_bind {A B : Type} (r : res A) (k : A -> res B) : res B :=
  match r with
  | Ok a => k a
  | Raise e => Raise e
  | NoFuel => NoFuel
  | Unmodelled => Unmodelled
  end.

(** ** Characters and text *)

Definition code (c : ascii) : nat := nat_of_ascii c.

(** The characters [str.split()] treats as separators, below 256. *)
Definition is_space (c : ascii) : bool :=
  let n := code c in
  (((9 <=? n) && (n <=? 13)) || ((28 <=? n) && (n <=? 32))
   || (n =? 133) || (n =? 160))%nat.

Definition is_digit (c : ascii) : bool :=
  let n := code c in ((48 <=? n) && (n <=? 57))%nat.

Definition digit_val (c : ascii) : Z := Z.of_nat (code c) - 48.

(** [chars.replace(old, new)] for a one-character [old]. *)
Fixpoint replace (old : ascii) (new : string) (chars : string) : string :=
  match chars with
  | EmptyString => EmptyString
  | String c rest =>
      if Ascii.eqb c old then (new ++ replace old new rest)%string
      else String c (replace old new rest)
  end.

(** [chars.split()]: the maximal runs of characters that are not
    separators. [cur] is the run being read. *)
Fixpoint split_from (cur : string) (chars : string) : list string :=
  match chars with
  | EmptyString => if String.eqb cur "" then [] else [cur]
  | String c rest =>
      if is_space c then
        if String.eqb cur "" then split_from "" rest
        else cur :: split_from "" rest
      else split_from (cur ++ String c "")%string rest
  end.

Definition split (chars : string) : list string := split_from "" chars.

(** [tokenize], line 78. *)
Definition tokenize (chars : string) : list string :=
  split (replace ")" " ) " (replace "(" " ( " chars)).

(** ** Numbers read from a token *)

(** The host removes the underscores of a numeric text: one is allowed only
    between two digits. [prev] is the character before [s]. *)
Fixpoint strip_underscores (prev : option ascii) (s : list ascii)
  : option (list ascii) :=
  match s with
  | [] =>
      match prev with
      | Some "_"%char => None
      | _ => Some []
      end
  | c :: rest =>
      if Ascii.eqb c "_" then
        match prev with
        | Some p => if is_digit p then strip_underscores (Some c) rest else None
        | None => None
        end
      else
        let ok :=
          match prev with
          | Some "_"%char => is_digit c
          | _ => true
          end in
        if ok then option_map (cons c) (strip_underscores (Some c) rest)
        else None
  end.

Definition split_sign (s : list ascii) : bool * list ascii :=
  match s with
  | "-"%char :: rest => (true, rest)
  | "+"%char :: rest => (false, rest)
  | _ => (false, s)
  end.

Definition digits_value (ds : list ascii) : Z :=
  fold_left (fun acc c => 10 * acc + digit_val c) ds 0.

(** The host refuses to convert a decimal text of more digits than this to
    an [int] (the interpreter's default; [0] would switch the limit off). *)
Definition int_max_str_digits : nat := 4300.

(** [int(token)]: [None] stands for the [ValueError] the host raises. *)
Definition py_int (token : string) : option Z :=
  let (neg, body) := split_sign (list_ascii_of_string token) in
  match strip_underscores None body with
  | Some ds =>
      if negb (forallb is_digit ds) then None
      else if (length ds =? 0)%nat then None
      else if ((0 <? int_max_str_digits) && (int_max_str_digits <? length ds))%nat
      then None
      else Some (if neg then - digits_value ds else digits_value ds)
  | None => None
  end.

Definition lower (c : ascii) : ascii :=
  let n := code c in
  if ((65 <=? n) && (n <=? 90))%nat then ascii_of_nat (n + 32) else c.

(** The longest prefix of digits of [s], and the rest. *)
Fixpoint span_digits (s : list ascii) : list ascii * list ascii :=
  match s with
  | c :: rest =>
      if is_digit c then
        let (ds, r) := span_digits rest in (c :: ds, r)
      else ([], s)
  | [] => ([], [])
  end.

(** The float nearest to [m * 10^e10] (ties to even), signed by [neg]; this
    is what the host's correctly rounded text-to-float conversion returns. *)
Definition float_of_decimal (neg : bool) (m : Z) (e10 : Z) : float :=
  match m with
  | Zpos p =>
      if 0 <=? e10 then
        SF2Prim (binary_round prec emax neg (Z.to_pos (Zpos p * 10 ^ e10)) 0)
      else
        SF2Prim (SFdiv prec emax (S754_finite neg p 0)
                   (S754_finite false (Z.to_pos (10 ^ (- e10))) 0))
  | _ => if neg then neg_zero else zero
  end.

(** An exponent part: [e] or [E], an optional sign, one digit or more, and
    nothing after. *)
Definition exponent_part (s : list ascii) : option Z :=
  match s with
  | [] => Some 0
  | c :: rest =>
      if Ascii.eqb (lower c) "e" then
        let (eneg, r) := split_sign rest in
        let (ds, r') := span_digits r in
        match ds, r' with
        | _ :: _, [] => Some (if eneg then - digits_value ds else digits_value ds)
        | _, _ => None
        end
      else None
  end.

(** [float(token)]: [None] stands for the [ValueError] the host raises. *)
Definition py_float (token : string) : option float :=
  match strip_underscores None (list_ascii_of_string token) with
  | None => None
  | Some s =>
      let (neg, body) := split_sign s in
      let word := string_of_list_ascii (map lower body) in
      if String.eqb word "inf" || String.eqb word "infinity" then
        Some (if neg then neg_infinity else infinity)
      else if String.eqb word "nan" then Some nan
      else
        let (ip, r) := span_digits body in
        let (fp, r') :=
          match r with
          | "."%char :: r1 => span_digits r1
          | _ => ([], r)
          end in
        if (length ip + length fp =? 0)%nat then None
        else
          match exponent_part r' with
          | Some e =>
              Some (float_of_decimal neg (digits_value (ip ++ fp))
                      (e - Z.of_nat (length fp)))
          | None => None
          end
  end.

(** ** Values

    One type serves for expressions and for values, as in the program: the
    parser produces [Int], [Float], [Symbol] (a Python [str]) and [List];
    evaluation adds [Bool] (the result of a comparison), [NoneV] (Python's
    [None]), [Procedure] (an instance of the class [Procedure], lines
    20-28: its parameters, its body and the address of the environment it
    captured) and [Builtin] (a host function bound by [standard_env]). *)

(** The host functions that the table of [standard_env] binds. ["+"] and
    ["append"] are one host object ([op.add]), and so are ["="] and
    ["equal?"] ([op.eq]). *)
Inductive prim : Type :=
| op_add | op_sub | op_mul | op_truediv
| op_gt | op_lt | op_eq | op_ge | op_le
| py_abs | p_car | p_cdr | op_is | py_map | py_max | py_min | op_not | py_pow
| p_cons | p_list | p_list_p | p_null_p | p_apply | p_begin | py_print
| py_round | py_len | p_number_p | p_symbol_p | py_callable.

#[warnings="-register-all"]
Inductive value : Type :=
| Int (z : Z)
| Float (f : float)
| Symbol (s : string)
| List (l : list value)
| Bool (b : bool)
| NoneV
| Procedure (params : value) (body : value) (env : nat)
| Builtin (p : prim).

(** [atom], lines 100-108. *)
Definition atom (token : string) : value :=
  match py_int token with
  | Some z => Int z
  | None =>
      match py_float token with
      | Some f => Float f
      | None => Symbol token
      end
  end.

(** ** The parser *)

(** [tokens_to_syntax_tree], lines 80-98. The list of tokens is consumed
    from the front ([tokens.pop(0)]), so the function returns what is left
    of it with the tree. [read_list] is the [while] loop of lines 91-92
    with the [pop] of line 93; [L] is the list built so far. Indexing
    [tokens[0]] on an empty list raises [IndexError]. *)
Fixpoint tokens_to_syntax_tree (fuel : nat) (tokens : list string)
  : res (value * list string) :=
  match fuel with
  | O => NoFuel
  | S fuel' =>
      match tokens with
      | [] => Raise SyntaxError
      | token :: tokens' =>
          if String.eqb token "(" then read_list fuel' tokens' []
          else if String.eqb token ")" then Raise SyntaxError
          else Ok (atom token, tokens')
      end
  end
with read_list (fuel : nat) (tokens : list string) (L : list value)
  : res (value * list string) :=
  match fuel with
  | O => NoFuel
  | S fuel' =>
      match tokens with
      | [] => Raise IndexError
      | token :: tokens' =>
          if String.eqb token ")" then Ok (List L, tokens')
          else
            res_bind (tokens_to_syntax_tree fuel' tokens)
              (fun r => read_list fuel' (snd r) (L ++ [fst r]))
      end
  end.

(** Every call and every turn of the loop consumes a token or ends, so
    twice the number of tokens (and one) is fuel enough. *)
Definition parse_fuel (tokens : list string) : nat := S (2 * length tokens).

(** [parse], lines 110-112. *)
Definition parse (program : string) : res value :=
  let tokens := tokenize program in
  res_bind (tokens_to_syntax_tree (parse_fuel tokens) tokens)
    (fun r => Ok (fst r)).

(** ** Environments: the class [Env], lines 10-18 *)

(** What a [dict] compares its keys by. An [int], a [bool] and a [float]
    of the same numeric value are one key, so a float with an integer value
    is stored as that integer. *)
Inductive key : Type :=
| KStr (s : string)
| KInt (z : Z)
| KFloat (f : float).

(** The integer a float is equal to, if there is one. *)
Definition float_integer (f : float) : option Z :=
  match Prim2SF f with
  | S754_zero _ => Some 0
  | S754_finite s m e =>
      if 0 <=? e then Some (cond_Zopp s (Zpos m * 2 ^ e))
      else if (Zpos m) mod 2 ^ (- e) =? 0
           then Some (cond_Zopp s (Zpos m / 2 ^ (- e)))
           else None
  | _ => None
  end.

(** Hashing a value for use as a key: a list is unhashable ([TypeError]).
    A NaN, [None] and the procedures are keys by object identity, which is
    not tracked; a parsed program never uses the latter as names. *)
Definition key_of (v : value) : res key :=
  match v with
  | Symbol s => Ok (KStr s)
  | Int z => Ok (KInt z)
  | Bool b => Ok (KInt (if b then 1 else 0))
  | Float f =>
      if is_nan f then Unmodelled
      else match float_integer f with
           | Some z => Ok (KInt z)
           | None => Ok (KFloat f)
           end
  | List _ => Raise TypeError
  | NoneV | Procedure _ _ _ | Builtin _ => Unmodelled
  end.

Definition key_eqb (a b : key) : bool :=
  match a, b with
  | KStr s, KStr t => String.eqb s t
  | KInt x, KInt y => x =? y
  | KFloat f, KFloat g => PrimFloat.eqb f g
  | _, _ => false
  end.

(** The mapping of an [Env]: keys unique, in insertion order. *)
Definition dict : Type := list (key * value).

Fixpoint dict_get (k : key) (d : dict) : option value :=
  match d with
  | [] => None
  | (k', v) :: rest => if key_eqb k k' then Some v else dict_get k rest
  end.

Definition dict_mem (k : key) (d : dict) : bool :=
  match dict_get k d with
  | Some _ => true
  | None => false
  end.

(** [d[k] = v]: overwrite the value of an existing key, else add the key. *)
Fixpoint dict_set (k : key) (v : value) (d : dict) : dict :=
  match d with
  | [] => [(k, v)]
  | (k', v') :: rest =>
      if key_eqb k k' then (k', v) :: rest else (k', v') :: dict_set k v rest
  end.

Definition dict_keys (d : dict) : list key := map fst d.

(** An instance of [Env]: the mapping it inherits from [dict], and the
    attribute [outer] ([None] for the environment without parent). *)
Record Env : Type := mkEnv { vars : dict; outer : option nat }.

(** The store: every [Env] object created so far, by address. *)
Abbreviation store := (list Env).

(** Computations of the evaluator: they read and update the store. *)
Definition M (A : Type) : Type := store -> res A * store.

Definition ret {A : Type} (a : A) : M A := fun st => (Ok a, st).

Definition lift {A : Type} (r : res A) : M A := fun st => (r, st).

Definition raise {A : Type} (e : exn) : M A := lift (Raise e).

Definition bind {A B : Type} (m : M A) (k : A -> M B) : M B :=
  fun st =>
    match m st with
    | (Ok a, st') => k a st'
    | (Raise e, st') => (Raise e, st')
    | (NoFuel, st') => (NoFuel, st')
    | (Unmodelled, st') => (Unmodelled, st')
    end.

Notation "x <- m ;; k" := (bind m (fun x => k))
  (at level 100, m at next level, right associativity).
Notation "m ;;; k" := (bind m (fun _ => k))
  (at level 100, right associativity).

(** [mapM f l]: [[f(a) for a in l]], left to right. *)
Fixpoint mapM {A B : Type} (f : A -> M B) (l : list A) : M (list B) :=
  match l with
  | [] => ret []
  | a :: rest => b <- f a ;; bs <- mapM f rest ;; ret (b :: bs)
  end.

(** [Env.find], lines 16-18: the innermost frame, from [self] outwards,
    whose mapping has [var]. Reaching [None] as [outer] and asking it for
    [find] raises [AttributeError]. The recursion follows [outer]; [n]
    bounds the length of the chain. *)
Fixpoint Env_find_from (n : nat) (st : store) (self : nat) (var : key)
  : res nat :=
  match n with
  | O => Unmodelled
  | S n' =>
      match st !! self with
      | None => Unmodelled
      | Some fr =>
          if dict_mem var (vars fr) then Ok self
          else match outer fr with
               | None => Raise AttributeError
               | Some o => Env_find_from n' st o var
               end
      end
  end.

(** A chain without cycle is no longer than the store. *)
Definition Env_find (self : nat) (var : key) : M nat :=
  fun st => (Env_find_from (length st) st self var, st).

(** [self[k]] on an [Env]. *)
Definition Env_getitem (self : nat) (k : key) : M value :=
  fun st =>
    match st !! self with
    | None => (Unmodelled, st)
    | Some fr =>
        match dict_get k (vars fr) with
        | Some v => (Ok v, st)
        | None => (Raise KeyError, st)
        end
    end.

(** [self[symbol] = v] on an [Env]. *)
Definition Env_setitem (self : nat) (symbol : value) (v : value) : M unit :=
  k <- lift (key_of symbol) ;;
  fun st =>
    match st !! self with
    | None => (Unmodelled, st)
    | Some fr =>
        (Ok tt, <[self := mkEnv (dict_set k v (vars fr)) (outer fr)]> st)
    end.

(** What iterating over a value yields: the elements of a list, the
    characters of a [str]; nothing else here is iterable. *)
Definition iterate (v : value) : res (list value) :=
  match v with
  | List l => Ok l
  | Symbol s => Ok (map (fun c => Symbol (String c "")) (list_ascii_of_string s))
  | _ => Raise TypeError
  end.

(** [dict.update(pairs)]. *)
Fixpoint dict_update (d : dict) (pairs : list (value * value)) : res dict :=
  match pairs with
  | [] => Ok d
  | (k, v) :: rest =>
      res_bind (key_of k) (fun k' => dict_update (dict_set k' v d) rest)
  end.

(** [Env(params, args, outer)], lines 12-14: [zip] pairs the parameters
    with the arguments and stops at the shorter of the two. The new object
    gets the next free address. *)
Definition Env_init (params : value) (args : list value) (outer : option nat)
  : M nat :=
  ps <- lift (iterate params) ;;
  d <- lift (dict_update [] (combine ps args)) ;;
  fun st => (Ok (length st), st ++ [mkEnv d outer]).

(** ** The host functions bound by [standard_env], lines 34-67 *)

(** Truth value of a value, as [if] and [not] test it: zero, the empty
    text, the empty list, [False] and [None] are false; instances of
    [Procedure] (which defines neither [__bool__] nor [__len__]) and host
    functions are true. *)
Definition truthy (v : value) : bool :=
  match v with
  | Int z => negb (z =? 0)
  | Float f => negb (PrimFloat.eqb f zero)
  | Symbol s => negb (String.eqb s "")
  | List l => match l with [] => false | _ :: _ => true end
  | Bool b => b
  | NoneV => false
  | Procedure _ _ _ => true
  | Builtin _ => true
  end.

(** The numbers: [bool] is a subclass of [int]. *)
Inductive num : Type :=
| NInt (z : Z)
| NFloat (f : float).

Definition as_num (v : value) : option num :=
  match v with
  | Int z => Some (NInt z)
  | Bool b => Some (NInt (if b then 1 else 0))
  | Float f => Some (NFloat f)
  | _ => None
  end.

(** An [int] operand of a float operation is converted to the nearest
    float; one too large for a float raises [OverflowError]. *)
Definition float_of_Z (z : Z) : res float :=
  match binary_normalize prec emax z 0 false with
  | S754_infinity _ => Raise OverflowError
  | sf => Ok (SF2Prim sf)
  end.

Definition num_arith (fz : Z -> Z -> Z) (ff : float -> float -> float)
  (a b : num) : res value :=
  match a, b with
  | NInt x, NInt y => Ok (Int (fz x y))
  | NFloat f, NFloat g => Ok (Float (ff f g))
  | NInt x, NFloat g => res_bind (float_of_Z x) (fun f => Ok (Float (ff f g)))
  | NFloat f, NInt y => res_bind (float_of_Z y) (fun g => Ok (Float (ff f g)))
  end.

(** An [int] and a float are compared by their exact values. *)
Definition Z_float_compare (z : Z) (f : float) : option comparison :=
  match Prim2SF f with
  | S754_nan => None
  | S754_infinity s => Some (if s then Gt else Lt)
  | S754_zero _ => Some (z ?= 0)
  | S754_finite s m e =>
      let v := cond_Zopp s (Zpos m) in
      if 0 <=? e then Some (z ?= v * 2 ^ e) else Some (z * 2 ^ (- e) ?= v)
  end.

(** [None]: one of the two is a NaN, and every comparison is false. *)
Definition num_compare (a b : num) : option comparison :=
  match a, b with
  | NInt x, NInt y => Some (x ?= y)
  | NFloat f, NFloat g =>
      match PrimFloat.compare f g with
      | FEq => Some Eq
      | FLt => Some Lt
      | FGt => Some Gt
      | FNotComparable => None
      end
  | NInt x, NFloat g => Z_float_compare x g
  | NFloat f, NInt y => option_map CompOpp (Z_float_compare y f)
  end.

(** [op.add], bound to ["+"] and ["append"]. *)
Definition py_add (a b : value) : res value :=
  match as_num a, as_num b with
  | Some x, Some y => num_arith Z.add PrimFloat.add x y
  | _, _ =>
      match a, b with
      | List l1, List l2 => Ok (List (l1 ++ l2))
      | Symbol s, Symbol t => Ok (Symbol (s ++ t)%string)
      | _, _ => Raise TypeError
      end
  end.

(** [op.sub]. *)
Definition py_sub (a b : value) : res value :=
  match as_num a, as_num b with
  | Some x, Some y => num_arith Z.sub PrimFloat.sub x y
  | _, _ => Raise TypeError
  end.

Definition is_sequence (v : value) : bool :=
  match v with
  | List _ | Symbol _ => true
  | _ => false
  end.

Definition is_int (v : value) : bool :=
  match v with
  | Int _ | Bool _ => true
  | _ => false
  end.

(** [op.mul]. Repeating a sequence depends on the memory of the host. *)
Definition py_mul (a b : value) : res value :=
  match as_num a, as_num b with
  | Some x, Some y => num_arith Z.mul PrimFloat.mul x y
  | _, _ =>
      if (is_sequence a && is_int b) || (is_int a && is_sequence b)
      then Unmodelled
      else Raise TypeError
  end.

(** [op.gt], [op.lt], [op.ge], [op.le]: [test] says which outcomes of the
    comparison make the answer true. Lists are ordered through the
    equality of their elements, which may depend on object identity. *)
Definition py_order (test : comparison -> bool) (a b : value) : res value :=
  match as_num a, as_num b with
  | Some x, Some y =>
      Ok (Bool (match num_compare x y with
                | Some c => test c
                | None => false
                end))
  | _, _ =>
      match a, b with
      | Symbol s, Symbol t => Ok (Bool (test (String.compare s t)))
      | List _, List _ => Unmodelled
      | _, _ => Raise TypeError
      end
  end.

Definition is_gt (c : comparison) : bool :=
  match c with Gt => true | _ => false end.
Definition is_lt (c : comparison) : bool :=
  match c with Lt => true | _ => false end.
Definition is_ge (c : comparison) : bool :=
  match c with Lt => false | _ => true end.
Definition is_le (c : comparison) : bool :=
  match c with Gt => false | _ => true end.

Definition prim_eqb (p q : prim) : bool :=
  match p, q with
  | op_add, op_add | op_sub, op_sub | op_mul, op_mul
  | op_truediv, op_truediv | op_gt, op_gt | op_lt, op_lt | op_eq, op_eq
  | op_ge, op_ge | op_le, op_le | py_abs, py_abs | p_car, p_car
  | p_cdr, p_cdr | op_is, op_is | py_map, py_map | py_max, py_max
  | py_min, py_min | op_not, op_not | py_pow, py_pow | p_cons, p_cons
  | p_list, p_list | p_list_p, p_list_p | p_null_p, p_null_p
  | p_apply, p_apply | p_begin, p_begin | py_print, py_print
  | py_round, py_round | py_len, py_len | p_number_p, p_number_p
  | p_symbol_p, p_symbol_p | py_callable, py_callable => true
  | _, _ => false
  end.

(** [a == b]; [None] when the answer depends on object identity: two
    instances of [Procedure] are equal only if they are one object, and the
    elements of two lists are first compared by identity ([inside] is set
    for them), which decides for a NaN. *)
Fixpoint py_eq (inside : bool) (a b : value) {struct a} : option bool :=
  match as_num a, as_num b with
  | Some x, Some y =>
      match num_compare x y with
      | Some c => Some (match c with Eq => true | _ => false end)
      | None => if inside then None else Some false
      end
  | _, _ =>
      match a, b with
      | Symbol s, Symbol t => Some (String.eqb s t)
      | NoneV, NoneV => Some true
      | Builtin p, Builtin q => Some (prim_eqb p q)
      | Procedure _ _ _, Procedure _ _ _ => None
      | List la, List lb =>
          if (length la =? length lb)%nat then
            (fix elements (la lb : list value) : option bool :=
               match la, lb with
               | x :: la', y :: lb' =>
                   match py_eq true x y with
                   | Some true => elements la' lb'
                   | r => r
                   end
               | _, _ => Some true
               end) la lb
          else Some false
      | _, _ => Some false
      end
  end.

Definition first_char (s : string) : res value :=
  match s with
  | String c _ => Ok (Symbol (String c ""))
  | EmptyString => Raise IndexError
  end.

Definition rest_chars (s : string) : string :=
  match s with
  | String _ r => r
  | EmptyString => EmptyString
  end.

(** Calling a host function on the evaluated arguments. A wrong number of
    arguments is a [TypeError]; [call] is how the host calls a value (it
    is used by ["apply"], line 57). The functions that are bound but not
    modelled answer [Unmodelled]: true division, [is], the lazy [map],
    [max], [min], [pow], [print] and [round]. *)
Definition apply_prim (call : value -> list value -> M value)
  (p : prim) (args : list value) : M value :=
  match p, args with
  | op_add, [a; b] => lift (py_add a b)
  | op_sub, [a; b] => lift (py_sub a b)
  | op_mul, [a; b] => lift (py_mul a b)
  | op_gt, [a; b] => lift (py_order is_gt a b)
  | op_lt, [a; b] => lift (py_order is_lt a b)
  | op_ge, [a; b] => lift (py_order is_ge a b)
  | op_le, [a; b] => lift (py_order is_le a b)
  | op_eq, [a; b] =>
      match py_eq false a b with
      | Some r => ret (Bool r)
      | None => lift Unmodelled
      end
  | py_abs, [a] =>
      match as_num a with
      | Some (NInt z) => ret (Int (Z.abs z))
      | Some (NFloat f) => ret (Float (PrimFloat.abs f))
      | None => raise TypeError
      end
  | p_car, [x] =>
      match x with
      | List (h :: _) => ret h
      | List [] => raise IndexError
      | Symbol s => lift (first_char s)
      | _ => raise TypeError
      end
  | p_cdr, [x] =>
      match x with
      | List l => ret (List (tail l))
      | Symbol s => ret (Symbol (rest_chars s))
      | _ => raise TypeError
      end
  | op_not, [x] => ret (Bool (negb (truthy x)))
  | p_cons, [x; y] =>
      match y with
      | List l => ret (List (x :: l))
      | _ => raise TypeError
      end
  | p_list, _ => ret (List args)
  | p_list_p, [x] => ret (Bool (match x with List _ => true | _ => false end))
  | p_null_p, [x] => ret (Bool (match x with List [] => true | _ => false end))
  | p_apply, [proc; a] => vs <- lift (iterate a) ;; call proc vs
  | p_begin, _ =>
      match last args with
      | Some v => ret v
      | None => raise IndexError
      end
  | py_len, [x] =>
      match x with
      | List l => ret (Int (Z.of_nat (length l)))
      | Symbol s => ret (Int (Z.of_nat (String.length s)))
      | _ => raise TypeError
      end
  | p_number_p, [x] =>
      ret (Bool (match as_num x with Some _ => true | None => false end))
  | p_symbol_p, [x] => ret (Bool (match x with Symbol _ => true | _ => false end))
  | py_callable, [x] =>
      ret (Bool (match x with
                 | Procedure _ _ _ | Builtin _ => true
                 | _ => false
                 end))
  | (op_truediv | op_is | py_map | py_max | py_min | py_pow | py_print
     | py_round), _ => lift Unmodelled
  | _, _ => raise TypeError
  end.

(** ** The evaluator, lines 114-182 *)

(** [x[0] == name]: only a [str] is equal to a [str]. *)
Definition head_is (name : string) (x0 : value) : bool :=
  match x0 with
  | Symbol s => String.eqb s name
  | _ => false
  end.

(** [evaluate fuel depth x env]: [depth] is the number of activations of
    [evaluate] that the host stack still has room for, this one included;
    entering with none left raises [RecursionError]. A recursive call
    [evaluate(...)] of the source runs with one frame less; a turn of the
    [while True] loop (after [x = ...] at line 161, and after lines 179-180)
    runs in the same activation, with the same [depth].

    [call fuel depth proc args] is the host calling [proc] on the
    unpacked [args]: for an
    instance of [Procedure] that is [Procedure.__call__] (lines 27-28),
    which calls [evaluate] anew. *)
Fixpoint evaluate (fuel depth : nat) (x : value) (env : nat) {struct fuel}
  : M value :=
  match fuel with
  | O => lift NoFuel
  | S fuel' =>
      match depth with
      | O => raise RecursionError
      | S d =>
          match x with
          | Symbol s =>
              self <- Env_find env (KStr s) ;;
              Env_getitem self (KStr s)
          | List l =>
              match l with
              | [] => raise IndexError
              | x0 :: _ =>
                  if head_is "if" x0 then
                    match l with
                    | [_; test; conseq; alt] =>
                        v <- evaluate fuel' d test env ;;
                        evaluate fuel' (S d)
                          (if truthy v then conseq else alt) env
                    | _ => raise ValueError
                    end
                  else if head_is "define" x0 then
                    match l with
                    | [_; symbol; exp] =>
                        v <- evaluate fuel' d exp env ;;
                        Env_setitem env symbol v ;;;
                        ret NoneV
                    | _ => raise ValueError
                    end
                  else if head_is "quote" x0 then ret (List (tail l))
                  else if head_is "set!" x0 then
                    match l with
                    | [_; symbol; exp] =>
                        v <- evaluate fuel' d exp env ;;
                        k <- lift (key_of symbol) ;;
                        self <- Env_find env k ;;
                        Env_setitem self symbol v ;;;
                        ret NoneV
                    | _ => raise ValueError
                    end
                  else if head_is "lambda" x0 then
                    match l with
                    | [_; params; body] => ret (Procedure params body env)
                    | _ => raise ValueError
                    end
                  else
                    vs <- mapM (fun arg => evaluate fuel' d arg env) l ;;
                    match vs with
                    | [] => raise IndexError
                    | proc :: args =>
                        match proc with
                        | Procedure params body penv =>
                            env' <- Env_init params args (Some penv) ;;
                            evaluate fuel' (S d) body env'
                        | _ => call fuel' d proc args
                        end
                    end
              end
          | _ => ret x
          end
      end
  end
with call (fuel depth : nat) (proc : value) (args : list value) {struct fuel}
  : M value :=
  match fuel with
  | O => lift NoFuel
  | S fuel' =>
      match proc with
      | Procedure params body penv =>
          env' <- Env_init params args (Some penv) ;;
          evaluate fuel' depth body env'
      | Builtin p => apply_prim (call fuel' depth) p args
      | _ => raise TypeError
      end
  end.

(** ** The printer, lines 184-189 *)

(** [str(z)] for an [int]: the host refuses more than
    [int_max_str_digits] digits with a [ValueError]. *)
Definition str_of_int (z : Z) : res string :=
  let digits := NilZero.string_of_uint (N.to_uint (Z.to_N (Z.abs z))) in
  if ((0 <? int_max_str_digits)
      && (int_max_str_digits <? String.length digits))%nat
  then Raise ValueError
  else Ok (if z <? 0 then String "-" digits else digits).

(** [schemestr]. The text of a float is the shortest that reads back as
    the same float and the text of a procedure shows its memory address:
    neither is modelled. *)
Fixpoint schemestr (exp : value) : res string :=
  match exp with
  | List l =>
      res_bind
        ((fix each (l : list value) : res (list string) :=
            match l with
            | [] => Ok []
            | e :: rest =>
                res_bind (schemestr e) (fun s =>
                res_bind (each rest) (fun ss => Ok (s :: ss)))
            end) l)
        (fun parts => Ok ("(" ++ String.concat " " parts ++ ")")%string)
  | Int z => str_of_int z
  | Symbol s => Ok s
  | Bool b => Ok (if b then "True" else "False")
  | NoneV => Ok "None"
  | Float _ | Procedure _ _ _ | Builtin _ => Unmodelled
  end.

(** ** The global environment, lines 30-70 *)

(** [standard_env]: the table of lines 34-67, in its order. The names of
    the host's [math] module (line 33) are not part of the model. *)
Definition standard_env : Env :=
  mkEnv
    [ (KStr "+", Builtin op_add);
      (KStr "-", Builtin op_sub);
      (KStr "*", Builtin op_mul);
      (KStr "/", Builtin op_truediv);
      (KStr ">", Builtin op_gt);
      (KStr "<", Builtin op_lt);
      (KStr "=", Builtin op_eq);
      (KStr ">=", Builtin op_ge);
      (KStr "<=", Builtin op_le);
      (KStr "abs", Builtin py_abs);
      (KStr "car", Builtin p_car);
      (KStr "cdr", Builtin p_cdr);
      (KStr "eq?", Builtin op_is);
      (KStr "map", Builtin py_map);
      (KStr "max", Builtin py_max);
      (KStr "min", Builtin py_min);
      (KStr "not", Builtin op_not);
      (KStr "expt", Builtin py_pow);
      (KStr "cons", Builtin p_cons);
      (KStr "list", Builtin p_list);
      (KStr "list?", Builtin p_list_p);
      (KStr "null?", Builtin p_null_p);
      (KStr "apply", Builtin p_apply);
      (KStr "begin", Builtin p_begin);
      (KStr "print", Builtin py_print);
      (KStr "round", Builtin py_round);
      (KStr "append", Builtin op_add);
      (KStr "equal?", Builtin op_eq);
      (KStr "length", Builtin py_len);
      (KStr "number?", Builtin p_number_p);
      (KStr "symbol?", Builtin p_symbol_p);
      (KStr "procedure?", Builtin py_callable) ]
    None.

(** [global_env], line 70: the first object of the store. *)
Definition global_env : nat := 0%nat.

Definition initial_store : store := [standard_env].

(** [evaluate(parse(program))] with the default [env=global_env], as the
    loop of [repl] does at line 194. *)
Definition run (fuel depth : nat) (program : string) : M value :=
  x <- lift (parse program) ;;
  evaluate fuel depth x global_env.

(** A session: the programs are run one after the other on the same
    store; the results are collected. *)
Fixpoint session (fuel depth : nat) (programs : list string) (st : store)
  : list (res value) * store :=
  match programs with
  | [] => ([], st)
  | p :: rest =>
      let (r, st') := run fuel depth p st in
      let (rs, st'') := session fuel depth rest st' in
      (r :: rs, st'')
  end.

(** ** Notions used by the statements *)

(** A result that more fuel or more stack cannot change: the fuel did not
    run out and the host stack was not exhausted. *)
Definition final {A : Type} (r : res A) : bool :=
  match r with
  | NoFuel => false
  | Raise RecursionError => false
  | _ => true
  end.

(** [refines m1 m2]: whatever final result [m1] gives, [m2] gives too. *)
Definition refines {A : Type} (m1 m2 : M A) : Prop :=
  forall st r st', m1 st = (r, st') -> final r = true -> m2 st = (r, st').

(** Every [outer] is the address of an older object: [Env_init] gives a new
    object the next address, and [outer] is set once, at creation. *)
Definition wf_store (st : store) : Prop :=
  forall a fr o, st !! a = Some fr -> outer fr = Some o -> (o < a)%nat.

(** [in_chain st env a]: the frame [a] is [env] or one of its ancestors. *)
Inductive in_chain (st : store) : nat -> nat -> Prop :=
| chain_here : forall env, in_chain st env env
| chain_outer : forall env fr o a,
    st !! env = Some fr -> outer fr = Some o -> in_chain st o a ->
    in_chain st env a.

(** [unbound st env k]: no frame of the chain of [env] has the key [k]. *)
Definition unbound (st : store) (env : nat) (k : key) : Prop :=
  forall a fr, in_chain st env a -> st !! a = Some fr ->
               dict_mem k (vars fr) = false.

(** [innermost st k env self]: [self] is the first frame of the chain of
    [env] that has the key [k]. *)
Inductive innermost (st : store) (k : key) : nat -> nat -> Prop :=
| inner_here : forall env fr,
    st !! env = Some fr -> dict_mem k (vars fr) = true ->
    innermost st k env env
| inner_outer : forall env fr o self,
    st !! env = Some fr -> dict_mem k (vars fr) = false ->
    outer fr = Some o -> innermost st k o self ->
    innermost st k env self.

(** The path of lines 178-180 for an instance of [Procedure]: bind the
    parameters in a new [Env] and go on, in the same activation, with the
    body. The activation has [depth] frames left, itself included. *)
Definition trampoline (fuel depth : nat) (proc : value) (args : list value)
  : M value :=
  match proc with
  | Procedure params body penv =>
      env' <- Env_init params args (Some penv) ;;
      evaluate fuel depth body env'
  | _ => raise TypeError
  end.

(** The names of the special forms that unpack their operands, with the
    number of operands the unpacking expects. *)
Definition operand_count (form : string) : option nat :=
  if String.eqb form "if" then Some 3%nat
  else if String.eqb form "define" then Some 2%nat
  else if String.eqb form "set!" then Some 2%nat
  else if String.eqb form "lambda" then Some 2%nat
  else None.

(** The heads the evaluator treats before procedure calls, lines 159-172. *)
Definition special_form (x0 : value) : bool :=
  head_is "if" x0 || head_is "define" x0 || head_is "quote" x0
  || head_is "set!" x0 || head_is "lambda" x0.

(** The bindings [zip] makes of parameter names and arguments. *)
Definition bindings (names : list string) (args : list value) : dict :=
  fold_left (fun acc p => dict_set (KStr (fst p)) (snd p) acc)
    (combine names args) [].

(** The error kinds the specification names. *)
Definition spec_error_kinds : list string :=
  ["SyntaxError"; "UnboundVariable"; "ArityMismatch"; "NotCallable"].

(** The frame made for a call with the parameter [name] bound to [v],
    under the frame [o]. *)
Definition frame1 (name : string) (v : value) (o : nat) : Env :=
  mkEnv [(KStr name, v)] (Some o).

(** *** Procedures that call themselves in tail position

    [tail_loop d params test conseq alt penv args st out]: the procedure
    [(lambda params (if test conseq alt))] captured at [penv], applied to
    [args] in the store [st], ends with [out] after any number of turns of
    the following kind. A turn binds [params] to the arguments in a new
    environment and evaluates [test] there, with [d] frames. Either the
    selected branch, evaluated with the frames of the activation, gives
    the final result [out] ([tail_exit]); or the selected branch is an
    application whose elements, evaluated with [d] frames, are the
    procedure itself and new arguments, with which the next turn starts
    ([tail_again]). [f1] and [f2] are the fuel the evaluations of a turn
    need. *)
Inductive tail_loop (d : nat) (params test conseq alt : value) (penv : nat)
  : list value -> store -> res value * store -> Prop :=
| tail_exit : forall args st e st0 f1 v st1 f2 out,
    Env_init params args (Some penv) st = (Ok e, st0) ->
    evaluate f1 d test e st0 = (Ok v, st1) ->
    evaluate f2 (S d) (if truthy v then conseq else alt) e st1 = out ->
    final (fst out) = true ->
    tail_loop d params test conseq alt penv args st out
| tail_again : forall args st e st0 f1 v st1 x0 rest f2 args' st2 out,
    Env_init params args (Some penv) st = (Ok e, st0) ->
    evaluate f1 d test e st0 = (Ok v, st1) ->
    (if truthy v then conseq else alt) = List (x0 :: rest) ->
    special_form x0 = false ->
    mapM (fun a => evaluate f2 d a e) (x0 :: rest) st1
    = (Ok (Procedure params (List [Symbol "if"; test; conseq; alt]) penv
           :: args'), st2) ->
    tail_loop d params test conseq alt penv args' st2 out ->
    tail_loop d params test conseq alt penv args st out.

(** *** The countdown

    [(lambda (n) (if (= n 0) b (loop (- n 1))))], bound to [loop] in the
    global environment. *)
Definition loop_test : value := List [Symbol "="; Symbol "n"; Int 0].

Definition loop_again : value :=
  List [Symbol "loop"; List [Symbol "-"; Symbol "n"; Int 1]].

Definition loop_body (b : Z) : value :=
  List [Symbol "if"; loop_test; Int b; loop_again].

Definition loop_proc (b : Z) : value :=
  Procedure (List [Symbol "n"]) (loop_body b) global_env.

Definition loop_define (b : Z) : value :=
  List [Symbol "define"; Symbol "loop";
        List [Symbol "lambda"; List [Symbol "n"]; loop_body b]].

(** The global frame once [loop] is defined. *)
Definition loop_global (b : Z) : Env :=
  mkEnv (dict_set (KStr "loop") (loop_proc b) (vars standard_env)) None.

(** What a run of the parser on [n] tokens may give when the fuel is
    enough: a tree and fewer tokens, or one of the two exceptions. *)
Definition parsed (n : nat) (r : res (value * list string)) : Prop :=
  match r with
  | Ok (_, rest) => (length rest < n)%nat
  | Raise e => e = SyntaxError \/ e = IndexError
  | NoFuel => False
  | Unmodelled => False
  end.

(** *** Well-formed values and stores *)

(** [value_ok n v]: every procedure inside [v] captured one of the first
    [n] objects of the store. *)
Fixpoint value_ok (n : nat) (v : value) : Prop :=
  match v with
  | Procedure ps body env => (env < n)%nat /\ value_ok n ps /\ value_ok n body
  | List l =>
      (fix all (l : list value) : Prop :=
         match l with
         | [] => True
         | x :: rest => value_ok n x /\ all rest
         end) l
  | _ => True
  end.

(** [store_ok st]: every [outer] is an older object and every value bound
    in [st] is well formed. This holds of the initial store and is kept by
    the evaluator. *)
Definition store_ok (st : store) : Prop :=
  forall a fr, st !! a = Some fr ->
    (forall o, outer fr = Some o -> (o < a)%nat) /\
    Forall (fun kv => value_ok (length st) (snd kv)) (vars fr).

(** [keeps n0 m Q]: run in a well-formed store of [n0] objects or more,
    [m] leaves a well-formed store, removes no object, and a value [a] it
    returns satisfies [Q a n] for the number [n] of objects at the end. *)
Definition keeps {A : Type} (n0 : nat) (m : M A) (Q : A -> nat -> Prop)
  : Prop :=
  forall st r st',
    store_ok st -> (n0 <= length st)%nat -> m st = (r, st') ->
    store_ok st' /\ (length st <= length st')%nat /\
    forall a, r = Ok a -> Q a (length st').

(** *** The lexer, seen as one pass *)

Definition is_paren (c : ascii) : bool := Ascii.eqb c "(" || Ascii.eqb c ")".

(** The characters that end a token. *)
Definition is_delimiter (c : ascii) : bool := is_space c || is_paren c.

(** A text that is one token and no parenthesis: not empty, and without a
    separator or a parenthesis. *)
Definition atom_text (s : string) : bool :=
  negb (String.eqb s "")
  && forallb (fun c => negb (is_delimiter c)) (list_ascii_of_string s).

(** What a token is: a parenthesis, or a text without separator and
    parenthesis. *)
Definition token_ok (t : string) : bool :=
  String.eqb t "(" || String.eqb t ")" || atom_text t.

Definition flush (cur : string) : list string :=
  if String.eqb cur "" then [] else [cur].

(** The tokens of [chars] read in one pass, from left to right: a
    separator ends the token being read ([cur]), a parenthesis ends it and
    is a token by itself, any other character goes on with it. [tokenize]
    is compared with this function. *)
Fixpoint lex (cur : string) (chars : string) : list string :=
  match chars with
  | EmptyString => flush cur
  | String c rest =>
      if is_space c then flush cur ++ lex "" rest
      else if is_paren c then flush cur ++ String c "" :: lex "" rest
      else lex (cur ++ String c "")%string rest
  end.

(** *** What the printer writes and the parser reads back *)

(** The texts of the elements of a list, as [map(schemestr, exp)] gives
    them to [join] (line 187). *)
Fixpoint schemestr_each (l : list value) : res (list string) :=
  match l with
  | [] => Ok []
  | e :: rest =>
      res_bind (schemestr e) (fun s =>
      res_bind (schemestr_each rest) (fun ss => Ok (s :: ss)))
  end.

(** The decimal text of an integer, as [str_of_int] writes it. *)
Definition int_text (z : Z) : string :=
  let digits := NilZero.string_of_uint (N.to_uint (Z.to_N (Z.abs z))) in
  if z <? 0 then String "-" digits else digits.

(** An integer that the host agrees to write in decimal. *)
Definition short_int (z : Z) : bool :=
  negb ((0 <? int_max_str_digits)
        && (int_max_str_digits
            <? String.length
                 (NilZero.string_of_uint (N.to_uint (Z.to_N (Z.abs z))))))%nat.

(** A text that [atom] reads as a symbol, and as this symbol. *)
Definition symbol_text (s : string) : bool :=
  atom_text s && match atom s with Symbol _ => true | _ => false end.

(** The trees that are printed and read back: lists of integers and of
    symbols whose text is one token that is not a number. *)
Fixpoint readable (x : value) : bool :=
  match x with
  | Int z => short_int z
  | Symbol s => symbol_text s
  | List l => forallb readable l
  | _ => false
  end.

(** The tokens of the text of a tree. *)
Fixpoint tokens_of (x : value) : list string :=
  match x with
  | Int z => [int_text z]
  | Symbol s => [s]
  | List l => "(" :: flat_map tokens_of l ++ [")"]
  | _ => []
  end.

(** *** Lists that are closed

    [after_close depth tokens]: the tokens that follow the parenthesis
    closing the list being read, when [depth] lists opened inside it are
    still open; [None] when the tokens end before. The scan counts
    parentheses and looks at nothing else. *)
Fixpoint after_close (depth : nat) (tokens : list string)
  : option (list string) :=
  match tokens with
  | [] => None
  | t :: rest =>
      if String.eqb t "(" then after_close (S depth) rest
      else if String.eqb t ")" then
        match depth with
        | O => Some rest
        | S d => after_close d rest
        end
      else after_close depth rest
  end.

(** *** Stores that only grow

    [grows st st']: every environment of [st] is in [st'] at the same
    address, with the same [outer], and with the keys it had, in the order
    they had, before the keys it may have got since. *)
Definition grows (st st' : store) : Prop :=
  forall a fr,
    st !! a = Some fr ->
    exists fr',
      st' !! a = Some fr' /\ outer fr' = outer fr /\
      exists more, dict_keys (vars fr') = dict_keys (vars fr) ++ more.

(** [only_adds m]: whatever [m] answers, it leaves a store grown from the
    one it started in. *)
Definition only_adds {A : Type} (m : M A) : Prop :=
  forall st, grows st (snd (m st)).

(** *** Arithmetic expressions

    The expressions built from integer literals, names and the three
    operations that "+", "-" and "*" are bound to by [standard_env]. *)
Inductive arith_op : Type := Add | Sub | Mul.

Inductive arith : Type :=
| Num (z : Z)
| Var (name : string)
| Bin (o : arith_op) (a b : arith).

Definition op_name (o : arith_op) : string :=
  match o with Add => "+" | Sub => "-" | Mul => "*" end.

Definition op_prim (o : arith_op) : prim :=
  match o with Add => op_add | Sub => op_sub | Mul => op_mul end.

Definition op_fun (o : arith_op) : Z -> Z -> Z :=
  match o with Add => Z.add | Sub => Z.sub | Mul => Z.mul end.

(** The tree that [parse] gives for the expression. *)
Fixpoint expr (e : arith) : value :=
  match e with
  | Num z => Int z
  | Var name => Symbol name
  | Bin o a b => List [Symbol (op_name o); expr a; expr b]
  end.

(** The integer the expression stands for, when the names have the values
    [rho]. *)
Fixpoint denote (rho : string -> Z) (e : arith) : Z :=
  match e with
  | Num z => z
  | Var name => rho name
  | Bin o a b => op_fun o (denote rho a) (denote rho b)
  end.

Fixpoint names_of (e : arith) : list string :=
  match e with
  | Num _ => []
  | Var name => [name]
  | Bin _ a b => names_of a ++ names_of b
  end.

(** The number of levels of the tree. *)
Fixpoint height (e : arith) : nat :=
  match e with
  | Num _ | Var _ => 1
  | Bin _ a b => S (Nat.max (height a) (height b))
  end.

(** [resolves st env name v]: from [env], the name is found and has the
    value [v]. *)
Definition resolves (st : store) (env : nat) (name : string) (v : value)
  : Prop :=
  exists self fr,
    innermost st (KStr name) env self /\ st !! self = Some fr /\
    dict_get (KStr name) (vars fr) = Some v.

(** *** The parser on a bounded stack

    [tokens_to_syntax_tree], lines 80-98, again, now with the number
    [depth] of its own activations that the host stack has room for, the
    one being entered included. The loop of lines 91-92 runs in the
    activation that read the opening parenthesis, and each element is read
    by a new activation (line 92); entering with no room left raises
    [RecursionError]. *)
Fixpoint tokens_to_syntax_tree_within (fuel depth : nat) (tokens : list string)
  : res (value * list string) :=
  match fuel with
  | O => NoFuel
  | S fuel' =>
      match depth with
      | O => Raise RecursionError
      | S d =>
          match tokens with
          | [] => Raise SyntaxError
          | token :: tokens' =>
              if String.eqb token "(" then read_list_within fuel' d tokens' []
              else if String.eqb token ")" then Raise SyntaxError
              else Ok (atom token, tokens')
          end
      end
  end
with read_list_within (fuel depth : nat) (tokens : list string)
       (L : list value) : res (value * list string) :=
  match fuel with
  | O => NoFuel
  | S fuel' =>
      match tokens with
      | [] => Raise IndexError
      | token :: tokens' =>
          if String.eqb token ")" then Ok (List L, tokens')
          else
            res_bind (tokens_to_syntax_tree_within fuel' depth tokens)
              (fun r => read_list_within fuel' depth (snd r) (L ++ [fst r]))
      end
  end.

Definition parse_within (depth : nat) (program : string) : res value :=
  let tokens := tokenize program in
  res_bind (tokens_to_syntax_tree_within (parse_fuel tokens) depth tokens)
    (fun r => Ok (fst r)).

(** The levels of a tree: one for an atom, one more than its deepest
    element for a list. *)
Fixpoint levels (x : value) : nat :=
  match x with
  | List l =>
      S ((fix deepest (l : list value) : nat :=
            match l with
            | [] => O
            | y :: rest => Nat.max (levels y) (deepest rest)
            end) l)
  | _ => 1
  end.

Definition deepest (l : list value) : nat :=
  fold_right (fun y m => Nat.max (levels y) m) O l.

(** *** The number of arguments of the host functions

    [prim_arity p]: the number of positional arguments that the host
    function [p] requires (the two-argument functions of [operator], the
    one-parameter and two-parameter lambdas of the table, [abs], [len],
    [callable]); [None] for the functions that take any number ("list",
    "begin") and for those that are not modelled. *)
Definition prim_arity (p : prim) : option nat :=
  match p with
  | op_add | op_sub | op_mul | op_gt | op_lt | op_eq | op_ge | op_le
  | p_cons | p_apply => Some 2%nat
  | py_abs | p_car | p_cdr | op_not | p_list_p | p_null_p | py_len
  | p_number_p | p_symbol_p | py_callable => Some 1%nat
  | _ => None
  end.

(** * Properties *)

(** ** The monad *)

Lemma refines_refl {A : Type} (m : M A) : refines m m.
Proof. intros st r st' H _. exact H. Qed.

Lemma refines_bind {A B : Type} (m1 m2 : M A) (k1 k2 : A -> M B) :
  refines m1 m2 -> (forall a, refines (k1 a) (k2 a)) ->
  refines (bind m1 k1) (bind m2 k2).
Proof.
  intros Hm Hk st r st' H Hfin. unfold bind in *.
  destruct (m1 st) as [[a | e | | ] st1] eqn:E1.
  - rewrite (Hm _ _ _ E1 eq_refl). now apply Hk.
  - injection H as <- <-.
    assert (Hf : final (@Raise A e) = true) by (destruct e; easy).
    now rewrite (Hm _ _ _ E1 Hf).
  - injection H as <- <-. discriminate Hfin.
  - injection H as <- <-. now rewrite (Hm _ _ _ E1 eq_refl).
Qed.

Lemma refines_mapM {A B : Type} (f1 f2 : A -> M B) (l : list A) :
  (forall a, refines (f1 a) (f2 a)) -> refines (mapM f1 l) (mapM f2 l).
Proof.
  intros Hf. induction l as [| a l IH]; simpl.
  - apply refines_refl.
  - apply refines_bind; [apply Hf |]. intros b.
    apply refines_bind; [apply IH |]. intros bs. apply refines_refl.
Qed.

Lemma refines_apply_prim (c1 c2 : value -> list value -> M value) p args :
  (forall proc vs, refines (c1 proc vs) (c2 proc vs)) ->
  refines (apply_prim c1 p args) (apply_prim c2 p args).
Proof.
  intros Hc. destruct p; try apply refines_refl.
  destruct args as [| proc [| a [| b args]]]; try apply refines_refl.
  simpl. apply refines_bind; [apply refines_refl |]. intros vs. apply Hc.
Qed.

Lemma refines_raise_RecursionError {A : Type} (m : M A) :
  refines (raise RecursionError) m.
Proof. intros st r st' H Hfin. injection H as <- <-. discriminate Hfin. Qed.

Lemma refines_NoFuel {A : Type} (m : M A) : refines (lift NoFuel) m.
Proof. intros st r st' H Hfin. injection H as <- <-. discriminate Hfin. Qed.

(** ** More fuel and more stack keep every final result *)

Lemma evaluate_call_mono (fuel : nat) :
  (forall fuel' d d' x env,
      (fuel <= fuel')%nat -> (d <= d')%nat ->
      refines (evaluate fuel d x env) (evaluate fuel' d' x env)) /\
  (forall fuel' d d' proc args,
      (fuel <= fuel')%nat -> (d <= d')%nat ->
      refines (call fuel d proc args) (call fuel' d' proc args)).
Proof.
  induction fuel as [| fuel [IHe IHc]]; split; intros fuel' d d'.
  - intros x env _ _. apply refines_NoFuel.
  - intros proc args _ _. apply refines_NoFuel.
  - intros x env Hf Hd.
    destruct fuel' as [| fuel']; [lia |].
    destruct d as [| d]; [apply refines_raise_RecursionError |].
    destruct d' as [| d']; [lia |].
    assert (Hf' : (fuel <= fuel')%nat) by lia.
    assert (Hd' : (d <= d')%nat) by lia.
    destruct x as [z | f | s | l | b | | ps body penv | p];
      try apply refines_refl.
    destruct l as [| x0 l]; [apply refines_refl |].
    cbn [evaluate].
    destruct (head_is "if" x0).
    { destruct l as [| t [| c [| a [| ? ?]]]]; try apply refines_refl.
      apply refines_bind; [now apply IHe |]. intros v. now apply IHe. }
    destruct (head_is "define" x0).
    { destruct l as [| sy [| ex [| ? ?]]]; try apply refines_refl.
      apply refines_bind; [now apply IHe |]. intros v. apply refines_refl. }
    destruct (head_is "quote" x0); [apply refines_refl |].
    destruct (head_is "set!" x0).
    { destruct l as [| sy [| ex [| ? ?]]]; try apply refines_refl.
      apply refines_bind; [now apply IHe |]. intros v. apply refines_refl. }
    destruct (head_is "lambda" x0).
    { destruct l as [| sy [| ex [| ? ?]]]; apply refines_refl. }
    apply refines_bind.
    { apply refines_mapM. intros a. now apply IHe. }
    intros [| proc args]; [apply refines_refl |].
    destruct proc; try (now apply IHc).
    apply refines_bind; [apply refines_refl |]. intros env'. now apply IHe.
  - intros proc args Hf Hd.
    destruct fuel' as [| fuel']; [lia |].
    assert (Hf' : (fuel <= fuel')%nat) by lia.
    cbn [call].
    destruct proc; try apply refines_refl.
    + apply refines_bind; [apply refines_refl |]. intros env'. now apply IHe.
    + apply refines_apply_prim. intros proc vs. now apply IHc.
Qed.

Lemma evaluate_mono fuel fuel' d d' x env st r st' :
  evaluate fuel d x env st = (r, st') -> final r = true ->
  (fuel <= fuel')%nat -> (d <= d')%nat ->
  evaluate fuel' d' x env st = (r, st').
Proof.
  intros H Hfin Hf Hd.
  exact (proj1 (evaluate_call_mono fuel) fuel' d d' x env Hf Hd st r st' H Hfin).
Qed.


(** ** Unfolding the evaluator *)

Lemma evaluate_if fuel d test conseq alt env :
  evaluate (S fuel) (S d) (List [Symbol "if"; test; conseq; alt]) env =
  (v <- evaluate fuel d test env ;;
   evaluate fuel (S d) (if truthy v then conseq else alt) env).
Proof. reflexivity. Qed.

Lemma evaluate_define fuel d symbol exp env :
  evaluate (S fuel) (S d) (List [Symbol "define"; symbol; exp]) env =
  (v <- evaluate fuel d exp env ;; Env_setitem env symbol v ;;; ret NoneV).
Proof. reflexivity. Qed.

Lemma evaluate_set fuel d symbol exp env :
  evaluate (S fuel) (S d) (List [Symbol "set!"; symbol; exp]) env =
  (v <- evaluate fuel d exp env ;;
   k <- lift (key_of symbol) ;;
   self <- Env_find env k ;;
   Env_setitem self symbol v ;;; ret NoneV).
Proof. reflexivity. Qed.

Lemma evaluate_symbol fuel d s env :
  evaluate (S fuel) (S d) (Symbol s) env =
  (self <- Env_find env (KStr s) ;; Env_getitem self (KStr s)).
Proof. reflexivity. Qed.

(** ** C9: the empty sequence *)

(** C9. The text [()] parses to the empty sequence, and evaluating the
    empty sequence, in any environment and store, with fuel and stack left,
    raises the host's [IndexError] (from [x[0]] at line 159) and leaves the
    store as it was; [IndexError] is none of the error kinds of the
    specification. *)
Theorem C9_evaluate_empty_sequence :
  forall fuel d env st,
    parse "()" = Ok (List []) /\
    evaluate (S fuel) (S d) (List []) env st = (Raise IndexError, st) /\
    ~ In (exn_name IndexError) spec_error_kinds.
Proof.
  intros fuel d env st. split; [| split].
  - vm_compute. reflexivity.
  - reflexivity.
  - simpl. intros [H | [H | [H | [H | []]]]]; discriminate H.
Qed.

(** ** C2: quotation *)

(** C2 (the code against the claim). [(quote e ...)] evaluates to the list
    of its operands ([x[1:]], line 167), so [(quote e)] gives the
    one-element list holding [e], not [e]; the text [(quote (+ 1 2))] is
    printed as [((+ 1 2))]. *)
Theorem C2_quote_returns_operand_list :
  (forall fuel d operands env st,
      evaluate (S fuel) (S d) (List (Symbol "quote" :: operands)) env st
      = (Ok (List operands), st)) /\
  parse "(quote (+ 1 2))"
  = Ok (List [Symbol "quote"; List [Symbol "+"; Int 1; Int 2]]) /\
  fst (run 1 1 "(quote (+ 1 2))" initial_store)
  = Ok (List [List [Symbol "+"; Int 1; Int 2]]) /\
  res_bind (fst (run 1 1 "(quote (+ 1 2))" initial_store)) schemestr
  = Ok "((+ 1 2))".
Proof.
  split; [| split; [| split]].
  - intros fuel d operands env st. reflexivity.
  - vm_compute. reflexivity.
  - vm_compute. reflexivity.
  - vm_compute. reflexivity.
Qed.

(** ** C4: errors of the parser *)

(** C4 (the code against the claim). The empty input and a leading [)]
    raise [SyntaxError], but when the tokens run out inside an open list
    the loop of line 91 indexes the empty list: [parse("(")] and
    [parse("(+ 1")] raise [IndexError]. *)
Theorem C4_parse_open_list_raises_IndexError :
  parse "" = Raise SyntaxError /\
  parse ")" = Raise SyntaxError /\
  parse "(" = Raise IndexError /\
  parse "(+ 1" = Raise IndexError /\
  exn_name IndexError <> exn_name SyntaxError.
Proof.
  repeat split; try (vm_compute; reflexivity).
  simpl. discriminate.
Qed.

(** ** C8: the conditional *)

Lemma truthy_false_iff v :
  truthy v = false <->
  (v = Bool false \/ v = Int 0 \/
   (exists f, v = Float f /\ PrimFloat.eqb f zero = true) \/
   v = List [] \/ v = Symbol "" \/ v = NoneV).
Proof.
  split.
  - destruct v as [z | f | s | l | b | | ps body penv | p]; simpl; intros H.
    + right; left. apply negb_false_iff, Z.eqb_eq in H. now subst.
    + right; right; left. exists f. split; [easy |]. now apply negb_false_iff.
    + do 4 right; left. apply negb_false_iff, String.eqb_eq in H. now subst.
    + right; right; right; left. destruct l; [easy | discriminate].
    + left. now subst.
    + do 5 right. reflexivity.
    + discriminate.
    + discriminate.
  - intros [-> | [-> | [[f [-> Hf]] | [-> | [-> | ->]]]]]; simpl;
      try reflexivity.
    now rewrite Hf.
Qed.

Lemma evaluate_if_selected fuel d test conseq alt env st v st1 :
  evaluate fuel d test env st = (Ok v, st1) ->
  evaluate (S fuel) (S d) (List [Symbol "if"; test; conseq; alt]) env st
  = evaluate fuel (S d) (if truthy v then conseq else alt) env st1.
Proof.
  intros H. rewrite evaluate_if. unfold bind. now rewrite H.
Qed.

(** C8 (counterexample). [None], the value of a [define], is false as a
    test although it is neither [False], [0], [0.0] nor the empty sequence:
    [(if (define x 1) 1 2)] evaluates to [2]. *)
Lemma C8_none_is_falsy :
  fst (run 10 10 "(if (define x 1) 1 2)" initial_store) = Ok (Int 2) /\
  fst (run 10 10 "(define x 1)" initial_store) = Ok NoneV /\
  truthy NoneV = false /\
  NoneV <> Bool false /\ NoneV <> Int 0 /\ NoneV <> Float zero /\
  NoneV <> List [].
Proof.
  repeat split; try (vm_compute; reflexivity); discriminate.
Qed.

(** C8 (amended). [(if test conseq alt)] evaluates [test] once, in a
    recursive call, and goes on in the same activation with [conseq] when
    the value of the test is true for the host and with [alt] otherwise;
    the branch not selected plays no part in the result, and neither
    branch does when the test raises. Among the values of the kinds of
    [value] (integers, floats, texts, lists, booleans, [None], instances
    of [Procedure] and host functions) the false ones are [False], the
    integer [0], a float equal to zero, the empty list, the empty text and
    [None], and no other. A host function may return a value of another
    kind, whose truth the host decides in the same way: "expt" can return
    a complex number, and a test such as
    "(- (expt -1 0.5) (expt -1 0.5))" is outside these kinds (here it
    answers [Unmodelled]). [(if (> 3 2) 1 2)] evaluates to [1]. *)
Theorem C8_if_semantics :
  (forall fuel d test conseq alt env st v st1,
      evaluate fuel d test env st = (Ok v, st1) ->
      (truthy v = true ->
       evaluate (S fuel) (S d) (List [Symbol "if"; test; conseq; alt]) env st
       = evaluate fuel (S d) conseq env st1) /\
      (truthy v = false ->
       evaluate (S fuel) (S d) (List [Symbol "if"; test; conseq; alt]) env st
       = evaluate fuel (S d) alt env st1)) /\
  (forall fuel d test conseq alt env st e st1,
      evaluate fuel d test env st = (Raise e, st1) ->
      evaluate (S fuel) (S d) (List [Symbol "if"; test; conseq; alt]) env st
      = (Raise e, st1)) /\
  (forall v,
      truthy v = false <->
      (v = Bool false \/ v = Int 0 \/
       (exists f, v = Float f /\ PrimFloat.eqb f zero = true) \/
       v = List [] \/ v = Symbol "" \/ v = NoneV)) /\
  fst (run 10 10 "(if (> 3 2) 1 2)" initial_store) = Ok (Int 1) /\
  (forall fuel d args st,
      call (S fuel) d (Builtin py_pow) args st = (Unmodelled, st)) /\
  fst (run 10 10 "(if (- (expt -1 0.5) (expt -1 0.5)) 1 2)" initial_store)
  = Unmodelled.
Proof.
  split; [| split; [| split; [| split; [| split]]]].
  - intros fuel d test conseq alt env st v st1 Htest.
    rewrite (evaluate_if_selected _ _ _ conseq alt _ _ _ _ Htest).
    split; intros Hv; now rewrite Hv.
  - intros fuel d test conseq alt env st e st1 Htest.
    rewrite evaluate_if. unfold bind. now rewrite Htest.
  - apply truthy_false_iff.
  - vm_compute. reflexivity.
  - reflexivity.
  - vm_compute. reflexivity.
Qed.

Lemma C8_if_semantics_witness :
  evaluate 3 2 (List [Symbol "if"; Int 0; Symbol "never"; Int 5]) global_env
    initial_store
  = evaluate 2 2 (Int 5) global_env initial_store.
Proof.
  apply (proj2 (proj1 C8_if_semantics 2%nat 1%nat (Int 0) (Symbol "never") (Int 5)
                  global_env initial_store (Int 0) initial_store eq_refl)).
  reflexivity.
Defined.

(** ** C5: operand and argument counts *)

Lemma operand_count_cases form n :
  operand_count form = Some n ->
  (form = "if" /\ n = 3%nat) \/ (form = "define" /\ n = 2%nat) \/
  (form = "set!" /\ n = 2%nat) \/ (form = "lambda" /\ n = 2%nat).
Proof.
  unfold operand_count.
  destruct (String.eqb_spec form "if") as [-> | _];
    [intros [= <-]; now left |].
  destruct (String.eqb_spec form "define") as [-> | _];
    [intros [= <-]; right; now left |].
  destruct (String.eqb_spec form "set!") as [-> | _];
    [intros [= <-]; right; right; now left |].
  destruct (String.eqb_spec form "lambda") as [-> | _];
    [intros [= <-]; right; right; now right | discriminate].
Qed.

Lemma wrong_operand_count fuel d form operands n env st :
  operand_count form = Some n -> length operands <> n ->
  evaluate (S fuel) (S d) (List (Symbol form :: operands)) env st
  = (Raise ValueError, st).
Proof.
  intros Hc Hlen.
  destruct (operand_count_cases _ _ Hc) as [[-> ->] | [[-> ->] | [[-> ->] | [-> ->]]]];
    destruct operands as [| a [| b [| c [| e operands]]]];
    simpl in Hlen; try lia; reflexivity.
Qed.

Lemma dict_update_names (names : list string) (args : list value) (d : dict) :
  dict_update d (combine (map Symbol names) args)
  = Ok (fold_left (fun acc p => dict_set (KStr (fst p)) (snd p) acc)
          (combine names args) d).
Proof.
  revert args d. induction names as [| name names IH]; intros args d.
  - reflexivity.
  - destruct args as [| v args]; [reflexivity |]. simpl. apply IH.
Qed.

Lemma Env_init_names names args o st :
  Env_init (List (map Symbol names)) args o st
  = (Ok (length st),
     st ++ [mkEnv (bindings names args) o]).
Proof.
  unfold Env_init, bind, lift, bindings. simpl. now rewrite dict_update_names.
Qed.

(** C5 (counterexample). A procedure of two parameters applied to one
    argument returns normally, one of one parameter applied to two
    arguments too, and [(if 1 2)] raises [ValueError], which is not an
    [ArityMismatch]. *)
Lemma C5_arity_not_checked :
  fst (run 10 10 "((lambda (x y) x) 1)" initial_store) = Ok (Int 1) /\
  fst (run 10 10 "((lambda (x) x) 1 2)" initial_store) = Ok (Int 1) /\
  fst (run 10 10 "(if 1 2)" initial_store) = Raise ValueError /\
  exn_name ValueError <> "ArityMismatch".
Proof.
  repeat split; try (vm_compute; reflexivity). simpl. discriminate.
Qed.

(** C5 (amended). A special form [if], [define], [set!] or [lambda] with
    a wrong number of operands raises the host's [ValueError] (the
    unpacking of lines 160, 163, 169 and 173) and leaves the store as it
    was. Creating the environment of a call never fails on the counts: the
    parameter names are paired with the arguments in order, up to the
    shorter of the two lists. *)
Theorem C5_operand_counts :
  (forall fuel d form operands n env st,
      operand_count form = Some n -> length operands <> n ->
      evaluate (S fuel) (S d) (List (Symbol form :: operands)) env st
      = (Raise ValueError, st)) /\
  (forall names args o st,
      Env_init (List (map Symbol names)) args o st
      = (Ok (length st), st ++ [mkEnv (bindings names args) o]) /\
      bindings names args
      = fold_left (fun acc p => dict_set (KStr (fst p)) (snd p) acc)
          (combine names args) [] /\
      length (combine names args) = Nat.min (length names) (length args)).
Proof.
  split.
  - intros fuel d form operands n env st Hc Hlen.
    now apply wrong_operand_count with (n := n).
  - intros names args o st.
    split; [apply Env_init_names | split; [reflexivity | apply length_combine]].
Qed.

Lemma C5_operand_counts_witness :
  evaluate 1 1 (List [Symbol "lambda"; List [Symbol "x"]]) global_env initial_store
  = (Raise ValueError, initial_store).
Proof.
  apply (proj1 C5_operand_counts 0%nat 0%nat "lambda" [List [Symbol "x"]] 2%nat
           global_env initial_store).
  - reflexivity.
  - simpl. lia.
Defined.

(** ** Dictionaries and chains of environments *)

Lemma key_eqb_KStr name k : key_eqb (KStr name) k = true -> k = KStr name.
Proof.
  destruct k as [s | z | f]; simpl; try discriminate.
  intros H. apply String.eqb_eq in H. now subst.
Qed.

Lemma key_eqb_other name k : k <> KStr name -> key_eqb k (KStr name) = false.
Proof.
  destruct k as [s | z | f]; simpl; try reflexivity.
  intros H. apply String.eqb_neq. congruence.
Qed.

Lemma dict_get_set_same name v d :
  dict_get (KStr name) (dict_set (KStr name) v d) = Some v.
Proof.
  induction d as [| [k' v'] d IH]; cbn [dict_get dict_set].
  - simpl. now rewrite String.eqb_refl.
  - destruct (key_eqb (KStr name) k') eqn:E; cbn [dict_get]; rewrite E; easy.
Qed.

Lemma dict_get_set_other name k v d :
  k <> KStr name -> dict_get k (dict_set (KStr name) v d) = dict_get k d.
Proof.
  intros Hk. induction d as [| [k' v'] d IH]; cbn [dict_get dict_set].
  - now rewrite key_eqb_other.
  - destruct (key_eqb (KStr name) k') eqn:E; cbn [dict_get].
    + apply key_eqb_KStr in E. subst k'. now rewrite key_eqb_other.
    + now rewrite IH.
Qed.

Lemma dict_keys_set_mem k v d :
  dict_mem k d = true -> dict_keys (dict_set k v d) = dict_keys d.
Proof.
  unfold dict_mem, dict_keys.
  induction d as [| [k' v'] d IH]; cbn [dict_get dict_set map];
    [discriminate |].
  destruct (key_eqb k k'); cbn [map fst]; [reflexivity |].
  intros H. now rewrite IH.
Qed.

Lemma Env_find_from_unbound n st env k :
  wf_store st -> (env < n)%nat -> is_Some (st !! env) -> unbound st env k ->
  Env_find_from n st env k = Raise AttributeError.
Proof.
  intros Hwf. revert env.
  induction n as [| n IH]; intros env Hlt [fr Hfr] Hub; [lia |].
  simpl. rewrite Hfr.
  rewrite (Hub env fr (chain_here st env) Hfr).
  destruct (outer fr) as [o |] eqn:Ho; [| reflexivity].
  pose proof (Hwf env fr o Hfr Ho) as Hlt'.
  apply IH.
  - lia.
  - apply lookup_lt_is_Some. apply lookup_lt_Some in Hfr. lia.
  - intros a fr' Hch. apply Hub. eapply chain_outer; eauto.
Qed.

Lemma Env_find_unbound st env k :
  wf_store st -> is_Some (st !! env) -> unbound st env k ->
  Env_find env k st = (Raise AttributeError, st).
Proof.
  intros Hwf Hsome Hub. unfold Env_find.
  rewrite Env_find_from_unbound; try easy.
  destruct Hsome as [fr Hfr]. now apply lookup_lt_Some in Hfr.
Qed.

Lemma Env_find_from_innermost n st env k self :
  wf_store st -> (env < n)%nat -> innermost st k env self ->
  Env_find_from n st env k = Ok self.
Proof.
  intros Hwf Hlt Hin. revert n Hlt.
  induction Hin as [env fr Hfr Hmem | env fr o self Hfr Hmem Ho Hin IH];
    intros n Hlt; (destruct n as [| n]; [lia |]); simpl; rewrite Hfr, Hmem.
  - reflexivity.
  - rewrite Ho. apply IH. pose proof (Hwf env fr o Hfr Ho). lia.
Qed.

Lemma innermost_valid st k env self :
  innermost st k env self -> is_Some (st !! env).
Proof. intros H. destruct H; eauto. Qed.

Lemma Env_find_innermost st env k self :
  wf_store st -> innermost st k env self ->
  Env_find env k st = (Ok self, st).
Proof.
  intros Hwf Hin. unfold Env_find.
  rewrite (Env_find_from_innermost _ _ _ _ self); try easy.
  destruct (innermost_valid _ _ _ _ Hin) as [fr Hfr].
  now apply lookup_lt_Some in Hfr.
Qed.

Lemma wf_initial_store : wf_store initial_store.
Proof.
  intros a fr o Hfr Ho. destruct a as [| a]; simpl in Hfr.
  - injection Hfr as <-. discriminate Ho.
  - discriminate Hfr.
Qed.

Lemma in_chain_initial a : in_chain initial_store global_env a -> a = global_env.
Proof.
  intros H. inversion H as [| env fr o a' Hfr Ho Hch]; subst; [reflexivity |].
  injection Hfr as <-. discriminate Ho.
Qed.

Lemma unbound_initial name :
  dict_mem (KStr name) (vars standard_env) = false ->
  unbound initial_store global_env (KStr name).
Proof.
  intros Hm a fr Hch Hfr. apply in_chain_initial in Hch. subst a.
  injection Hfr as <-. exact Hm.
Qed.

(** ** C3: names bound nowhere *)

(** C3 (counterexample). In the global environment the reference [x] and
    the assignment [(set! x 1)] raise [AttributeError], which is not an
    [UnboundVariable]. *)
Lemma C3_unbound_is_AttributeError :
  fst (run 10 10 "x" initial_store) = Raise AttributeError /\
  fst (run 10 10 "(set! x 1)" initial_store) = Raise AttributeError /\
  exn_name AttributeError <> "UnboundVariable".
Proof.
  repeat split; try (vm_compute; reflexivity). simpl. discriminate.
Qed.

(** C3 (amended). In a store where every [outer] is an older object, for
    an environment [env] and a name that no scope of the chain of [env]
    binds: the reference to the name raises the host's [AttributeError]
    (line 18 asks [None], the parent of the root, for [find]) and so does
    the assignment [(set! name exp)] once [exp] is evaluated; the store is
    left as it was (as [exp] left it). *)
Theorem C3_unbound_name_raises_AttributeError :
  forall st env name,
    wf_store st -> is_Some (st !! env) -> unbound st env (KStr name) ->
    (forall fuel d,
        evaluate (S fuel) (S d) (Symbol name) env st = (Raise AttributeError, st)) /\
    (forall fuel d exp st0 v,
        evaluate fuel d exp env st0 = (Ok v, st) ->
        evaluate (S fuel) (S d) (List [Symbol "set!"; Symbol name; exp]) env st0
        = (Raise AttributeError, st)).
Proof.
  intros st env name Hwf Hsome Hub. split.
  - intros fuel d. rewrite evaluate_symbol. unfold bind.
    now rewrite Env_find_unbound.
  - intros fuel d exp st0 v Hexp. rewrite evaluate_set. unfold bind.
    rewrite Hexp. cbn [lift key_of]. now rewrite Env_find_unbound.
Qed.

Lemma C3_unbound_name_witness :
  evaluate 1 1 (Symbol "x") global_env initial_store
  = (Raise AttributeError, initial_store).
Proof.
  apply (proj1 (C3_unbound_name_raises_AttributeError initial_store global_env
                  "x" wf_initial_store (ex_intro _ standard_env eq_refl)
                  (unbound_initial "x" eq_refl))).
Defined.

(** ** C7: the effects of [define] and [set!] *)

Lemma Env_setitem_name self name v st fr :
  st !! self = Some fr ->
  Env_setitem self (Symbol name) v st
  = (Ok tt, <[self := mkEnv (dict_set (KStr name) v (vars fr)) (outer fr)]> st).
Proof.
  intros Hfr. unfold Env_setitem, bind, lift. cbn [key_of]. now rewrite Hfr.
Qed.

Lemma innermost_binds st k env self :
  innermost st k env self ->
  exists fr, st !! self = Some fr /\ dict_mem k (vars fr) = true.
Proof.
  intros H. induction H as [env fr Hfr Hmem | env fr o self Hfr Hmem Ho Hin IH].
  - now exists fr.
  - exact IH.
Qed.

Lemma evaluate_define_name fuel d name exp env st v st1 fr :
  evaluate fuel d exp env st = (Ok v, st1) ->
  st1 !! env = Some fr ->
  evaluate (S fuel) (S d) (List [Symbol "define"; Symbol name; exp]) env st
  = (Ok NoneV,
     <[env := mkEnv (dict_set (KStr name) v (vars fr)) (outer fr)]> st1).
Proof.
  intros Hexp Hfr. rewrite evaluate_define. unfold bind at 1. rewrite Hexp.
  unfold bind. now rewrite (Env_setitem_name _ _ _ _ _ Hfr).
Qed.

Lemma evaluate_set_name fuel d name exp env st v st1 self fr :
  evaluate fuel d exp env st = (Ok v, st1) ->
  wf_store st1 -> innermost st1 (KStr name) env self ->
  st1 !! self = Some fr ->
  evaluate (S fuel) (S d) (List [Symbol "set!"; Symbol name; exp]) env st
  = (Ok NoneV,
     <[self := mkEnv (dict_set (KStr name) v (vars fr)) (outer fr)]> st1).
Proof.
  intros Hexp Hwf Hin Hfr. rewrite evaluate_set. unfold bind at 1.
  rewrite Hexp. unfold bind. cbn [lift key_of].
  rewrite (Env_find_innermost _ _ _ _ Hwf Hin).
  now rewrite (Env_setitem_name _ _ _ _ _ Hfr).
Qed.

(** C7. Let [exp] evaluate to [v] and leave the store [st1].
    [(define name exp)] then returns [None] and changes one object of
    [st1], the current environment [env]: there [name] is bound to [v]
    and every other name is as before; every other environment, the
    ancestors of [env] among them, is as in [st1].
    [(set! name exp)] returns [None] and changes one object, the innermost
    environment [self] of the chain of [env] that binds [name]: there
    [name] is bound to [v] and every other name is as before; no
    environment is created, and every environment has the keys (and the
    parent) it had in [st1]. *)
Theorem C7_define_and_set_effects :
  forall fuel d name exp env st v st1,
    evaluate fuel d exp env st = (Ok v, st1) ->
    (forall fr, st1 !! env = Some fr ->
       let st2 :=
         <[env := mkEnv (dict_set (KStr name) v (vars fr)) (outer fr)]> st1 in
       evaluate (S fuel) (S d) (List [Symbol "define"; Symbol name; exp]) env st
       = (Ok NoneV, st2) /\
       (forall a, a <> env -> st2 !! a = st1 !! a) /\
       (exists fr2, st2 !! env = Some fr2 /\ outer fr2 = outer fr /\
                    dict_get (KStr name) (vars fr2) = Some v /\
                    forall k, k <> KStr name ->
                              dict_get k (vars fr2) = dict_get k (vars fr))) /\
    (forall self fr,
       wf_store st1 -> innermost st1 (KStr name) env self ->
       st1 !! self = Some fr ->
       let st2 :=
         <[self := mkEnv (dict_set (KStr name) v (vars fr)) (outer fr)]> st1 in
       evaluate (S fuel) (S d) (List [Symbol "set!"; Symbol name; exp]) env st
       = (Ok NoneV, st2) /\
       length st2 = length st1 /\
       (forall a, a <> self -> st2 !! a = st1 !! a) /\
       (forall a fr2, st2 !! a = Some fr2 ->
          exists fr1, st1 !! a = Some fr1 /\ outer fr2 = outer fr1 /\
                      dict_keys (vars fr2) = dict_keys (vars fr1)) /\
       (exists fr2, st2 !! self = Some fr2 /\
                    dict_get (KStr name) (vars fr2) = Some v /\
                    forall k, k <> KStr name ->
                              dict_get k (vars fr2) = dict_get k (vars fr))).
Proof.
  intros fuel d name exp env st v st1 Hexp. split.
  - intros fr Hfr st2. subst st2.
    pose proof (lookup_lt_Some _ _ _ Hfr) as Hlt.
    split; [| split].
    + now apply evaluate_define_name.
    + intros a Ha. now apply list_lookup_insert_ne.
    + eexists. split; [now apply list_lookup_insert_eq |].
      split; [reflexivity |]. split; cbn [vars].
      * apply dict_get_set_same.
      * intros k Hk. now apply dict_get_set_other.
  - intros self fr Hwf Hin Hfr st2. subst st2.
    pose proof (lookup_lt_Some _ _ _ Hfr) as Hlt.
    destruct (innermost_binds _ _ _ _ Hin) as [fr' [Hfr' Hmem]].
    assert (fr' = fr) by congruence. subst fr'.
    split; [| split; [| split; [| split]]].
    + now apply evaluate_set_name.
    + apply length_insert.
    + intros a Ha. now apply list_lookup_insert_ne.
    + intros a fr2 Hfr2. destruct (decide (a = self)) as [-> | Hne].
      * rewrite list_lookup_insert_eq in Hfr2 by exact Hlt.
        injection Hfr2 as <-. exists fr. split; [exact Hfr |].
        split; [reflexivity |]. cbn [vars]. now apply dict_keys_set_mem.
      * rewrite list_lookup_insert_ne in Hfr2 by congruence.
        exists fr2. easy.
    + eexists. split; [now apply list_lookup_insert_eq |].
      split; cbn [vars].
      * apply dict_get_set_same.
      * intros k Hk. now apply dict_get_set_other.
Qed.

Lemma C7_define_and_set_witness :
  evaluate 2 2 (List [Symbol "define"; Symbol "x"; Int 1]) global_env initial_store
  = (Ok NoneV,
     [mkEnv (dict_set (KStr "x") (Int 1) (vars standard_env)) None]) /\
  evaluate 2 2 (List [Symbol "set!"; Symbol "+"; Int 1]) global_env initial_store
  = (Ok NoneV,
     [mkEnv (dict_set (KStr "+") (Int 1) (vars standard_env)) None]).
Proof.
  pose proof (C7_define_and_set_effects 1 1 "x" (Int 1) global_env
                initial_store (Int 1) initial_store eq_refl) as [Hdef _].
  pose proof (C7_define_and_set_effects 1 1 "+" (Int 1) global_env
                initial_store (Int 1) initial_store eq_refl) as [_ Hset].
  split.
  - exact (proj1 (Hdef standard_env eq_refl)).
  - exact (proj1 (Hset global_env standard_env wf_initial_store
                    (inner_here initial_store (KStr "+") global_env
                       standard_env eq_refl eq_refl) eq_refl)).
Defined.

(** ** Procedure calls *)

Lemma evaluate_lambda fuel d params body env st :
  evaluate (S fuel) (S d) (List [Symbol "lambda"; params; body]) env st
  = (Ok (Procedure params body env), st).
Proof. reflexivity. Qed.

Lemma special_form_false x0 :
  special_form x0 = false ->
  head_is "if" x0 = false /\ head_is "define" x0 = false /\
  head_is "quote" x0 = false /\ head_is "set!" x0 = false /\
  head_is "lambda" x0 = false.
Proof.
  unfold special_form. intros H.
  repeat (apply orb_false_elim in H; destruct H as [H ?]). easy.
Qed.

Lemma evaluate_apply fuel d x0 rest env :
  special_form x0 = false ->
  evaluate (S fuel) (S d) (List (x0 :: rest)) env =
  (vs <- mapM (fun arg => evaluate fuel d arg env) (x0 :: rest) ;;
   match vs with
   | [] => raise IndexError
   | proc :: args =>
       match proc with
       | Procedure params body penv =>
           env' <- Env_init params args (Some penv) ;;
           evaluate fuel (S d) body env'
       | _ => call fuel d proc args
       end
   end).
Proof.
  intros H. apply special_form_false in H as (H1 & H2 & H3 & H4 & H5).
  cbn [evaluate]. now rewrite H1, H2, H3, H4, H5.
Qed.

Lemma evaluate_apply_closure fuel d x0 rest cenv st params body penv args st1 :
  special_form x0 = false ->
  mapM (fun a => evaluate fuel d a cenv) (x0 :: rest) st
  = (Ok (Procedure params body penv :: args), st1) ->
  evaluate (S fuel) (S d) (List (x0 :: rest)) cenv st
  = trampoline fuel (S d) (Procedure params body penv) args st1.
Proof.
  intros Hsp Hargs. rewrite (evaluate_apply _ _ _ _ _ Hsp).
  unfold bind at 1. now rewrite Hargs.
Qed.

Lemma trampoline_names fuel d names body penv args st :
  trampoline fuel d (Procedure (List (map Symbol names)) body penv) args st
  = evaluate fuel d body (length st)
      (st ++ [mkEnv (bindings names args) (Some penv)]).
Proof.
  unfold trampoline, bind. now rewrite Env_init_names.
Qed.

Lemma wf_store_snoc st d o :
  wf_store st -> (o < length st)%nat -> wf_store (st ++ [mkEnv d (Some o)]).
Proof.
  intros Hwf Ho a fr o' Hfr Hout.
  apply lookup_snoc_Some in Hfr as [[Hlt Hfr] | [-> <-]].
  - now apply (Hwf a fr o').
  - simpl in Hout. injection Hout as <-. exact Ho.
Qed.

Lemma Env_find_from_app n n' st fr env k :
  wf_store st -> (env < length st)%nat -> (env < n)%nat -> (env < n')%nat ->
  Env_find_from n (st ++ [fr]) env k = Env_find_from n' st env k.
Proof.
  intros Hwf. revert n' env.
  induction n as [| n IH]; intros n' env Hlen Hn Hn'; [lia |].
  destruct n' as [| n']; [lia |]. simpl.
  rewrite lookup_app_l by exact Hlen.
  destruct (st !! env) as [fr' |] eqn:Hfr; [| reflexivity].
  destruct (dict_mem k (vars fr')); [reflexivity |].
  destruct (outer fr') as [o |] eqn:Ho; [| reflexivity].
  pose proof (Hwf env fr' o Hfr Ho). apply IH; lia.
Qed.

(** In the environment of a call, a name is found in the new frame if a
    parameter binds it, and else where the captured environment finds it. *)
Lemma Env_find_child st dct penv k :
  wf_store st -> (penv < length st)%nat ->
  Env_find (length st) k (st ++ [mkEnv dct (Some penv)])
  = (if dict_mem k dct then Ok (length st) else fst (Env_find penv k st),
     st ++ [mkEnv dct (Some penv)]).
Proof.
  intros Hwf Hp. unfold Env_find. f_equal.
  rewrite length_app. simpl length.
  replace (length st + 1)%nat with (S (length st)) by lia.
  simpl. rewrite list_lookup_middle by reflexivity. simpl.
  destruct (dict_mem k dct); [reflexivity |].
  now apply Env_find_from_app.
Qed.

(** ** C6: lexical scoping *)

Lemma scope_rebound_at_call_site :
  fst (session 20 20
         ["(define x 1)"; "(define f (lambda () x))"; "((lambda (x) (f)) 2)"]
         initial_store)
  = [Ok NoneV; Ok NoneV; Ok (Int 1)].
Proof. vm_compute. reflexivity. Qed.

Lemma scope_absent_at_call_site :
  fst (session 20 20
         ["(define f ((lambda (x) (lambda () x)) 7))"; "(f)"; "x"]
         initial_store)
  = [Ok NoneV; Ok (Int 7); Raise AttributeError].
Proof. vm_compute. reflexivity. Qed.

Lemma scope_shared_by_two_closures :
  fst (session 20 20
         ["(define mk (lambda (c) (list (lambda () c) (lambda (v) (set! c v)))))";
          "(define p (mk 1))"; "((car p))"; "((car (cdr p)) 42)"; "((car p))"]
         initial_store)
  = [Ok NoneV; Ok NoneV; Ok (Int 1); Ok NoneV; Ok (Int 42)].
Proof. vm_compute. reflexivity. Qed.

(** C6. [lambda] captures the environment it is evaluated in. When the
    head of an application evaluates to a procedure, the evaluator goes
    on, in the same activation, with the body in a new environment: the
    next object of the store, which binds the parameter names to the
    argument values and whose parent is the captured environment [penv];
    the environment [cenv] of the call site plays no part, and a name the
    parameters do not bind is searched from [penv]. Hence a procedure
    that captured [x] returns the captured value where the call site
    rebinds [x] and where it has no [x], and two procedures created in one
    scope see each other's [set!]. *)
Theorem C6_lexical_scoping :
  (forall fuel d params body env st,
      evaluate (S fuel) (S d) (List [Symbol "lambda"; params; body]) env st
      = (Ok (Procedure params body env), st)) /\
  (forall fuel d x0 rest cenv st names body penv args st1,
      special_form x0 = false ->
      mapM (fun a => evaluate fuel d a cenv) (x0 :: rest) st
      = (Ok (Procedure (List (map Symbol names)) body penv :: args), st1) ->
      let child := mkEnv (bindings names args) (Some penv) in
      evaluate (S fuel) (S d) (List (x0 :: rest)) cenv st
      = evaluate fuel (S d) body (length st1) (st1 ++ [child]) /\
      (st1 ++ [child]) !! length st1 = Some child /\
      (forall a, (a < length st1)%nat -> (st1 ++ [child]) !! a = st1 !! a) /\
      (forall k, wf_store st1 -> (penv < length st1)%nat ->
                 dict_mem k (vars child) = false ->
                 fst (Env_find (length st1) k (st1 ++ [child]))
                 = fst (Env_find penv k st1))) /\
  fst (session 20 20
         ["(define x 1)"; "(define f (lambda () x))"; "((lambda (x) (f)) 2)"]
         initial_store)
  = [Ok NoneV; Ok NoneV; Ok (Int 1)] /\
  fst (session 20 20
         ["(define f ((lambda (x) (lambda () x)) 7))"; "(f)"; "x"]
         initial_store)
  = [Ok NoneV; Ok (Int 7); Raise AttributeError] /\
  fst (session 20 20
         ["(define mk (lambda (c) (list (lambda () c) (lambda (v) (set! c v)))))";
          "(define p (mk 1))"; "((car p))"; "((car (cdr p)) 42)"; "((car p))"]
         initial_store)
  = [Ok NoneV; Ok NoneV; Ok (Int 1); Ok NoneV; Ok (Int 42)].
Proof.
  split; [| split; [| split; [| split]]].
  - intros fuel d params body env st. apply evaluate_lambda.
  - intros fuel d x0 rest cenv st names body penv args st1 Hsp Hargs child.
    split; [| split; [| split]].
    + rewrite (evaluate_apply_closure _ _ _ _ _ _ _ _ _ _ _ Hsp Hargs).
      apply trampoline_names.
    + now apply list_lookup_middle.
    + intros a Ha. now apply lookup_app_l.
    + intros k Hwf Hp Hk. unfold child in *.
      rewrite (Env_find_child _ _ _ _ Hwf Hp). simpl fst. simpl in Hk.
      now rewrite Hk.
  - exact scope_rebound_at_call_site.
  - exact scope_absent_at_call_site.
  - exact scope_shared_by_two_closures.
Qed.

Lemma C6_lexical_scoping_witness :
  evaluate 3 3 (List [List [Symbol "lambda"; List [Symbol "x"]; Symbol "x"]; Int 5])
    global_env initial_store
  = evaluate 2 3 (Symbol "x") 1%nat
      (initial_store ++ [mkEnv (bindings ["x"] [Int 5]) (Some global_env)]).
Proof.
  apply (proj1 (proj2 C6_lexical_scoping) 2%nat 2%nat
           (List [Symbol "lambda"; List [Symbol "x"]; Symbol "x"])
           [Int 5] global_env initial_store ["x"] (Symbol "x") global_env
           [Int 5] initial_store).
  - reflexivity.
  - reflexivity.
Defined.

(** ** C10: the two ways of running a procedure *)

Lemma call_procedure fuel d params body penv args :
  call (S fuel) d (Procedure params body penv) args
  = trampoline fuel d (Procedure params body penv) args.
Proof. reflexivity. Qed.

Lemma trampoline_mono fuel fuel' d d' proc args st r st' :
  trampoline fuel d proc args st = (r, st') -> final r = true ->
  (fuel <= fuel')%nat -> (d <= d')%nat ->
  trampoline fuel' d' proc args st = (r, st').
Proof.
  intros H Hfin Hf Hd. destruct proc; try exact H.
  revert st r st' H Hfin. change (refines
    (trampoline fuel d (Procedure proc1 proc2 env) args)
    (trampoline fuel' d' (Procedure proc1 proc2 env) args)).
  unfold trampoline. apply refines_bind; [apply refines_refl |].
  intros env'. now apply (proj1 (evaluate_call_mono fuel)).
Qed.

(** C10. An application whose elements evaluate to a procedure [p] and
    to the arguments [args] is run by the evaluator in its own loop
    (lines 178-180); the host call of [p] ([Procedure.__call__], lines
    27-28, as ["apply"] makes it) runs it through a new activation of
    [evaluate]. Both bind the parameters of [p] to [args] in a new
    environment under the environment [p] captured and evaluate the body
    of [p] there. Whenever the evaluator's loop gives a final result for
    the application (a value or an exception other than stack exhaustion),
    the host call of [p] on [args], in the store the elements left, gives
    the same result and the same store, given the stack frame it needs
    beyond those of the loop; and whenever the host call gives a final
    result, the evaluator gives it for the application. *)
Theorem C10_call_agrees_with_trampoline :
  forall fuel d x0 rest cenv st params body penv args st1,
    let p := Procedure params body penv in
    let application := List (x0 :: rest) in
    special_form x0 = false ->
    mapM (fun a => evaluate fuel d a cenv) (x0 :: rest) st
    = (Ok (p :: args), st1) ->
    evaluate (S fuel) (S d) application cenv st
    = (env' <- Env_init params args (Some penv) ;;
       evaluate fuel (S d) body env') st1 /\
    (forall fuel0 d0,
        call (S fuel0) d0 p args
        = (env' <- Env_init params args (Some penv) ;;
           evaluate fuel0 d0 body env')) /\
    (forall fuel0 d0,
        apply_prim (call (S fuel0) d0) p_apply [p; List args]
        = (vs <- ret args ;; call (S fuel0) d0 p vs)) /\
    (forall r st',
        evaluate (S fuel) (S d) application cenv st = (r, st') ->
        final r = true ->
        forall fuel' d', (fuel <= fuel')%nat -> (S d <= d')%nat ->
                         call (S fuel') d' p args st1 = (r, st')) /\
    (forall fuel0 d0 r st',
        call (S fuel0) d0 p args st1 = (r, st') ->
        final r = true ->
        forall fuel' d',
          (fuel <= fuel')%nat -> (fuel0 <= fuel')%nat ->
          (d <= d')%nat -> (d0 <= S d')%nat ->
          evaluate (S fuel') (S d') application cenv st = (r, st')).
Proof.
  intros fuel d x0 rest cenv st params body penv args st1 p application
    Hform Hmap.
  subst p application.
  assert (Hloop : forall f d1 ,
             mapM (fun a => evaluate f d1 a cenv) (x0 :: rest) st
             = (Ok (Procedure params body penv :: args), st1) ->
             evaluate (S f) (S d1) (List (x0 :: rest)) cenv st
             = (env' <- Env_init params args (Some penv) ;;
                evaluate f (S d1) body env') st1).
  { intros f d1 H.
    now rewrite (evaluate_apply_closure f d1 x0 rest cenv st params body penv
                   args st1 Hform H). }
  split; [now apply Hloop |].
  split; [reflexivity |]. split; [reflexivity |]. split.
  - intros r st' H Hfin fuel' d' Hf Hd. rewrite (Hloop fuel d Hmap) in H.
    rewrite call_procedure.
    now apply (trampoline_mono fuel fuel' (S d) d'
                 (Procedure params body penv) args st1 r st' H Hfin).
  - intros fuel0 d0 r st' H Hfin fuel' d' Hf Hf0 Hd Hd0.
    rewrite call_procedure in H.
    rewrite (Hloop fuel' d'
               (refines_mapM (fun a => evaluate fuel d a cenv)
                  (fun a => evaluate fuel' d' a cenv) (x0 :: rest)
                  (fun a => proj1 (evaluate_call_mono fuel) fuel' d d' a cenv
                              Hf Hd)
                  st _ st1 Hmap eq_refl)).
    now apply (trampoline_mono fuel0 fuel' d0 (S d')
                 (Procedure params body penv) args st1 r st' H Hfin).
Qed.

Lemma C10_call_agrees_witness :
  call 4 3 (Procedure (List [Symbol "x"])
              (List [Symbol "*"; Symbol "x"; Symbol "x"]) global_env)
    [Int 5] initial_store
  = (Ok (Int 25),
     initial_store ++ [mkEnv [(KStr "x", Int 5)] (Some global_env)]).
Proof.
  apply (proj1 (proj2 (proj2 (proj2
           (C10_call_agrees_with_trampoline 3 2
              (List [Symbol "lambda"; List [Symbol "x"];
                     List [Symbol "*"; Symbol "x"; Symbol "x"]])
              [Int 5] global_env initial_store (List [Symbol "x"])
              (List [Symbol "*"; Symbol "x"; Symbol "x"]) global_env [Int 5]
              initial_store eq_refl eq_refl))))
           (Ok (Int 25))
           (initial_store ++ [mkEnv [(KStr "x", Int 5)] (Some global_env)])).
  - reflexivity.
  - reflexivity.
  - apply le_n.
  - apply le_n.
Defined.

(** ** C1: tail calls *)

Lemma mapM_evaluate_mono fuel fuel' d d' l env st r st' :
  mapM (fun a => evaluate fuel d a env) l st = (r, st') -> final r = true ->
  (fuel <= fuel')%nat -> (d <= d')%nat ->
  mapM (fun a => evaluate fuel' d' a env) l st = (r, st').
Proof.
  intros H Hfin Hf Hd. revert st r st' H Hfin.
  change (refines (mapM (fun a => evaluate fuel d a env) l)
            (mapM (fun a => evaluate fuel' d' a env) l)).
  apply refines_mapM. intros a. now apply (proj1 (evaluate_call_mono fuel)).
Qed.

(** Any number of turns of a procedure that calls itself in tail position
    runs in one activation: the frames it needs are those of one turn. *)
Lemma tail_loop_trampoline d params test conseq alt penv args st out :
  tail_loop d params test conseq alt penv args st out ->
  exists fuel, forall fuel', (fuel <= fuel')%nat ->
    trampoline fuel' (S d)
      (Procedure params (List [Symbol "if"; test; conseq; alt]) penv) args st
    = out.
Proof.
  intros H.
  induction H as
    [args st e st0 f1 v st1 f2 out Hinit Htest Hsel Hfin
    | args st e st0 f1 v st1 x0 rest f2 args' st2 out Hinit Htest Hsel Hsp
        Hargs _ [fuel IH]].
  - exists (S (Nat.max f1 f2)). intros fuel' Hf.
    destruct fuel' as [| fuel']; [lia |].
    unfold trampoline, bind. rewrite Hinit.
    rewrite (evaluate_if_selected fuel' d test conseq alt e st0 v st1).
    + destruct out as [r st']. simpl in Hfin.
      apply (evaluate_mono f2 fuel' (S d) (S d)); try easy; lia.
    + apply (evaluate_mono f1 fuel' d d); try easy; lia.
  - exists (S (S (Nat.max f1 (Nat.max f2 fuel)))). intros fuel' Hf.
    destruct fuel' as [| [| fuel']]; try lia.
    unfold trampoline, bind. rewrite Hinit.
    rewrite (evaluate_if_selected (S fuel') d test conseq alt e st0 v st1).
    + rewrite Hsel.
      rewrite (evaluate_apply_closure fuel' d x0 rest e st1 params
                 (List [Symbol "if"; test; conseq; alt]) penv args' st2 Hsp).
      * apply IH. lia.
      * apply (mapM_evaluate_mono f2 fuel' d d); try easy; lia.
    + apply (evaluate_mono f1 (S fuel') d d); try easy; lia.
Qed.

Lemma evaluate_symbol_innermost fuel d s env st self fr v :
  wf_store st -> innermost st (KStr s) env self ->
  st !! self = Some fr -> dict_get (KStr s) (vars fr) = Some v ->
  evaluate (S fuel) (S d) (Symbol s) env st = (Ok v, st).
Proof.
  intros Hwf Hin Hfr Hget. rewrite evaluate_symbol. unfold bind.
  rewrite (Env_find_innermost _ _ _ _ Hwf Hin).
  unfold Env_getitem. now rewrite Hfr, Hget.
Qed.

Lemma call_op_eq_int fuel d a b st :
  call (S fuel) d (Builtin op_eq) [Int a; Int b] st = (Ok (Bool (a =? b)), st).
Proof.
  cbn [call apply_prim py_eq as_num num_compare].
  destruct (Z.compare_spec a b) as [-> | H | H].
  - now rewrite Z.eqb_refl.
  - replace (a =? b) with false; [reflexivity |]. symmetry. apply Z.eqb_neq. lia.
  - replace (a =? b) with false; [reflexivity |]. symmetry. apply Z.eqb_neq. lia.
Qed.

Lemma call_op_sub_int fuel d a b st :
  call (S fuel) d (Builtin op_sub) [Int a; Int b] st = (Ok (Int (a - b)), st).
Proof. reflexivity. Qed.

Section Countdown.

Variable b : Z.

(** A store in which [loop] is defined globally, and a frame [e] of a
    call of [loop] with the argument [k]. *)
Variables (st : store) (e : nat) (k : Z).
Hypothesis Hwf : wf_store st.
Hypothesis Hglobal : st !! global_env = Some (loop_global b).
Hypothesis Hframe : st !! e = Some (frame1 "n" (Int k) global_env).

Lemma countdown_n fuel d :
  evaluate (S fuel) (S d) (Symbol "n") e st = (Ok (Int k), st).
Proof.
  apply (evaluate_symbol_innermost fuel d "n" e st e
           (frame1 "n" (Int k) global_env)); try easy.
  now apply (inner_here st (KStr "n") e (frame1 "n" (Int k) global_env)).
Qed.

Lemma countdown_global fuel d s v :
  dict_mem (KStr s) (vars (frame1 "n" (Int k) global_env)) = false ->
  dict_get (KStr s) (vars (loop_global b)) = Some v ->
  evaluate (S fuel) (S d) (Symbol s) e st = (Ok v, st).
Proof.
  intros Hn Hget.
  apply (evaluate_symbol_innermost fuel d s e st global_env (loop_global b));
    try easy.
  apply (inner_outer st (KStr s) e (frame1 "n" (Int k) global_env)
           global_env global_env); try easy.
  apply (inner_here st (KStr s) global_env (loop_global b)); try easy.
  unfold dict_mem. now rewrite Hget.
Qed.

Lemma countdown_test fuel d :
  evaluate (S (S fuel)) (S (S d)) loop_test e st
  = (Ok (Bool (k =? 0)), st).
Proof.
  unfold loop_test. rewrite evaluate_apply by reflexivity.
  cbn [mapM]. unfold bind.
  rewrite (countdown_global fuel d "=" (Builtin op_eq)) by reflexivity.
  rewrite countdown_n. cbn [evaluate ret].
  apply call_op_eq_int.
Qed.

Lemma countdown_decrement fuel d :
  evaluate (S (S fuel)) (S (S d)) (List [Symbol "-"; Symbol "n"; Int 1]) e st
  = (Ok (Int (k - 1)), st).
Proof.
  rewrite evaluate_apply by reflexivity.
  cbn [mapM]. unfold bind.
  rewrite (countdown_global fuel d "-" (Builtin op_sub)) by reflexivity.
  rewrite countdown_n. cbn [evaluate ret].
  apply call_op_sub_int.
Qed.

Lemma countdown_call fuel d :
  mapM (fun a => evaluate (S (S (S fuel))) (S (S d)) a e)
    [Symbol "loop"; List [Symbol "-"; Symbol "n"; Int 1]] st
  = (Ok [loop_proc b; Int (k - 1)], st).
Proof.
  cbn [mapM]. unfold bind.
  rewrite (countdown_global (S (S fuel)) (S d) "loop" (loop_proc b))
    by reflexivity.
  now rewrite countdown_decrement.
Qed.

End Countdown.

Lemma countdown_frame st v :
  Env_init (List [Symbol "n"]) [v] (Some global_env) st
  = (Ok (length st), st ++ [frame1 "n" v global_env]).
Proof. exact (Env_init_names ["n"] [v] (Some global_env) st). Qed.

Lemma countdown_tail_loop b n :
  forall st,
    wf_store st -> st !! global_env = Some (loop_global b) ->
    exists st',
      tail_loop 2 (List [Symbol "n"]) loop_test (Int b) loop_again global_env
        [Int (Z.of_nat n)] st (Ok (Int b), st').
Proof.
  induction n as [| n IH]; intros st Hwf Hg.
  - exists (st ++ [frame1 "n" (Int 0) global_env]).
    assert (Hlen : (global_env < length st)%nat)
      by (now apply lookup_lt_Some in Hg).
    eapply (tail_exit 2 _ _ _ _ _ _ st (length st) _ 2%nat (Bool true) _ 1%nat).
    + apply countdown_frame.
    + apply (countdown_test b _ (length st) 0).
      * now apply wf_store_snoc.
      * now rewrite lookup_app_l.
      * now apply list_lookup_middle.
    + reflexivity.
    + reflexivity.
  - assert (Hlen : (global_env < length st)%nat)
      by (now apply lookup_lt_Some in Hg).
    set (st0 := st ++ [frame1 "n" (Int (Z.of_nat (S n))) global_env]).
    assert (Hwf0 : wf_store st0) by (now apply wf_store_snoc).
    assert (Hg0 : st0 !! global_env = Some (loop_global b))
      by (unfold st0; now rewrite lookup_app_l).
    assert (He0 : st0 !! length st
                  = Some (frame1 "n" (Int (Z.of_nat (S n))) global_env))
      by (now apply list_lookup_middle).
    destruct (IH st0 Hwf0 Hg0) as [st' Hloop].
    exists st'.
    eapply (tail_again 2 _ _ _ _ _ _ st (length st) st0 2%nat (Bool false) st0
              (Symbol "loop") [List [Symbol "-"; Symbol "n"; Int 1]] 3%nat
              [Int (Z.of_nat n)] st0).
    + apply countdown_frame.
    + rewrite (countdown_test b st0 (length st) (Z.of_nat (S n)) Hwf0 Hg0 He0).
      reflexivity.
    + reflexivity.
    + reflexivity.
    + rewrite (countdown_call b st0 (length st) (Z.of_nat (S n)) Hwf0 Hg0 He0).
      replace (Z.of_nat (S n) - 1) with (Z.of_nat n) by lia. reflexivity.
    + exact Hloop.
Qed.

Lemma wf_loop_store b : wf_store [loop_global b].
Proof.
  intros a fr o Hfr Ho. destruct a as [| a]; simpl in Hfr.
  - injection Hfr as <-. discriminate Ho.
  - discriminate Hfr.
Qed.

Lemma countdown_terminates b n :
  exists fuel st',
    evaluate fuel 3 (List [Symbol "loop"; Int (Z.of_nat n)]) global_env
      [loop_global b]
    = (Ok (Int b), st').
Proof.
  destruct (countdown_tail_loop b n [loop_global b] (wf_loop_store b) eq_refl)
    as [st' Hloop].
  destruct (tail_loop_trampoline _ _ _ _ _ _ _ _ _ Hloop) as [fuel Hfuel].
  exists (S (S fuel)), st'.
  rewrite (evaluate_apply_closure (S fuel) 2 (Symbol "loop") [Int (Z.of_nat n)]
             global_env [loop_global b] (List [Symbol "n"]) (loop_body b)
             global_env [Int (Z.of_nat n)] [loop_global b]);
    try reflexivity.
  apply Hfuel. lia.
Qed.

Lemma countdown_defined b :
  evaluate 2 2 (loop_define b) global_env initial_store
  = (Ok NoneV, [loop_global b]).
Proof. reflexivity. Qed.

(** C1. A turn of the evaluator's loop for the selected branch of an [if]
    and for the application of a procedure goes on in the same activation
    of [evaluate]; so a procedure [(lambda params (if test conseq alt))]
    that calls itself in tail position runs any number of turns with the
    frames one turn needs: if every turn evaluates its test and the
    elements of its self-call within [d] frames, the whole loop runs
    within [S d] frames and ends with the result of the last turn.
    For [(define loop (lambda (n) (if (= n 0) b (loop (- n 1)))))], the
    call [(loop n)] returns the base value [b] within three frames, for
    every count [n]; [n = 100000] is one of them. *)
Theorem C1_tail_calls_use_constant_stack :
  (forall d params test conseq alt penv args st out,
      tail_loop d params test conseq alt penv args st out ->
      exists fuel, forall fuel', (fuel <= fuel')%nat ->
        trampoline fuel' (S d)
          (Procedure params (List [Symbol "if"; test; conseq; alt]) penv)
          args st
        = out) /\
  (forall (b : Z) (n : N),
      exists fuel st',
        evaluate fuel 3 (List [Symbol "loop"; Int (Z.of_N n)]) global_env
          [loop_global b]
        = (Ok (Int b), st')) /\
  (forall b : Z,
      evaluate 2 2 (loop_define b) global_env initial_store
      = (Ok NoneV, [loop_global b])) /\
  parse "(define loop (lambda (n) (if (= n 0) 0 (loop (- n 1)))))"
  = Ok (loop_define 0) /\
  parse "(loop 100000)" = Ok (List [Symbol "loop"; Int (Z.of_N 100000)]).
Proof.
  split; [| split; [| split; [| split]]].
  - intros d params test conseq alt penv args st out.
    apply tail_loop_trampoline.
  - intros b n. rewrite <- (N2Nat.id n), nat_N_Z. apply countdown_terminates.
  - apply countdown_defined.
  - vm_compute. reflexivity.
  - vm_compute. reflexivity.
Qed.

Lemma C1_tail_calls_witness :
  exists fuel, forall fuel', (fuel <= fuel')%nat ->
    trampoline fuel' 3 (loop_proc 7) [Int 0] [loop_global 7]
    = (Ok (Int 7), [loop_global 7; frame1 "n" (Int 0) global_env]).
Proof.
  apply (proj1 C1_tail_calls_use_constant_stack 2%nat (List [Symbol "n"])
           loop_test (Int 7) loop_again global_env [Int 0] [loop_global 7]
           (Ok (Int 7), [loop_global 7; frame1 "n" (Int 0) global_env])).
  apply (tail_exit 2 (List [Symbol "n"]) loop_test (Int 7) loop_again global_env
           [Int 0] [loop_global 7] 1%nat
           [loop_global 7; frame1 "n" (Int 0) global_env] 2%nat (Bool true)
           [loop_global 7; frame1 "n" (Int 0) global_env] 1%nat).
  - reflexivity.
  - reflexivity.
  - reflexivity.
  - reflexivity.
Defined.

(** ** Every store the evaluator reaches is well formed *)

Lemma value_ind' (P : value -> Prop) :
  (forall z, P (Int z)) -> (forall f, P (Float f)) -> (forall s, P (Symbol s)) ->
  (forall l, Forall P l -> P (List l)) ->
  (forall b, P (Bool b)) -> P NoneV ->
  (forall ps body env, P ps -> P body -> P (Procedure ps body env)) ->
  (forall p, P (Builtin p)) ->
  forall v, P v.
Proof.
  intros HInt HFloat HStr HList HBool HNone HProc HPrim.
  fix IH 1. intros [z | f | s | l | b | | ps body env | p].
  - apply HInt.
  - apply HFloat.
  - apply HStr.
  - apply HList. revert l. fix IHl 1. intros [| x l].
    + constructor.
    + constructor; [apply IH | apply IHl].
  - apply HBool.
  - apply HNone.
  - apply HProc; apply IH.
  - apply HPrim.
Qed.

Lemma value_ok_List n l : value_ok n (List l) <-> Forall (value_ok n) l.
Proof.
  induction l as [| x l IH].
  - split; [constructor | easy].
  - split.
    + intros [Hx Hl]. constructor; [exact Hx | now apply IH].
    + intros H. inversion H as [| ? ? Hx Hl]; subst.
      split; [exact Hx | now apply IH].
Qed.

Lemma value_ok_mono n n' v : (n <= n')%nat -> value_ok n v -> value_ok n' v.
Proof.
  intros Hn. induction v as [| | | l IH | | | ps body env IHps IHbody |]
    using value_ind'; try easy.
  - rewrite !value_ok_List. intros H. induction H as [| x l Hx Hl IHl].
    + constructor.
    + inversion IH as [| ? ? IHx IHrest]; subst.
      constructor; [now apply IHx | now apply IHl].
  - intros (He & Hps & Hbody). simpl. repeat split; [lia | auto | auto].
Qed.

Lemma Forall_value_ok_mono n n' l :
  (n <= n')%nat -> Forall (value_ok n) l -> Forall (value_ok n') l.
Proof.
  intros Hn H. eapply Forall_impl; [exact H |].
  intros v. now apply value_ok_mono.
Qed.

Lemma store_ok_wf st : store_ok st -> wf_store st.
Proof. intros H a fr o Hfr Ho. now apply (proj1 (H a fr Hfr)). Qed.

Lemma store_ok_initial : store_ok initial_store.
Proof.
  intros a fr Hfr. destruct a as [| a]; simpl in Hfr; [| discriminate Hfr].
  injection Hfr as <-. split; [discriminate |].
  repeat constructor.
Qed.

Lemma keeps_ret {A : Type} n0 (a : A) (Q : A -> nat -> Prop) :
  (forall n, (n0 <= n)%nat -> Q a n) -> keeps n0 (ret a) Q.
Proof.
  intros HQ st r st' Hok Hn [= <- <-].
  split; [exact Hok | split; [lia |]].
  intros a' [= <-]. now apply HQ.
Qed.

Lemma keeps_lift {A : Type} n0 (r : res A) (Q : A -> nat -> Prop) :
  (forall a n, r = Ok a -> (n0 <= n)%nat -> Q a n) -> keeps n0 (lift r) Q.
Proof.
  intros HQ st r' st' Hok Hn [= <- <-].
  split; [exact Hok | split; [lia |]].
  intros a Ha. now apply HQ.
Qed.

Lemma keeps_raise {A : Type} n0 e (Q : A -> nat -> Prop) :
  keeps n0 (raise e) Q.
Proof. apply keeps_lift. discriminate. Qed.

Lemma keeps_bind {A B : Type} n0 (m : M A) (k : A -> M B) Q1 Q2 :
  keeps n0 m Q1 ->
  (forall a n1, (n0 <= n1)%nat -> Q1 a n1 -> keeps n1 (k a) Q2) ->
  keeps n0 (bind m k) Q2.
Proof.
  intros Hm Hk st r st' Hok Hn H. unfold bind in H.
  destruct (m st) as [[a | e | | ] st1] eqn:E;
    destruct (Hm _ _ _ Hok Hn E) as (Hok1 & Hlen1 & HQ1).
  - assert (Hn1 : (n0 <= length st1)%nat) by lia.
    destruct (Hk a (length st1) Hn1 (HQ1 a eq_refl) _ _ _ Hok1 (le_n _) H)
      as (Hok' & Hlen' & HQ').
    split; [exact Hok' | split; [lia | exact HQ']].
  - injection H as <- <-. split; [exact Hok1 | split; [lia | discriminate]].
  - injection H as <- <-. split; [exact Hok1 | split; [lia | discriminate]].
  - injection H as <- <-. split; [exact Hok1 | split; [lia | discriminate]].
Qed.

Lemma keeps_mapM {A B : Type} n0 (f : A -> M B) (l : list A)
  (Q : B -> nat -> Prop) :
  (forall b n n', (n <= n')%nat -> Q b n -> Q b n') ->
  (forall a n1, In a l -> (n0 <= n1)%nat -> keeps n1 (f a) Q) ->
  keeps n0 (mapM f l) (fun bs n => Forall (fun b => Q b n) bs).
Proof.
  intros Hmono. revert n0. induction l as [| a l IH]; intros n0 Hf; simpl.
  - apply keeps_ret. constructor.
  - eapply keeps_bind; [apply Hf; [now left | lia] |].
    intros b n1 Hn1 Hb.
    eapply keeps_bind.
    + apply IH. intros a' n2 Hin Hn2. apply Hf; [now right | lia].
    + intros bs n2 Hn2 Hbs. apply keeps_ret. intros n Hn.
      constructor.
      * apply (Hmono b n1 n); [lia | exact Hb].
      * eapply Forall_impl; [exact Hbs |]. intros b' Hb'.
        apply (Hmono b' n2 n); [exact Hn | exact Hb'].
Qed.

Lemma Env_find_from_valid n st self k a :
  Env_find_from n st self k = Ok a -> (a < length st)%nat.
Proof.
  revert self. induction n as [| n IH]; intros self; simpl; [discriminate |].
  destruct (st !! self) as [fr |] eqn:Hfr; [| discriminate].
  destruct (dict_mem k (vars fr)).
  - intros [= <-]. now apply lookup_lt_Some in Hfr.
  - destruct (outer fr) as [o |]; [apply IH | discriminate].
Qed.

Lemma keeps_Env_find n0 env k :
  keeps n0 (Env_find env k) (fun self n => (self < n)%nat).
Proof.
  intros st r st' Hok Hn [= <- <-].
  split; [exact Hok | split; [lia |]].
  intros a Ha. now apply Env_find_from_valid in Ha.
Qed.

Lemma dict_get_In k d v : dict_get k d = Some v -> exists k', In (k', v) d.
Proof.
  induction d as [| [k' v'] d IH]; simpl; [discriminate |].
  destruct (key_eqb k k').
  - intros [= <-]. exists k'. now left.
  - intros H. destruct (IH H) as [k'' Hin]. exists k''. now right.
Qed.

Lemma keeps_Env_getitem n0 self k :
  keeps n0 (Env_getitem self k) (fun v n => value_ok n v).
Proof.
  intros st r st' Hok Hn H. unfold Env_getitem in H.
  destruct (st !! self) as [fr |] eqn:Hfr.
  - destruct (dict_get k (vars fr)) as [v |] eqn:Hget;
      injection H as <- <-; (split; [exact Hok | split; [lia |]]);
      [| discriminate].
    intros a [= <-]. destruct (dict_get_In _ _ _ Hget) as [k' Hin].
    destruct (Hok self fr Hfr) as [_ Hvals].
    rewrite List.Forall_forall in Hvals. exact (Hvals (k', v) Hin).
  - injection H as <- <-. split; [exact Hok | split; [lia | discriminate]].
Qed.

Lemma dict_set_Forall (P : value -> Prop) k v d :
  P v -> Forall (fun kv => P (snd kv)) d ->
  Forall (fun kv => P (snd kv)) (dict_set k v d).
Proof.
  intros Hv Hd. induction Hd as [| [k' v'] d Hkv Hd IH]; simpl.
  - now constructor.
  - destruct (key_eqb k k'); constructor; easy.
Qed.

Lemma keeps_Env_setitem n0 self symbol v :
  value_ok n0 v ->
  keeps n0 (Env_setitem self symbol v) (fun _ _ => True).
Proof.
  intros Hv st r st' Hok Hn H. unfold Env_setitem, bind, lift in H.
  destruct (key_of symbol) as [k | e | | ];
    try (injection H as <- <-;
         split; [exact Hok | split; [lia | easy]]).
  destruct (st !! self) as [fr |] eqn:Hfr;
    injection H as <- <-; [| split; [exact Hok | split; [lia | easy]]].
  split; [| split; [now rewrite length_insert | easy]].
  intros a fr' Hfr'. rewrite length_insert.
  destruct (decide (a = self)) as [-> | Hne].
  - rewrite list_lookup_insert_eq in Hfr' by (now apply lookup_lt_Some in Hfr).
    injection Hfr' as <-. destruct (Hok self fr Hfr) as [Hout Hvals].
    split; [exact Hout |]. cbn [vars].
    apply (dict_set_Forall (value_ok (length st))); [| exact Hvals].
    now apply (value_ok_mono n0).
  - rewrite list_lookup_insert_ne in Hfr' by congruence.
    exact (Hok a fr' Hfr').
Qed.

Lemma dict_update_Forall (P : value -> Prop) pairs :
  forall d d',
    Forall (fun kv => P (snd kv)) d ->
    Forall (fun pv => P (snd pv)) pairs ->
    dict_update d pairs = Ok d' ->
    Forall (fun kv => P (snd kv)) d'.
Proof.
  induction pairs as [| [k v] pairs IH]; intros d d' Hd Hp; simpl.
  - now intros [= <-].
  - inversion Hp as [| ? ? Hv Hrest]; subst.
    destruct (key_of k) as [k' | e | | ]; simpl; try discriminate.
    apply IH; [| exact Hrest]. now apply dict_set_Forall.
Qed.

Lemma Forall_combine_snd {A B : Type} (P : B -> Prop) (l : list A) (l' : list B) :
  Forall P l' -> Forall (fun p => P (snd p)) (combine l l').
Proof.
  intros H. revert l. induction H as [| y l' Hy Hl' IH]; intros [| x l]; simpl;
    constructor; [exact Hy | apply IH].
Qed.

Lemma store_ok_snoc st d o :
  store_ok st -> (o < length st)%nat ->
  Forall (fun kv => value_ok (length st) (snd kv)) d ->
  store_ok (st ++ [mkEnv d (Some o)]).
Proof.
  intros Hok Ho Hd a fr Hfr. rewrite length_app. simpl length.
  assert (Hmono : forall d0 : dict,
             Forall (fun kv => value_ok (length st) (snd kv)) d0 ->
             Forall (fun kv => value_ok (length st + 1) (snd kv)) d0).
  { intros d0 H. eapply Forall_impl; [exact H |].
    intros kv. apply value_ok_mono. lia. }
  apply lookup_snoc_Some in Hfr as [[Hlt Hfr] | [-> <-]].
  - destruct (Hok a fr Hfr) as [Hout Hvals]. split; [exact Hout | auto].
  - split; [| now apply Hmono]. simpl. now intros o' [= <-].
Qed.

Lemma keeps_Env_init n0 params args penv :
  (penv < n0)%nat -> Forall (value_ok n0) args ->
  keeps n0 (Env_init params args (Some penv)) (fun e n => (e < n)%nat).
Proof.
  intros Hp Hargs st r st' Hok Hn H. unfold Env_init, bind, lift in H.
  destruct (iterate params) as [ps | e | | ];
    try (injection H as <- <-;
         split; [exact Hok | split; [lia | discriminate]]).
  destruct (dict_update [] (combine ps args)) as [d | e | | ] eqn:Hd;
    try (injection H as <- <-;
         split; [exact Hok | split; [lia | discriminate]]).
  injection H as <- <-.
  split; [| split].
  - apply store_ok_snoc; [exact Hok | lia |].
    apply (dict_update_Forall (value_ok (length st)) (combine ps args) [] d);
      [constructor | | exact Hd].
    apply Forall_combine_snd. now apply (Forall_value_ok_mono n0).
  - rewrite length_app. lia.
  - intros a [= <-]. rewrite length_app. simpl. lia.
Qed.

Lemma num_arith_ok fz ff x y v n : num_arith fz ff x y = Ok v -> value_ok n v.
Proof.
  destruct x as [a | f], y as [b | g]; simpl.
  - now intros [= <-].
  - destruct (float_of_Z a); simpl; try discriminate. now intros [= <-].
  - destruct (float_of_Z b); simpl; try discriminate. now intros [= <-].
  - now intros [= <-].
Qed.

Lemma py_add_ok n a b v :
  value_ok n a -> value_ok n b -> py_add a b = Ok v -> value_ok n v.
Proof.
  intros Ha Hb. unfold py_add.
  destruct (as_num a) as [x |] eqn:Ea; [destruct (as_num b) as [y |] eqn:Eb |].
  - apply num_arith_ok.
  - destruct a; try discriminate; destruct b; discriminate.
  - destruct a; try discriminate; destruct b; try discriminate;
      intros [= <-]; try exact I.
    apply value_ok_List, Forall_app. now rewrite <- !value_ok_List.
Qed.

Lemma py_sub_ok n a b v : py_sub a b = Ok v -> value_ok n v.
Proof.
  unfold py_sub. destruct (as_num a); [destruct (as_num b) |]; try discriminate.
  apply num_arith_ok.
Qed.

Lemma py_mul_ok n a b v : py_mul a b = Ok v -> value_ok n v.
Proof.
  unfold py_mul. destruct (as_num a); [destruct (as_num b) |].
  - apply num_arith_ok.
  - destruct (_ || _); discriminate.
  - destruct (_ || _); discriminate.
Qed.

Lemma py_order_ok n test a b v : py_order test a b = Ok v -> value_ok n v.
Proof.
  unfold py_order. destruct (as_num a); [destruct (as_num b) |].
  - now intros [= <-].
  - destruct a; try discriminate; destruct b; try discriminate; now intros [= <-].
  - destruct a; try discriminate; destruct b; try discriminate; now intros [= <-].
Qed.

Lemma iterate_ok n v l :
  value_ok n v -> iterate v = Ok l -> Forall (value_ok n) l.
Proof.
  destruct v; simpl; try discriminate.
  - intros _ [= <-]. apply Forall_forall. intros x Hx.
    apply list_elem_of_fmap in Hx as [c [-> _]]. exact I.
  - intros H [= <-]. now apply value_ok_List.
Qed.

Lemma last_ok n (l : list value) v :
  Forall (value_ok n) l -> last l = Some v -> value_ok n v.
Proof.
  intros H Hl. apply last_Some in Hl as [l' ->].
  apply Forall_app in H as [_ H]. now inversion H.
Qed.

Ltac invert_Forall :=
  repeat match goal with
         | H : Forall _ (_ :: _) |- _ => inversion H; clear H; subst
         end.

Ltac keeps_leaf :=
  solve
    [ apply keeps_raise
    | apply keeps_ret; intros; simpl; auto
    | apply keeps_lift; discriminate ].

Lemma apply_prim_keeps n0 c p args :
  (forall proc vs n1,
      (n0 <= n1)%nat -> value_ok n1 proc -> Forall (value_ok n1) vs ->
      keeps n1 (c proc vs) (fun v n => value_ok n v)) ->
  Forall (value_ok n0) args ->
  keeps n0 (apply_prim c p args) (fun v n => value_ok n v).
Proof.
  intros Hc Hargs.
  destruct p;
    try (destruct args as [| a [| b [| ? ?]]]; simpl; keeps_leaf; fail).
  - (* op_add *)
    destruct args as [| a [| b [| ? ?]]]; simpl; try keeps_leaf.
    invert_Forall. apply keeps_lift. intros v n Hv Hn.
    apply (py_add_ok n a b); try easy; now apply (value_ok_mono n0).
  - (* op_sub *)
    destruct args as [| a [| b [| ? ?]]]; simpl; try keeps_leaf.
    apply keeps_lift. intros v n Hv Hn. now apply (py_sub_ok n a b).
  - (* op_mul *)
    destruct args as [| a [| b [| ? ?]]]; simpl; try keeps_leaf.
    apply keeps_lift. intros v n Hv Hn. now apply (py_mul_ok n a b).
  - (* op_gt *)
    destruct args as [| a [| b [| ? ?]]]; simpl; try keeps_leaf.
    apply keeps_lift. intros v n Hv Hn. now apply (py_order_ok n is_gt a b).
  - (* op_lt *)
    destruct args as [| a [| b [| ? ?]]]; simpl; try keeps_leaf.
    apply keeps_lift. intros v n Hv Hn. now apply (py_order_ok n is_lt a b).
  - (* op_eq *)
    destruct args as [| a [| b [| ? ?]]]; simpl; try keeps_leaf.
    destruct (py_eq false a b); keeps_leaf.
  - (* op_ge *)
    destruct args as [| a [| b [| ? ?]]]; simpl; try keeps_leaf.
    apply keeps_lift. intros v n Hv Hn. now apply (py_order_ok n is_ge a b).
  - (* op_le *)
    destruct args as [| a [| b [| ? ?]]]; simpl; try keeps_leaf.
    apply keeps_lift. intros v n Hv Hn. now apply (py_order_ok n is_le a b).
  - (* py_abs *)
    destruct args as [| a [| ? ?]]; simpl; try keeps_leaf.
    destruct (as_num a) as [[z | f] |]; keeps_leaf.
  - (* p_car *)
    destruct args as [| x [| ? ?]]; simpl; try keeps_leaf.
    invert_Forall. destruct x as [| | s | [| h l] | | | |]; try keeps_leaf.
    + destruct s; simpl; keeps_leaf.
    + apply keeps_ret. intros n Hn. apply (value_ok_mono n0); [exact Hn |].
      match goal with H : value_ok n0 (List _) |- _ => now destruct H end.
  - (* p_cdr *)
    destruct args as [| x [| ? ?]]; simpl; try keeps_leaf.
    invert_Forall. destruct x as [| | s | l | | | |]; try keeps_leaf.
    apply keeps_ret. intros n Hn. apply (value_ok_mono n0); [exact Hn |].
    apply value_ok_List.
    match goal with H : value_ok n0 (List _) |- _ =>
      apply value_ok_List in H; destruct H; simpl; [constructor | assumption]
    end.
  - (* p_cons *)
    destruct args as [| x [| y [| ? ?]]]; simpl; try keeps_leaf.
    invert_Forall. destruct y as [| | | l | | | |]; try keeps_leaf.
    apply keeps_ret. intros n Hn. apply (value_ok_mono n0); [exact Hn |].
    split; assumption.
  - (* p_list *)
    simpl. apply keeps_ret. intros n Hn. apply value_ok_List.
    now apply (Forall_value_ok_mono n0).
  - (* p_apply *)
    destruct args as [| proc [| a [| ? ?]]]; simpl; try keeps_leaf.
    invert_Forall.
    eapply keeps_bind with (Q1 := fun vs n => Forall (value_ok n) vs).
    + apply keeps_lift. intros vs n Hvs Hn.
      apply (iterate_ok n a); [| exact Hvs]. now apply (value_ok_mono n0).
    + intros vs n1 Hn1 Hvs. apply Hc; [exact Hn1 | | exact Hvs].
      now apply (value_ok_mono n0).
  - (* p_begin *)
    simpl. destruct (last args) as [v |] eqn:Hlast; [| keeps_leaf].
    apply keeps_ret. intros n Hn. apply (value_ok_mono n0); [exact Hn |].
    now apply (last_ok n0 args).
  - (* py_len *)
    destruct args as [| x [| ? ?]]; simpl; try keeps_leaf.
    destruct x; keeps_leaf.
Qed.

Lemma evaluate_call_keeps (fuel : nat) :
  (forall d x env n0,
      value_ok n0 x -> (env < n0)%nat ->
      keeps n0 (evaluate fuel d x env) (fun v n => value_ok n v)) /\
  (forall d proc args n0,
      value_ok n0 proc -> Forall (value_ok n0) args ->
      keeps n0 (call fuel d proc args) (fun v n => value_ok n v)).
Proof.
  induction fuel as [| fuel [IHe IHc]]; split.
  - intros d x env n0 _ _. apply keeps_lift. discriminate.
  - intros d proc args n0 _ _. apply keeps_lift. discriminate.
  - intros d x env n0 Hx Henv.
    destruct d as [| d]; [apply keeps_raise |].
    assert (Hself : keeps n0 (ret x) (fun v n => value_ok n v)).
    { apply keeps_ret. intros n Hn. now apply (value_ok_mono n0). }
    destruct x as [z | f | s | l | b | | ps body penv | p]; try exact Hself.
    + (* a symbol *)
      cbn [evaluate].
      eapply keeps_bind; [apply keeps_Env_find |].
      intros self n1 Hn1 Hs. apply keeps_Env_getitem.
    + (* a sequence *)
      apply value_ok_List in Hx.
      destruct l as [| x0 l]; [apply keeps_raise |].
      cbn [evaluate].
      destruct (head_is "if" x0).
      { destruct l as [| t [| c [| a [| ? ?]]]]; try apply keeps_raise.
        invert_Forall.
        eapply keeps_bind; [now apply IHe |].
        intros v n1 Hn1 Hv. apply IHe; [| lia].
        destruct (truthy v); now apply (value_ok_mono n0). }
      destruct (head_is "define" x0).
      { destruct l as [| sy [| ex [| ? ?]]]; try apply keeps_raise.
        invert_Forall.
        eapply keeps_bind; [now apply IHe |].
        intros v n1 Hn1 Hv.
        eapply keeps_bind; [now apply keeps_Env_setitem |].
        intros _ n2 Hn2 _. now apply keeps_ret. }
      destruct (head_is "quote" x0).
      { apply keeps_ret. intros n Hn. apply value_ok_List. simpl.
        apply (Forall_value_ok_mono n0); [exact Hn |]. now inversion Hx. }
      destruct (head_is "set!" x0).
      { destruct l as [| sy [| ex [| ? ?]]]; try apply keeps_raise.
        invert_Forall.
        eapply keeps_bind; [now apply IHe |].
        intros v n1 Hn1 Hv.
        eapply keeps_bind with (Q1 := fun _ _ => True);
          [apply keeps_lift; easy |].
        intros k n2 Hn2 _.
        eapply keeps_bind; [apply keeps_Env_find |].
        intros self n3 Hn3 Hs.
        eapply keeps_bind;
          [apply keeps_Env_setitem; apply (value_ok_mono n1); [lia | exact Hv] |].
        intros _ n4 Hn4 _. now apply keeps_ret. }
      destruct (head_is "lambda" x0).
      { destruct l as [| pa [| bo [| ? ?]]]; try apply keeps_raise.
        invert_Forall.
        apply keeps_ret. intros n Hn. simpl.
        split; [lia |]. split; now apply (value_ok_mono n0). }
      eapply keeps_bind.
      { apply (keeps_mapM n0 (fun arg => evaluate fuel d arg env) (x0 :: l)
                 (fun v n => value_ok n v)).
        - intros v n n' Hn. now apply value_ok_mono.
        - intros a n1 Hin Hn1. apply IHe; [| lia].
          apply (value_ok_mono n0); [exact Hn1 |].
          rewrite List.Forall_forall in Hx. now apply Hx. }
      intros vs n1 Hn1 Hvs. cbv beta in Hvs.
      destruct vs as [| proc args]; [apply keeps_raise |].
      inversion Hvs as [| ? ? Hproc Hargs]; subst.
      destruct proc as [| | | | | | ps body penv |];
        try (now apply IHc).
      destruct Hproc as (Hpenv & Hps & Hbody).
      eapply keeps_bind; [now apply keeps_Env_init |].
      intros env' n2 Hn2 He'. apply IHe; [| exact He'].
      now apply (value_ok_mono n1).
  - intros d proc args n0 Hproc Hargs. cbn [call].
    destruct proc as [| | | | | | ps body penv | p]; try apply keeps_raise.
    + destruct Hproc as (Hpenv & Hps & Hbody).
      eapply keeps_bind; [now apply keeps_Env_init |].
      intros env' n1 Hn1 He'. apply IHe; [| exact He'].
      now apply (value_ok_mono n0).
    + apply apply_prim_keeps; [| exact Hargs].
      intros proc vs n1 Hn1 Hp Hvs. now apply IHc.
Qed.

Lemma atom_ok token : value_ok 0 (atom token).
Proof.
  unfold atom. destruct (py_int token); [exact I |].
  destruct (py_float token); exact I.
Qed.

Lemma parse_tree_ok (fuel : nat) :
  (forall tokens x rest,
      tokens_to_syntax_tree fuel tokens = Ok (x, rest) -> value_ok 0 x) /\
  (forall tokens L x rest,
      Forall (value_ok 0) L ->
      read_list fuel tokens L = Ok (x, rest) -> value_ok 0 x).
Proof.
  induction fuel as [| fuel [IHt IHl]]; split; try discriminate.
  - intros [| token tokens] x rest; simpl; try discriminate.
    destruct (String.eqb token "(").
    + apply IHl. constructor.
    + destruct (String.eqb token ")"); try discriminate.
      intros [= <- <-]. apply atom_ok.
  - intros [| token tokens] L x rest HL; simpl; try discriminate.
    destruct (String.eqb token ")").
    + intros [= <- <-]. now apply value_ok_List.
    + destruct (tokens_to_syntax_tree fuel (token :: tokens))
        as [[y rest'] | | |] eqn:E; simpl; try discriminate.
      apply IHl. apply Forall_app. split; [exact HL |].
      constructor; [| constructor]. exact (IHt _ _ _ E).
Qed.

Lemma parse_ok program x : parse program = Ok x -> value_ok 0 x.
Proof.
  unfold parse.
  destruct (tokens_to_syntax_tree _ _) as [[y rest] | | |] eqn:E; simpl;
    try discriminate.
  intros [= <-]. exact (proj1 (parse_tree_ok _) _ _ _ E).
Qed.

(** Running a program in a well-formed store leaves a well-formed store,
    with every object it had. *)
Lemma run_keeps fuel d program st r st' :
  store_ok st -> (global_env < length st)%nat ->
  run fuel d program st = (r, st') ->
  store_ok st' /\ (length st <= length st')%nat.
Proof.
  intros Hok Hlen H.
  assert (Hk : keeps (length st) (run fuel d program)
                 (fun v n => value_ok n v)).
  { unfold run.
    eapply keeps_bind with (Q1 := fun x n => value_ok n x).
    - apply keeps_lift. intros x n Hx Hn.
      apply (value_ok_mono 0); [lia |]. now apply (parse_ok program).
    - intros x n1 Hn1 Hx.
      apply (proj1 (evaluate_call_keeps fuel)); [exact Hx | lia]. }
  destruct (Hk st r st' Hok (le_n _) H) as (Hok' & Hlen' & _).
  now split.
Qed.

Lemma session_keeps fuel d programs :
  forall st,
    store_ok st -> (global_env < length st)%nat ->
    store_ok (snd (session fuel d programs st)) /\
    (length st <= length (snd (session fuel d programs st)))%nat.
Proof.
  induction programs as [| p programs IH]; intros st Hok Hlen; simpl.
  - split; [exact Hok | lia].
  - destruct (run fuel d p st) as [r st1] eqn:E.
    destruct (run_keeps _ _ _ _ _ _ Hok Hlen E) as [Hok1 Hlen1].
    destruct (IH st1 Hok1 ltac:(lia)) as [Hok2 Hlen2].
    destruct (session fuel d programs st1) as [rs st2]. simpl in *.
    split; [exact Hok2 | lia].
Qed.

(** X1. Every store that a session of programs reaches from the initial
    store is well formed: every [outer] is an older object of the store (so
    the chains of environments end at an environment without parent), and
    no environment is ever removed. *)
Theorem reachable_stores_are_well_formed :
  forall fuel d programs,
    wf_store (snd (session fuel d programs initial_store)) /\
    store_ok (snd (session fuel d programs initial_store)) /\
    (length initial_store
     <= length (snd (session fuel d programs initial_store)))%nat.
Proof.
  intros fuel d programs.
  assert (H0 : (global_env < length initial_store)%nat)
    by (unfold global_env; simpl; lia).
  destruct (session_keeps fuel d programs initial_store store_ok_initial H0)
    as [Hok Hlen].
  split; [now apply store_ok_wf | now split].
Qed.

(** ** Fuel enough for the parser *)

Lemma parse_tree_total (fuel : nat) :
  (forall tokens,
      (1 <= fuel)%nat -> (2 * length tokens <= fuel)%nat ->
      parsed (length tokens) (tokens_to_syntax_tree fuel tokens)) /\
  (forall tokens L,
      (2 * length tokens + 1 <= fuel)%nat ->
      parsed (length tokens) (read_list fuel tokens L)).
Proof.
  induction fuel as [| fuel [IHt IHl]]; split.
  - intros tokens H. lia.
  - intros tokens L H. lia.
  - intros [| token tokens] _ Hlen; simpl; [now left |].
    simpl in Hlen.
    destruct (String.eqb token "(").
    + specialize (IHl tokens [] ltac:(lia)).
      destruct (read_list fuel tokens []) as [[x rest] | e | |]; simpl in *;
        try easy. lia.
    + destruct (String.eqb token ")"); simpl; [now left | lia].
  - intros [| token tokens] L Hlen; simpl; [now right |].
    simpl in Hlen.
    destruct (String.eqb token ")"); simpl; [lia |].
    specialize (IHt (token :: tokens) ltac:(lia) ltac:(simpl; lia)).
    destruct (tokens_to_syntax_tree fuel (token :: tokens))
      as [[x rest] | e | |]; simpl in *; try easy.
    specialize (IHl rest (L ++ [x]) ltac:(lia)).
    destruct (read_list fuel rest (L ++ [x])) as [[y rest'] | e | |];
      simpl in *; try easy. lia.
Qed.

(** ** Examples *)

(** The examples of the documentation. "(+ 2 (* 3 4))" evaluates to [14]; after "(define r 10)", which
    returns [None], "(* r r)" evaluates to [100] in the same environment;
    "((lambda (x) (* x x)) 5)" evaluates to [25]. *)
Theorem specification_scenarios :
  fst (run 10 10 "(+ 2 (* 3 4))" initial_store) = Ok (Int 14) /\
  fst (session 10 10 ["(define r 10)"; "(* r r)"] initial_store)
  = [Ok NoneV; Ok (Int 100)] /\
  fst (run 10 10 "((lambda (x) (* x x)) 5)" initial_store) = Ok (Int 25).
Proof.
  split; [| split]; vm_compute; reflexivity.
Qed.

(** * More of the program *)

(** ** The lexer *)

Lemma string_app_assoc (a b c : string) :
  ((a ++ b) ++ c)%string = (a ++ (b ++ c))%string.
Proof. induction a as [| x a IH]; simpl; [reflexivity | now rewrite IH]. Qed.

Lemma string_app_nil_r (a : string) : (a ++ "")%string = a.
Proof. induction a as [| x a IH]; simpl; [reflexivity | now rewrite IH]. Qed.

Lemma replace_app old new a b :
  replace old new (a ++ b)%string
  = (replace old new a ++ replace old new b)%string.
Proof.
  induction a as [| c a IH]; simpl; [reflexivity |].
  destruct (Ascii.eqb c old); simpl; rewrite IH; [| reflexivity].
  now rewrite string_app_assoc.
Qed.

Lemma flush_snoc cur c : flush (cur ++ String c "")%string = [(cur ++ String c "")%string].
Proof.
  unfold flush. destruct cur; reflexivity.
Qed.

Lemma split_from_flush cur rest :
  (if String.eqb cur "" then split_from "" rest else cur :: split_from "" rest)
  = flush cur ++ split_from "" rest.
Proof. unfold flush. destruct (String.eqb cur ""); reflexivity. Qed.

Lemma tokenize_lex_from cur chars :
  split_from cur (replace ")" " ) " (replace "(" " ( " chars)) = lex cur chars.
Proof.
  revert cur. induction chars as [| c chars IH]; intros cur.
  - reflexivity.
  - cbn [replace lex].
    destruct (Ascii.eqb_spec c "(") as [-> | Hopen].
    + change (is_space "(") with false. change (is_paren "(") with true.
      cbn [andb orb].
      change (replace ")" " ) " (" ( " ++ replace "(" " ( " chars)%string)
        with (" ( " ++ replace ")" " ) " (replace "(" " ( " chars))%string.
      cbn [String.append split_from]. change (is_space " ") with true.
      change (is_space "(") with false. cbv iota.
      rewrite ?split_from_flush, IH. unfold flush.
      destruct (String.eqb cur ""); reflexivity.
    + destruct (Ascii.eqb_spec c ")") as [-> | Hclose].
      * change (is_space ")") with false. change (is_paren ")") with true.
        cbn [replace]. change (Ascii.eqb ")" ")") with true. cbv iota.
        cbn [String.append split_from]. change (is_space " ") with true.
        change (is_space ")") with false. cbv iota.
        rewrite ?split_from_flush, IH. unfold flush.
        destruct (String.eqb cur ""); reflexivity.
      * cbn [replace].
        assert (Hc : Ascii.eqb c ")" = false) by (now apply Ascii.eqb_neq).
        assert (Ho : Ascii.eqb c "(" = false) by (now apply Ascii.eqb_neq).
        rewrite Hc. cbn [split_from].
        unfold is_paren. rewrite Hc, Ho. cbn [orb].
        destruct (is_space c).
        -- rewrite split_from_flush. now rewrite IH.
        -- apply IH.
Qed.

Lemma tokenize_lex chars : tokenize chars = lex "" chars.
Proof. apply tokenize_lex_from. Qed.

Lemma list_ascii_app (a b : string) :
  list_ascii_of_string (a ++ b)%string
  = list_ascii_of_string a ++ list_ascii_of_string b.
Proof. induction a as [| c a IH]; simpl; [reflexivity | now rewrite IH]. Qed.

Lemma string_app_empty (a b : string) :
  String.eqb (a ++ b)%string "" = String.eqb a "" && String.eqb b "".
Proof. destruct a; [now destruct b | reflexivity]. Qed.

Lemma atom_text_snoc cur c :
  cur = "" \/ atom_text cur = true -> is_delimiter c = false ->
  atom_text (cur ++ String c "")%string = true.
Proof.
  intros Hcur Hc. unfold atom_text.
  rewrite string_app_empty, list_ascii_app, forallb_app. simpl.
  rewrite Hc, andb_false_r. simpl.
  destruct Hcur as [-> | H]; [reflexivity |].
  unfold atom_text in H. apply andb_prop in H as [_ H]. now rewrite H.
Qed.

Lemma flush_ok cur t :
  cur = "" \/ atom_text cur = true -> In t (flush cur) -> token_ok t = true.
Proof.
  unfold flush, token_ok. intros [-> | H]; [now simpl |].
  destruct (String.eqb cur ""); simpl; [easy |].
  intros [<- | []]. rewrite H. now rewrite !orb_true_r.
Qed.

Lemma lex_tokens_ok cur chars t :
  cur = "" \/ atom_text cur = true -> In t (lex cur chars) ->
  token_ok t = true.
Proof.
  revert cur. induction chars as [| c chars IH]; intros cur Hcur; simpl.
  - now apply flush_ok.
  - destruct (is_space c) eqn:Hs.
    + intros H. apply in_app_or in H as [H | H].
      * now apply (flush_ok cur).
      * apply (IH ""); [now left | exact H].
    + destruct (is_paren c) eqn:Hp.
      * intros H. apply in_app_or in H as [H | [<- | H]].
        -- now apply (flush_ok cur).
        -- unfold is_paren in Hp. unfold token_ok. simpl.
           destruct (Ascii.eqb c "(")%char; [reflexivity |].
           simpl in Hp. now rewrite Hp.
        -- apply (IH ""); [now left | exact H].
      * apply IH. right. apply atom_text_snoc; [exact Hcur |].
        unfold is_delimiter. now rewrite Hs, Hp.
Qed.

Lemma lex_app_space cur a c b :
  is_space c = true ->
  lex cur (a ++ String c b)%string = lex cur a ++ lex "" b.
Proof.
  intros Hc. revert cur. induction a as [| x a IH]; intros cur; simpl.
  - now rewrite Hc.
  - destruct (is_space x); [now rewrite IH, app_assoc |].
    destruct (is_paren x); [| apply IH].
    rewrite IH. now rewrite <- app_assoc.
Qed.

Lemma lex_app_paren cur a c b :
  is_space c = false -> is_paren c = true ->
  lex cur (a ++ String c b)%string = lex cur a ++ String c "" :: lex "" b.
Proof.
  intros Hs Hp. revert cur. induction a as [| x a IH]; intros cur; simpl.
  - now rewrite Hs, Hp.
  - destruct (is_space x); [now rewrite IH, app_assoc |].
    destruct (is_paren x); [| apply IH].
    rewrite IH. now rewrite <- app_assoc.
Qed.

Lemma lex_atom_text cur s :
  forallb (fun c => negb (is_delimiter c)) (list_ascii_of_string s) = true ->
  lex cur s = flush (cur ++ s)%string.
Proof.
  revert cur. induction s as [| c s IH]; intros cur; simpl.
  - now rewrite string_app_nil_r.
  - intros H. apply andb_prop in H as [Hc Hs].
    apply negb_true_iff in Hc. unfold is_delimiter in Hc.
    apply orb_false_elim in Hc as [Hsp Hpa]. rewrite Hsp, Hpa.
    rewrite (IH _ Hs). now rewrite string_app_assoc.
Qed.

Lemma lex_token t : token_ok t = true -> lex "" t = [t].
Proof.
  unfold token_ok. intros H.
  destruct (String.eqb t "(") eqn:E1;
    [apply String.eqb_eq in E1; now subst |].
  destruct (String.eqb t ")") eqn:E2;
    [apply String.eqb_eq in E2; now subst |].
  simpl in H. unfold atom_text in H. apply andb_prop in H as [Hne Hall].
  rewrite (lex_atom_text "" t Hall). simpl. unfold flush.
  apply negb_true_iff in Hne. now rewrite Hne.
Qed.

Lemma lex_join ts :
  Forall (fun t => token_ok t = true) ts ->
  lex "" (String.concat " " ts) = ts.
Proof.
  induction 1 as [| t ts Ht Hts IH]; [reflexivity |].
  destruct ts as [| t' ts].
  - simpl. now apply lex_token.
  - change (String.concat " " (t :: t' :: ts))
      with (t ++ String " " (String.concat " " (t' :: ts)))%string.
    rewrite lex_app_space by reflexivity.
    now rewrite IH, lex_token.
Qed.

(** X4. Every token that [tokenize] returns is a parenthesis by itself or a
    text that is not empty and has neither separator nor parenthesis; and
    joining the tokens with single spaces and reading them again gives the
    same tokens. *)
Theorem tokenize_tokens :
  forall chars,
    Forall (fun t => token_ok t = true) (tokenize chars) /\
    tokenize (String.concat " " (tokenize chars)) = tokenize chars.
Proof.
  intros chars.
  assert (H : Forall (fun t => token_ok t = true) (tokenize chars)).
  { apply List.Forall_forall. intros t Ht. rewrite tokenize_lex in Ht.
    apply (lex_tokens_ok "" chars); [now left | exact Ht]. }
  split; [exact H |].
  rewrite (tokenize_lex (String.concat " " _)). now apply lex_join.
Qed.

(** X5. [tokenize] works piece by piece: a separator between two texts
    gives the tokens of the one followed by the tokens of the other, and a
    parenthesis between them is one more token in between, whatever
    surrounds it. *)
Theorem tokenize_splits_at_delimiters :
  forall a b,
    (forall c, is_space c = true ->
               tokenize (a ++ String c b) = tokenize a ++ tokenize b) /\
    tokenize (a ++ String "(" b) = tokenize a ++ "(" :: tokenize b /\
    tokenize (a ++ String ")" b) = tokenize a ++ ")" :: tokenize b.
Proof.
  intros a b. rewrite !tokenize_lex. split; [| split].
  - intros c Hc. rewrite !tokenize_lex. now apply lex_app_space.
  - now apply lex_app_paren.
  - now apply lex_app_paren.
Qed.

Lemma tokenize_splits_witness :
  tokenize ("(+ 1" ++ String " " "2)") = tokenize "(+ 1" ++ tokenize "2)".
Proof.
  apply (proj1 (tokenize_splits_at_delimiters "(+ 1" "2)") " "%char).
  reflexivity.
Defined.

(** ** The parser *)

(** More fuel, and more tokens after those that were read, change nothing
    to a tree that was read. *)
Lemma parse_tree_app (fuel : nat) :
  (forall tokens x rest fuel' extra,
      tokens_to_syntax_tree fuel tokens = Ok (x, rest) ->
      (fuel <= fuel')%nat ->
      tokens_to_syntax_tree fuel' (tokens ++ extra) = Ok (x, rest ++ extra)) /\
  (forall tokens L x rest fuel' extra,
      read_list fuel tokens L = Ok (x, rest) ->
      (fuel <= fuel')%nat ->
      read_list fuel' (tokens ++ extra) L = Ok (x, rest ++ extra)).
Proof.
  induction fuel as [| fuel [IHt IHl]]; split; try discriminate.
  - intros [| token tokens] x rest fuel' extra; simpl; try discriminate.
    intros H Hf. destruct fuel' as [| fuel']; [lia |]. simpl.
    destruct (String.eqb token "(").
    + apply IHl; [exact H | lia].
    + destruct (String.eqb token ")"); try discriminate.
      now injection H as <- <-.
  - intros [| token tokens] L x rest fuel' extra; simpl; try discriminate.
    intros H Hf. destruct fuel' as [| fuel']; [lia |]. simpl.
    destruct (String.eqb token ")").
    + now injection H as <- <-.
    + destruct (tokens_to_syntax_tree fuel (token :: tokens))
        as [[y rest'] | | |] eqn:E; simpl in H; try discriminate.
      change (token :: tokens ++ extra) with ((token :: tokens) ++ extra).
      rewrite (IHt _ _ _ fuel' extra E) by lia. simpl.
      apply IHl; [exact H | lia].
Qed.

(** The errors of the parser: inside a list there is no [SyntaxError]. *)
Lemma parse_tree_errors (fuel : nat) :
  (forall tokens e,
      tokens_to_syntax_tree fuel tokens = Raise e ->
      (e = SyntaxError /\ (tokens = [] \/ exists rest, tokens = ")" :: rest)) \/
      (e = IndexError /\ exists rest, tokens = "(" :: rest)) /\
  (forall tokens L e,
      read_list fuel tokens L = Raise e -> e = IndexError).
Proof.
  induction fuel as [| fuel [IHt IHl]]; split; try discriminate.
  - intros [| token tokens] e; simpl.
    + intros [= <-]. left. split; [reflexivity | now left].
    + destruct (String.eqb token "(") eqn:Eo.
      * intros H. right. apply String.eqb_eq in Eo. subst token.
        split; [exact (IHl _ _ _ H) | now exists tokens].
      * destruct (String.eqb token ")") eqn:Ec; try discriminate.
        intros [= <-]. left. apply String.eqb_eq in Ec. subst token.
        split; [reflexivity | right; now exists tokens].
  - intros [| token tokens] L e; simpl.
    + now intros [= <-].
    + destruct (String.eqb token ")") eqn:Ec; try discriminate.
      destruct (tokens_to_syntax_tree fuel (token :: tokens))
        as [[y rest'] | e' | |] eqn:E; simpl; try discriminate.
      * apply IHl.
      * intros [= <-].
        destruct (IHt _ _ E) as [[_ [H | [rest H]]] | [He _]].
        -- discriminate H.
        -- injection H as -> _. discriminate Ec.
        -- exact He.
Qed.

(** ** Integers written and read back *)

Lemma digits_acc_pos d acc :
  fold_left (fun a c => 10 * a + digit_val c)
    (list_ascii_of_string (NilEmpty.string_of_uint d)) (Zpos acc)
  = Zpos (Pos.of_uint_acc d acc).
Proof.
  revert acc. induction d as [| d IH | d IH | d IH | d IH | d IH | d IH
                             | d IH | d IH | d IH | d IH];
    intros acc; cbn [NilEmpty.string_of_uint list_ascii_of_string fold_left
                     Pos.of_uint_acc];
    [reflexivity | ..];
    rewrite <- IH; f_equal;
    match goal with
    | |- 10 * _ + digit_val ?c = _ =>
        let v := eval vm_compute in (digit_val c) in
        change (digit_val c) with v
    end; lia.
Qed.

Lemma digits_of_uint d :
  digits_value (list_ascii_of_string (NilEmpty.string_of_uint d))
  = Z.of_N (Pos.of_uint d).
Proof.
  unfold digits_value.
  induction d as [| d IH | d IH | d IH | d IH | d IH | d IH
                 | d IH | d IH | d IH | d IH];
    cbn [NilEmpty.string_of_uint list_ascii_of_string fold_left Pos.of_uint];
    [reflexivity | exact IH | ..];
    match goal with
    | |- fold_left _ _ (10 * 0 + digit_val ?c) = _ =>
        let v := eval vm_compute in (10 * 0 + digit_val c) in
        change (10 * 0 + digit_val c) with v
    end; apply digits_acc_pos.
Qed.

Lemma digits_are_digits d :
  forallb is_digit (list_ascii_of_string (NilEmpty.string_of_uint d)) = true.
Proof.
  induction d; cbn [NilEmpty.string_of_uint list_ascii_of_string forallb];
    [reflexivity | ..]; now rewrite IHd.
Qed.

Lemma strip_underscores_digits ds :
  forallb is_digit ds = true ->
  forall prev,
    match prev with Some p => is_digit p = true | None => True end ->
    strip_underscores prev ds = Some ds.
Proof.
  induction ds as [| c ds IH]; intros Hall prev Hprev.
  - simpl. destruct prev as [p |]; [| reflexivity].
    destruct (Ascii.eqb_spec p "_") as [-> | Hne]; [discriminate Hprev |].
    destruct p as [[] [] [] [] [] [] [] []]; try reflexivity. now elim Hne.
  - simpl in Hall. apply andb_prop in Hall as [Hc Hds]. simpl.
    destruct (Ascii.eqb_spec c "_") as [-> | Hne]; [discriminate Hc |].
    assert (Hok : match prev with
                  | Some "_"%char => is_digit c
                  | _ => true
                  end = true).
    { destruct prev as [p |]; [| reflexivity].
      destruct p as [[] [] [] [] [] [] [] []]; try reflexivity. exact Hc. }
    rewrite Hok. now rewrite (IH Hds (Some c) Hc).
Qed.

Lemma decimal_text_value n :
  let ds := list_ascii_of_string (NilZero.string_of_uint (N.to_uint n)) in
  forallb is_digit ds = true /\ ds <> [] /\ digits_value ds = Z.of_N n.
Proof.
  intros ds. subst ds.
  assert (Hval : Pos.of_uint (N.to_uint n) = n) by apply DecimalN.Unsigned.of_to.
  unfold NilZero.string_of_uint.
  destruct (N.to_uint n) as [| d | d | d | d | d | d | d | d | d | d] eqn:E;
    try (split; [apply digits_are_digits |];
         split; [discriminate | rewrite digits_of_uint; now rewrite Hval]).
  split; [reflexivity |]. split; [discriminate |].
  simpl in Hval. now subst n.
Qed.

Lemma length_list_ascii s : length (list_ascii_of_string s) = String.length s.
Proof. induction s as [| c s IH]; simpl; [reflexivity | now rewrite IH]. Qed.

Lemma digit_not_delimiter c : is_digit c = true -> is_delimiter c = false.
Proof.
  destruct c as [[] [] [] [] [] [] [] []]; try discriminate; reflexivity.
Qed.

Lemma digit_not_sign c rest :
  is_digit c = true -> split_sign (c :: rest) = (false, c :: rest).
Proof.
  destruct c as [[] [] [] [] [] [] [] []]; try discriminate; reflexivity.
Qed.

Lemma atom_int_text z : short_int z = true -> atom (int_text z) = Int z.
Proof.
  intros Hshort. unfold atom, py_int, int_text.
  destruct (decimal_text_value (Z.to_N (Z.abs z))) as (Hdig & Hne & Hval).
  cbv zeta in Hdig, Hne, Hval.
  set (text := NilZero.string_of_uint (N.to_uint (Z.to_N (Z.abs z)))) in *.
  unfold short_int in Hshort. fold text in Hshort.
  rewrite <- length_list_ascii in Hshort.
  set (ds := list_ascii_of_string text) in *.
  assert (Hlen : (length ds =? 0)%nat = false).
  { destruct ds; [now elim Hne | reflexivity]. }
  apply negb_true_iff in Hshort.
  destruct (z <? 0) eqn:Hneg.
  - cbn [list_ascii_of_string split_sign]. fold ds.
    rewrite (strip_underscores_digits ds Hdig None I).
    rewrite Hdig, Hlen, Hshort. cbn [negb].
    rewrite Hval. f_equal. apply Z.ltb_lt in Hneg. lia.
  - fold ds. destruct ds as [| c ds'] eqn:Eds; [now elim Hne |].
    pose proof Hdig as Hc. simpl in Hc. apply andb_prop in Hc as [Hc _].
    rewrite (digit_not_sign c ds' Hc).
    rewrite (strip_underscores_digits (c :: ds') Hdig None I).
    rewrite Hdig, Hlen, Hshort. cbn [negb].
    rewrite Hval. f_equal. apply Z.ltb_ge in Hneg. lia.
Qed.

Lemma atom_text_int z : atom_text (int_text z) = true.
Proof.
  unfold atom_text, int_text.
  destruct (decimal_text_value (Z.to_N (Z.abs z))) as (Hdig & Hne & _).
  cbv zeta in Hdig, Hne.
  set (text := NilZero.string_of_uint (N.to_uint (Z.to_N (Z.abs z)))) in *.
  assert (Hall : forallb (fun c => negb (is_delimiter c))
                   (list_ascii_of_string text) = true).
  { apply forallb_forall. intros c Hc.
    rewrite forallb_forall in Hdig.
    now rewrite (digit_not_delimiter c (Hdig c Hc)). }
  destruct (z <? 0).
  - simpl. exact Hall.
  - rewrite Hall, andb_true_r. destruct text; [now elim Hne | reflexivity].
Qed.

Lemma atom_text_not_paren t :
  atom_text t = true -> String.eqb t "(" = false /\ String.eqb t ")" = false.
Proof.
  intros H. split.
  - destruct (String.eqb_spec t "("); [subst; discriminate H | reflexivity].
  - destruct (String.eqb_spec t ")"); [subst; discriminate H | reflexivity].
Qed.

Lemma atom_symbol s s' : atom s = Symbol s' -> s' = s.
Proof.
  unfold atom. destruct (py_int s); [discriminate |].
  destruct (py_float s); [discriminate |]. now intros [= <-].
Qed.

Lemma short_int_str z : short_int z = true -> str_of_int z = Ok (int_text z).
Proof.
  unfold short_int, str_of_int, int_text. intros H.
  apply negb_true_iff in H. cbv zeta. now rewrite H.
Qed.

Lemma schemestr_List l :
  schemestr (List l)
  = res_bind (schemestr_each l)
      (fun parts => Ok ("(" ++ String.concat " " parts ++ ")")%string).
Proof.
  cbn [schemestr]. f_equal.
Qed.

Lemma lex_concat parts :
  lex "" (String.concat " " parts) = flat_map (lex "") parts.
Proof.
  induction parts as [| p parts IH]; [reflexivity |].
  destruct parts as [| p' parts].
  - simpl. now rewrite app_nil_r.
  - change (String.concat " " (p :: p' :: parts))
      with (p ++ String " " (String.concat " " (p' :: parts)))%string.
    rewrite lex_app_space by reflexivity. now rewrite IH.
Qed.

(** The text of a readable tree has the tokens of the tree. *)
Lemma schemestr_tokens x :
  readable x = true ->
  exists s, schemestr x = Ok s /\ tokenize s = tokens_of x.
Proof.
  induction x as [z | f | s | l IH | b | | ps body env _ _ | p]
    using value_ind'; try discriminate; intros Hr.
  - exists (int_text z). split; [now apply short_int_str |].
    rewrite tokenize_lex. apply lex_token. unfold token_ok.
    now rewrite atom_text_int, orb_true_r.
  - exists s. split; [reflexivity |].
    rewrite tokenize_lex. apply lex_token. unfold token_ok.
    simpl in Hr. unfold symbol_text in Hr. apply andb_prop in Hr as [Hr _].
    now rewrite Hr, orb_true_r.
  - assert (Hparts : exists parts,
               schemestr_each l = Ok parts /\
               flat_map (lex "") parts = flat_map tokens_of l).
    { simpl in Hr. induction IH as [| x l Hx Hl IHl].
      - now exists [].
      - simpl in Hr. apply andb_prop in Hr as [Hrx Hrl].
        destruct (Hx Hrx) as (s & Hs & Hts).
        destruct (IHl Hrl) as (parts & Hparts & Hflat).
        exists (s :: parts). cbn [schemestr_each flat_map].
        rewrite Hs, Hparts. split; [reflexivity |].
        rewrite <- tokenize_lex. now rewrite Hts, Hflat. }
    destruct Hparts as (parts & Hparts & Hflat).
    exists ("(" ++ String.concat " " parts ++ ")")%string.
    split; [rewrite schemestr_List; now rewrite Hparts |].
    rewrite tokenize_lex. cbn [String.append lex].
    change (is_space "(") with false. change (is_paren "(") with true.
    cbv iota. cbn [flush String.eqb app]. f_equal.
    rewrite lex_app_paren by reflexivity.
    rewrite lex_concat, Hflat. reflexivity.
Qed.

Lemma tokens_of_head x :
  readable x = true ->
  exists t ts, tokens_of x = t :: ts /\ String.eqb t ")" = false.
Proof.
  destruct x as [z | f | s | l | b | | ps body env | p]; try discriminate;
    intros Hr; simpl.
  - exists (int_text z), []. split; [reflexivity |].
    apply atom_text_not_paren, atom_text_int.
  - exists s, []. split; [reflexivity |].
    unfold symbol_text in Hr. apply andb_prop in Hr as [Hr _].
    now apply atom_text_not_paren.
  - now exists "(", (flat_map tokens_of l ++ [")"]).
Qed.

(** The parser reads the tokens of a readable tree as the tree. *)
Lemma read_tokens_of x :
  readable x = true ->
  forall fuel rest,
    (2 * length (tokens_of x) <= fuel)%nat ->
    tokens_to_syntax_tree fuel (tokens_of x ++ rest) = Ok (x, rest).
Proof.
  induction x as [z | f | s | l IH | b | | ps body env _ _ | p]
    using value_ind'; try discriminate; intros Hr fuel rest Hfuel.
  - simpl in Hfuel. destruct fuel as [| fuel]; [lia |].
    cbn [tokens_of app tokens_to_syntax_tree].
    destruct (atom_text_not_paren _ (atom_text_int z)) as [-> ->].
    now rewrite atom_int_text.
  - simpl in Hfuel. destruct fuel as [| fuel]; [lia |].
    cbn [tokens_of app tokens_to_syntax_tree].
    simpl in Hr. unfold symbol_text in Hr. apply andb_prop in Hr as [Ht Ha].
    destruct (atom_text_not_paren _ Ht) as [-> ->].
    destruct (atom s) as [| | s' | | | | |] eqn:E; try discriminate.
    now rewrite (atom_symbol s s' E).
  - assert (Hlist : forall L fuel rest,
               (2 * length (flat_map tokens_of l) + 1 <= fuel)%nat ->
               read_list fuel (flat_map tokens_of l ++ ")" :: rest) L
               = Ok (List (L ++ l), rest)).
    { simpl in Hr. clear fuel rest Hfuel.
      induction IH as [| x l Hx Hl IHl]; intros L fuel rest Hfuel.
      - destruct fuel as [| fuel]; [lia |]. simpl. now rewrite app_nil_r.
      - simpl in Hr. apply andb_prop in Hr as [Hrx Hrl].
        destruct fuel as [| fuel]; [lia |].
        cbn [flat_map] in *. rewrite length_app in Hfuel.
        destruct (tokens_of_head x Hrx) as (t & ts & Ht & Hclose).
        rewrite <- app_assoc. rewrite Ht in *. cbn [app read_list].
        rewrite Hclose.
        change (t :: ts ++ flat_map tokens_of l ++ ")" :: rest)
          with ((t :: ts) ++ flat_map tokens_of l ++ ")" :: rest).
        rewrite <- Ht in *.
        rewrite (Hx Hrx fuel (flat_map tokens_of l ++ ")" :: rest))
          by (rewrite Ht in *; simpl in *; lia).
        cbn [res_bind fst snd].
        rewrite (IHl Hrl (L ++ [x]) fuel rest)
          by (rewrite Ht in *; simpl in *; lia).
        now rewrite <- app_assoc. }
    cbn [tokens_of] in *. destruct fuel as [| fuel]; [simpl in Hfuel; lia |].
    cbn [app tokens_to_syntax_tree String.eqb Ascii.eqb Bool.eqb].
    rewrite <- app_assoc. cbn [app].
    rewrite (Hlist [] fuel rest); [reflexivity |].
    simpl in Hfuel. rewrite length_app in Hfuel. simpl in Hfuel. lia.
Qed.

(** X6. A tree of integers (that the host agrees to write), of symbols
    whose text is one token and no number, and of lists of such trees is
    printed by [schemestr] as a text that [parse] reads back as the same
    tree (the stack left aside, as everywhere for [parse] and
    [schemestr]). *)
Theorem parse_schemestr_round_trip :
  forall x,
    readable x = true ->
    exists s, schemestr x = Ok s /\ parse s = Ok x.
Proof.
  intros x Hr. destruct (schemestr_tokens x Hr) as (s & Hs & Hts).
  exists s. split; [exact Hs |].
  unfold parse. rewrite Hts.
  rewrite <- (app_nil_r (tokens_of x)) at 2.
  rewrite (read_tokens_of x Hr); [reflexivity |].
  unfold parse_fuel. lia.
Qed.

Lemma parse_schemestr_witness :
  exists s,
    schemestr (List [Symbol "define"; Symbol "r"; List [Symbol "-"; Int (-10); Int 0]])
    = Ok s /\
    parse s
    = Ok (List [Symbol "define"; Symbol "r"; List [Symbol "-"; Int (-10); Int 0]]).
Proof.
  apply (parse_schemestr_round_trip
           (List [Symbol "define"; Symbol "r";
                  List [Symbol "-"; Int (-10); Int 0]])).
  vm_compute. reflexivity.
Defined.

(** ** What the parser gives, by the parentheses of the text *)

Lemma after_close_shorter tokens :
  forall depth rest,
    after_close depth tokens = Some rest -> (length rest < length tokens)%nat.
Proof.
  induction tokens as [| t tokens IH]; intros depth rest H; [discriminate |].
  simpl in H. destruct (String.eqb t "(").
  - apply IH in H. simpl. lia.
  - destruct (String.eqb t ")").
    + destruct depth as [| d].
      * injection H as <-. simpl. lia.
      * apply IH in H. simpl. lia.
    + apply IH in H. simpl. lia.
Qed.

(** Closing [S depth] lists is closing one and then [depth]. *)
Lemma after_close_S n :
  forall tokens depth,
    (length tokens < n)%nat ->
    after_close (S depth) tokens
    = match after_close 0 tokens with
      | Some rest => after_close depth rest
      | None => None
      end.
Proof.
  induction n as [| n IH]; intros tokens depth Hn; [lia |].
  destruct tokens as [| t tokens]; [reflexivity |].
  simpl in Hn. cbn [after_close].
  destruct (String.eqb t "(").
  - rewrite (IH tokens (S depth)) by lia.
    rewrite (IH tokens 0%nat) by lia.
    destruct (after_close 0 tokens) as [rest |] eqn:E; [| reflexivity].
    apply after_close_shorter in E. apply IH. lia.
  - destruct (String.eqb t ")"); [reflexivity |].
    apply IH. lia.
Qed.

Lemma parse_tree_outcome (fuel : nat) :
  (forall tokens,
      (1 <= fuel)%nat -> (2 * length tokens <= fuel)%nat ->
      match tokens with
      | [] => tokens_to_syntax_tree fuel tokens = Raise SyntaxError
      | t :: rest =>
          if String.eqb t "(" then
            match after_close 0 rest with
            | Some rest' =>
                exists l, tokens_to_syntax_tree fuel tokens = Ok (List l, rest')
            | None => tokens_to_syntax_tree fuel tokens = Raise IndexError
            end
          else if String.eqb t ")" then
            tokens_to_syntax_tree fuel tokens = Raise SyntaxError
          else tokens_to_syntax_tree fuel tokens = Ok (atom t, rest)
      end) /\
  (forall tokens L,
      (2 * length tokens + 1 <= fuel)%nat ->
      match after_close 0 tokens with
      | Some rest' =>
          exists l, read_list fuel tokens L = Ok (List (L ++ l), rest')
      | None => read_list fuel tokens L = Raise IndexError
      end).
Proof.
  induction fuel as [| fuel [IHtree IHlist]].
  - split; [intros tokens H; lia | intros tokens L H; lia].
  - split.
    + intros tokens _ Hfuel. destruct tokens as [| t rest]; [reflexivity |].
      cbn [tokens_to_syntax_tree]. simpl in Hfuel.
      destruct (String.eqb t "(") eqn:Eopen.
      * specialize (IHlist rest []). cbn [app] in IHlist.
        apply IHlist. lia.
      * destruct (String.eqb t ")"); reflexivity.
    + intros tokens L Hfuel. destruct tokens as [| t rest]; [reflexivity |].
      simpl in Hfuel. cbn [read_list after_close].
      destruct (String.eqb t ")") eqn:Eclose.
      * apply String.eqb_eq in Eclose. subst t. cbn.
        exists []. now rewrite app_nil_r.
      * assert (Htree := IHtree (t :: rest)). cbn [length] in Htree.
        specialize (Htree ltac:(lia) ltac:(lia)). cbv beta iota in Htree.
        rewrite Eclose in Htree.
        destruct (String.eqb t "(") eqn:Eopen.
        -- rewrite (after_close_S (S (length rest)) rest 0%nat) by lia.
           destruct (after_close 0 rest) as [rest' |] eqn:E1.
           ++ destruct Htree as (l1 & ->). cbn [res_bind fst snd].
              apply after_close_shorter in E1.
              specialize (IHlist rest' (L ++ [List l1]) ltac:(lia)).
              destruct (after_close 0 rest') as [rest'' |].
              ** destruct IHlist as (l & ->). exists (List l1 :: l).
                 now rewrite <- app_assoc.
              ** exact IHlist.
           ++ rewrite Htree. reflexivity.
        -- rewrite Htree. cbn [res_bind fst snd].
           specialize (IHlist rest (L ++ [atom t]) ltac:(lia)).
           destruct (after_close 0 rest) as [rest' |].
           ++ destruct IHlist as (l & ->). exists (atom t :: l).
              now rewrite <- app_assoc.
           ++ exact IHlist.
Qed.

(** X7. What [parse] gives is decided by the first token and by the
    parentheses alone. No token, or a closing parenthesis first:
    [SyntaxError]. An atom first: its value, whatever follows. An opening
    parenthesis first: a list when the parenthesis is closed further on,
    and [IndexError] when it is not. *)
Theorem parse_outcome :
  forall program,
    match tokenize program with
    | [] => parse program = Raise SyntaxError
    | t :: rest =>
        if String.eqb t ")" then parse program = Raise SyntaxError
        else if String.eqb t "(" then
          match after_close 0 rest with
          | Some _ => exists l, parse program = Ok (List l)
          | None => parse program = Raise IndexError
          end
        else parse program = Ok (atom t)
    end.
Proof.
  intros program. unfold parse.
  destruct (parse_tree_outcome (parse_fuel (tokenize program))) as [H _].
  specialize (H (tokenize program)). unfold parse_fuel in *.
  specialize (H ltac:(lia) ltac:(lia)).
  destruct (tokenize program) as [| t rest]; [now rewrite H |].
  destruct (String.eqb t "(") eqn:Eopen.
  - apply String.eqb_eq in Eopen. subst t. cbn [String.eqb Ascii.eqb Bool.eqb].
    destruct (after_close 0 rest).
    + destruct H as (elements & Helements). rewrite Helements.
      now exists elements.
    + now rewrite H.
  - destruct (String.eqb t ")"); now rewrite H.
Qed.

(** X8. [parse] reads one expression and stops: when a text parses, the
    text followed by a separator or a parenthesis and by anything else
    parses to the same tree. What follows is never looked at, unbalanced
    parentheses included. *)
Theorem parse_ignores_what_follows :
  forall a c b x,
    parse a = Ok x ->
    is_delimiter c = true ->
    parse (a ++ String c b) = Ok x.
Proof.
  intros a c b x Hparse Hc. unfold parse in *.
  destruct (tokens_to_syntax_tree (parse_fuel (tokenize a)) (tokenize a))
    as [[y rest] | | |] eqn:E; try discriminate.
  cbn [res_bind fst] in Hparse. injection Hparse as ->.
  assert (Hsplit : exists extra,
             tokenize (a ++ String c b) = tokenize a ++ extra).
  { rewrite !tokenize_lex. unfold is_delimiter in Hc.
    destruct (is_space c) eqn:Hs.
    - exists (lex "" b). now apply lex_app_space.
    - exists (String c "" :: lex "" b). now apply lex_app_paren. }
  destruct Hsplit as (extra & ->).
  destruct (parse_tree_app (parse_fuel (tokenize a))) as [Happ _].
  rewrite (Happ (tokenize a) x rest (parse_fuel (tokenize a ++ extra)) extra E).
  - reflexivity.
  - unfold parse_fuel. rewrite length_app. lia.
Qed.

Lemma parse_ignores_witness :
  parse "(+ 1 2)" = Ok (List [Symbol "+"; Int 1; Int 2]) /\
  is_delimiter ")" = true /\
  parse "(+ 1 2)) 3 (" = Ok (List [Symbol "+"; Int 1; Int 2]).
Proof.
  split; [reflexivity |]. split; [reflexivity |].
  apply (parse_ignores_what_follows "(+ 1 2)" ")" " 3 (").
  - vm_compute. reflexivity.
  - reflexivity.
Defined.

(** ** What [Env.find] answers *)

Lemma chain_cases st k :
  wf_store st ->
  forall n env,
    (env < n)%nat -> is_Some (st !! env) ->
    (exists self, innermost st k env self) \/ unbound st env k.
Proof.
  intros Hwf. induction n as [| n IH]; intros env Hn [fr Hfr]; [lia |].
  destruct (dict_mem k (vars fr)) eqn:Hmem.
  - left. exists env. now apply inner_here with fr.
  - destruct (outer fr) as [o |] eqn:Ho.
    + pose proof (Hwf env fr o Hfr Ho) as Hlt.
      destruct (st !! o) as [fo |] eqn:Hfo.
      * destruct (IH o ltac:(lia) ltac:(rewrite Hfo; eauto)) as [[self H] | H].
        -- left. exists self. now apply inner_outer with fr o.
        -- right. intros a fa Hchain Hfa.
           inversion Hchain as [| ? fr' o' ? Hfr' Ho' Hrest]; subst.
           ++ congruence.
           ++ rewrite Hfr in Hfr'. injection Hfr' as <-.
              rewrite Ho in Ho'. injection Ho' as <-.
              now apply (H a fa).
      * right. intros a fa Hchain Hfa.
        inversion Hchain as [| ? fr' o' ? Hfr' Ho' Hrest]; subst.
        -- congruence.
        -- rewrite Hfr in Hfr'. injection Hfr' as <-.
           rewrite Ho in Ho'. injection Ho' as <-.
           inversion Hrest as [| ? fr'' ? ? Hfr'' _ _]; subst; congruence.
    + right. intros a fa Hchain Hfa.
      inversion Hchain as [| ? fr' o' ? Hfr' Ho' Hrest]; subst; congruence.
Qed.

(** X9. In a store where every [outer] is an older environment,
    [Env.find] has two outcomes and no other: the innermost environment of
    the chain that has the name, or [AttributeError] when no environment
    of the chain has it. The store is left as it was. *)
Theorem Env_find_outcome :
  forall st env k,
    wf_store st -> is_Some (st !! env) ->
    (exists self, Env_find env k st = (Ok self, st) /\ innermost st k env self)
    \/ (Env_find env k st = (Raise AttributeError, st) /\ unbound st env k).
Proof.
  intros st env k Hwf Henv.
  destruct (chain_cases st k Hwf (S env) env ltac:(lia) Henv) as [[self H] | H].
  - left. exists self. split; [now apply Env_find_innermost | exact H].
  - right. split; [now apply Env_find_unbound | exact H].
Qed.

Lemma Env_find_outcome_witness :
  (exists self,
      Env_find global_env (KStr "car") initial_store = (Ok self, initial_store) /\
      innermost initial_store (KStr "car") global_env self)
  \/ (Env_find global_env (KStr "car") initial_store
      = (Raise AttributeError, initial_store) /\
      unbound initial_store global_env (KStr "car")).
Proof.
  apply (Env_find_outcome initial_store global_env (KStr "car")).
  - intros a fr o Ha Ho. destruct a as [| a]; [| discriminate Ha].
    injection Ha as <-. discriminate Ho.
  - exists standard_env. reflexivity.
Defined.

(** ** The arguments of a call, by name *)

Lemma find_snoc {A : Type} (f : A -> bool) (l : list A) (x : A) :
  find f (rev (l ++ [x])) = if f x then Some x else find f (rev l).
Proof. rewrite rev_app_distr. reflexivity. Qed.

Lemma dict_get_set k name v d :
  dict_get k (dict_set (KStr name) v d)
  = if key_eqb k (KStr name) then Some v else dict_get k d.
Proof.
  destruct (key_eqb k (KStr name)) eqn:E.
  - assert (k = KStr name) as ->.
    { destruct k; try discriminate E. simpl in E.
      apply String.eqb_eq in E. now subst. }
    apply dict_get_set_same.
  - apply dict_get_set_other. intros ->. simpl in E.
    now rewrite String.eqb_refl in E.
Qed.

Lemma dict_get_fold k (pairs : list (string * value)) :
  forall d,
    dict_get k (fold_left (fun acc p => dict_set (KStr (fst p)) (snd p) acc)
                  pairs d)
    = match find (fun p => key_eqb k (KStr (fst p))) (rev pairs) with
      | Some p => Some (snd p)
      | None => dict_get k d
      end.
Proof.
  induction pairs as [| p pairs IH] using rev_ind; intros d; [reflexivity |].
  rewrite fold_left_app, find_snoc. cbn [fold_left].
  rewrite dict_get_set. destruct (key_eqb k (KStr (fst p))); [reflexivity |].
  apply IH.
Qed.

(** X10. The environment of a call binds each parameter to the argument
    at its position: [zip] stops at the shorter of the two lists, and when
    a name is written twice among the parameters the later argument is the
    one found. A name that is no parameter, or a parameter beyond the
    arguments, is not in the new environment ([KeyError] on the
    environment itself); the new environment is the last of the store and
    the others are untouched. *)
Theorem call_environment_lookup :
  forall names args o st name,
    exists child,
      Env_init (List (map Symbol names)) args o st
      = (Ok (length st), st ++ [child]) /\
      outer child = o /\
      Env_getitem (length st) (KStr name) (st ++ [child])
      = (match find (fun p => String.eqb name (fst p))
                 (rev (combine names args)) with
         | Some p => Ok (snd p)
         | None => Raise KeyError
         end, st ++ [child]).
Proof.
  intros names args o st name. exists (mkEnv (bindings names args) o).
  split; [apply Env_init_names |]. split; [reflexivity |].
  unfold Env_getitem. rewrite list_lookup_middle by reflexivity.
  cbn [vars]. unfold bindings. rewrite dict_get_fold. cbn [key_eqb].
  destruct (find _ _); reflexivity.
Qed.

(** ** Nothing is ever removed from the environments *)

Lemma grows_refl st : grows st st.
Proof.
  intros a fr H. exists fr. split; [exact H |]. split; [reflexivity |].
  exists []. now rewrite app_nil_r.
Qed.

Lemma grows_trans st1 st2 st3 : grows st1 st2 -> grows st2 st3 -> grows st1 st3.
Proof.
  intros H12 H23 a fr H.
  destruct (H12 a fr H) as (fr2 & H2 & Ho2 & more2 & Hk2).
  destruct (H23 a fr2 H2) as (fr3 & H3 & Ho3 & more3 & Hk3).
  exists fr3. split; [exact H3 |]. split; [congruence |].
  exists (more2 ++ more3). now rewrite Hk3, Hk2, <- app_assoc.
Qed.

Lemma only_adds_ret {A : Type} (a : A) : only_adds (ret a).
Proof. intros st. apply grows_refl. Qed.

Lemma only_adds_lift {A : Type} (r : res A) : only_adds (lift r).
Proof. intros st. apply grows_refl. Qed.

Lemma only_adds_raise {A : Type} e : only_adds (@raise A e).
Proof. intros st. apply grows_refl. Qed.

Lemma only_adds_bind {A B : Type} (m : M A) (k : A -> M B) :
  only_adds m -> (forall a, only_adds (k a)) -> only_adds (bind m k).
Proof.
  intros Hm Hk st. unfold bind. specialize (Hm st).
  destruct (m st) as [[a | e | |] st1]; simpl in *; try exact Hm.
  apply grows_trans with st1; [exact Hm | apply Hk].
Qed.

Lemma only_adds_mapM {A B : Type} (f : A -> M B) (l : list A) :
  (forall a, only_adds (f a)) -> only_adds (mapM f l).
Proof.
  intros Hf. induction l as [| a l IH]; simpl; [apply only_adds_ret |].
  apply only_adds_bind; [apply Hf |]. intros b.
  apply only_adds_bind; [exact IH |]. intros bs. apply only_adds_ret.
Qed.

Lemma only_adds_Env_find env k : only_adds (Env_find env k).
Proof. intros st. apply grows_refl. Qed.

Lemma only_adds_Env_getitem self k : only_adds (Env_getitem self k).
Proof.
  intros st. unfold Env_getitem.
  destruct (st !! self) as [fr |]; [| apply grows_refl].
  destruct (dict_get k (vars fr)); apply grows_refl.
Qed.

Lemma dict_keys_set k v d :
  exists more, dict_keys (dict_set k v d) = dict_keys d ++ more.
Proof.
  induction d as [| [k' v'] d [more IH]]; simpl.
  - now exists [k].
  - destruct (key_eqb k k'); simpl.
    + exists []. now rewrite app_nil_r.
    + exists more. unfold dict_keys in *. simpl. now rewrite IH.
Qed.

Lemma only_adds_Env_setitem self symbol v : only_adds (Env_setitem self symbol v).
Proof.
  unfold Env_setitem. apply only_adds_bind; [apply only_adds_lift |].
  intros k st. destruct (st !! self) as [fr |] eqn:Hself; [| apply grows_refl].
  cbn [snd]. intros a fa Ha.
  destruct (decide (a = self)) as [-> | Hne].
  - rewrite Hself in Ha. injection Ha as <-.
    exists (mkEnv (dict_set k v (vars fr)) (outer fr)).
    split; [apply list_lookup_insert_eq; now apply lookup_lt_Some with fr |].
    split; [reflexivity | apply dict_keys_set].
  - exists fa. split; [now rewrite list_lookup_insert_ne |].
    split; [reflexivity |]. exists []. now rewrite app_nil_r.
Qed.

Lemma only_adds_Env_init params args o : only_adds (Env_init params args o).
Proof.
  unfold Env_init. apply only_adds_bind; [apply only_adds_lift |].
  intros ps. apply only_adds_bind; [apply only_adds_lift |].
  intros d st. cbn [snd]. intros a fa Ha.
  exists fa. split; [now apply lookup_app_l_Some |].
  split; [reflexivity |]. exists []. now rewrite app_nil_r.
Qed.

Ltac only_adds_leaf :=
  solve [ apply only_adds_raise | apply only_adds_ret | apply only_adds_lift ].

Lemma only_adds_apply_prim c p args :
  (forall proc vs, only_adds (c proc vs)) -> only_adds (apply_prim c p args).
Proof.
  intros Hc.
  destruct p; try (simpl; only_adds_leaf);
    try (destruct args as [| a [| b [| ? ?]]]; simpl; only_adds_leaf).
  - (* op_eq *)
    destruct args as [| a [| b [| ? ?]]]; simpl; try only_adds_leaf.
    destruct (py_eq false a b); only_adds_leaf.
  - (* py_abs *)
    destruct args as [| a [| ? ?]]; simpl; try only_adds_leaf.
    destruct (as_num a) as [[z | f] |]; only_adds_leaf.
  - (* p_car *)
    destruct args as [| x [| ? ?]]; simpl; try only_adds_leaf.
    destruct x as [| | s | [| h l] | | | |]; only_adds_leaf.
  - (* p_cdr *)
    destruct args as [| x [| ? ?]]; simpl; try only_adds_leaf.
    destruct x; only_adds_leaf.
  - (* p_cons *)
    destruct args as [| x [| y [| ? ?]]]; simpl; try only_adds_leaf.
    destruct y; only_adds_leaf.
  - (* p_apply *)
    destruct args as [| proc [| a [| ? ?]]]; simpl; try only_adds_leaf.
    apply only_adds_bind; [apply only_adds_lift | intros vs; apply Hc].
  - (* p_begin *)
    simpl. destruct (last args); only_adds_leaf.
  - (* py_len *)
    destruct args as [| x [| ? ?]]; simpl; try only_adds_leaf.
    destruct x; only_adds_leaf.
Qed.

Lemma only_adds_evaluate_call (fuel : nat) :
  (forall d x env, only_adds (evaluate fuel d x env)) /\
  (forall d proc args, only_adds (call fuel d proc args)).
Proof.
  induction fuel as [| fuel [IHe IHc]]; split.
  - intros d x env. apply only_adds_lift.
  - intros d proc args. apply only_adds_lift.
  - intros d x env. destruct d as [| d]; [apply only_adds_raise |].
    destruct x as [z | f | s | l | b | | ps body penv | p];
      try apply only_adds_ret.
    + cbn [evaluate]. apply only_adds_bind; [apply only_adds_Env_find |].
      intros self. apply only_adds_Env_getitem.
    + destruct l as [| x0 l]; [apply only_adds_raise |].
      cbn [evaluate].
      destruct (head_is "if" x0).
      { destruct l as [| t [| c [| a [| ? ?]]]]; try apply only_adds_raise.
        apply only_adds_bind; [apply IHe | intros v; apply IHe]. }
      destruct (head_is "define" x0).
      { destruct l as [| sy [| ex [| ? ?]]]; try apply only_adds_raise.
        apply only_adds_bind; [apply IHe | intros v].
        apply only_adds_bind; [apply only_adds_Env_setitem | intros _].
        apply only_adds_ret. }
      destruct (head_is "quote" x0); [apply only_adds_ret |].
      destruct (head_is "set!" x0).
      { destruct l as [| sy [| ex [| ? ?]]]; try apply only_adds_raise.
        apply only_adds_bind; [apply IHe | intros v].
        apply only_adds_bind; [apply only_adds_lift | intros k].
        apply only_adds_bind; [apply only_adds_Env_find | intros self].
        apply only_adds_bind; [apply only_adds_Env_setitem | intros _].
        apply only_adds_ret. }
      destruct (head_is "lambda" x0).
      { destruct l as [| pa [| bo [| ? ?]]]; try apply only_adds_raise.
        apply only_adds_ret. }
      apply only_adds_bind.
      { apply (only_adds_mapM (fun arg => evaluate fuel d arg env)).
        intros a. apply IHe. }
      intros vs. destruct vs as [| proc args]; [apply only_adds_raise |].
      destruct proc; try apply IHc.
      apply only_adds_bind; [apply only_adds_Env_init | intros e; apply IHe].
  - intros d proc args. cbn [call].
    destruct proc as [| | | | | | ps body penv | p]; try apply only_adds_raise.
    + apply only_adds_bind; [apply only_adds_Env_init | intros e; apply IHe].
    + apply only_adds_apply_prim. intros proc vs. apply IHc.
Qed.

Lemma only_adds_run fuel d program : only_adds (run fuel d program).
Proof.
  unfold run. apply only_adds_bind; [apply only_adds_lift |].
  intros x. apply (proj1 (only_adds_evaluate_call fuel)).
Qed.

Lemma dict_mem_app k d more :
  dict_mem k d = true -> dict_mem k (d ++ more) = true.
Proof.
  unfold dict_mem. induction d as [| [k' v] d IH]; simpl; [discriminate |].
  destruct (key_eqb k k'); [reflexivity | exact IH].
Qed.

Lemma dict_mem_keys k d d' :
  dict_keys d = dict_keys d' -> dict_mem k d = dict_mem k d'.
Proof.
  unfold dict_mem. revert d'.
  induction d as [| [k1 v1] d IH]; intros [| [k2 v2] d'] H;
    try discriminate H; [reflexivity |].
  simpl in H. injection H as -> H. simpl.
  destruct (key_eqb k k2); [reflexivity | now apply IH].
Qed.

Lemma grows_dict_mem st st' a fr fr' k :
  grows st st' -> st !! a = Some fr -> st' !! a = Some fr' ->
  dict_mem k (vars fr) = true -> dict_mem k (vars fr') = true.
Proof.
  intros Hg Ha Ha' Hmem.
  destruct (Hg a fr Ha) as (fr2 & H2 & _ & more & Hkeys).
  rewrite Ha' in H2. injection H2 as <-.
  assert (Hsplit : exists d1 d2,
             vars fr' = d1 ++ d2 /\ dict_keys d1 = dict_keys (vars fr)).
  { exists (firstn (length (vars fr)) (vars fr')),
           (skipn (length (vars fr)) (vars fr')).
    split; [now rewrite firstn_skipn |].
    unfold dict_keys in *. rewrite <- firstn_map, Hkeys.
    rewrite <- (length_map fst (vars fr)).
    now rewrite firstn_app, Nat.sub_diag, firstn_all, firstn_O, app_nil_r. }
  destruct Hsplit as (d1 & d2 & -> & Hd1).
  apply dict_mem_app. now rewrite (dict_mem_keys k d1 (vars fr) Hd1).
Qed.

(** X11. Evaluation only adds to the environments. Whatever an evaluation
    answers (a value or an exception), every environment that existed
    before exists after, at the same address and with the same [outer],
    and has the names it had, in the same order, before any new one: no
    environment is removed, no name is unbound, and the chain of an
    environment is never rerouted. In particular a name bound in an
    environment stays bound there. *)
Theorem evaluation_only_adds :
  forall fuel d x env st,
    let st' := snd (evaluate fuel d x env st) in
    grows st st' /\
    (length st <= length st')%nat /\
    (forall a fr fr' k,
        st !! a = Some fr -> st' !! a = Some fr' ->
        outer fr' = outer fr /\
        (dict_mem k (vars fr) = true -> dict_mem k (vars fr') = true)).
Proof.
  intros fuel d x env st st'.
  assert (Hg : grows st st')
    by apply (proj1 (only_adds_evaluate_call fuel)).
  split; [exact Hg |]. split.
  - destruct (Nat.le_gt_cases (length st) (length st')) as [H | H];
      [exact H | exfalso].
    destruct st as [| fr0 st0] using rev_ind; [simpl in H; lia |].
    rewrite length_app in H. simpl in H.
    destruct (Hg (length st0) fr0) as (fr' & Hfr' & _).
    + now apply list_lookup_middle.
    + apply lookup_lt_Some in Hfr'. lia.
  - intros a fr fr' k Ha Ha'. split.
    + destruct (Hg a fr Ha) as (fr2 & H2 & Ho & _). congruence.
    + now apply (grows_dict_mem st st' a fr fr' k).
Qed.

(** X12. In a session, whatever store it starts in, nothing is unbound:
    every name that an environment binds when the session starts is bound
    in this environment when it ends, and the environment has the same
    [outer]. Programs can give a name another value, with "define" or
    "set!"; no program can take a name away, from the global environment
    or from any other. *)
Theorem session_names_stay_bound :
  forall fuel d programs st,
    grows st (snd (session fuel d programs st)) /\
    (forall a fr k,
        st !! a = Some fr ->
        dict_mem k (vars fr) = true ->
        exists fr',
          snd (session fuel d programs st) !! a = Some fr' /\
          outer fr' = outer fr /\
          dict_mem k (vars fr') = true).
Proof.
  intros fuel d programs.
  assert (Hg : forall st, grows st (snd (session fuel d programs st))).
  { induction programs as [| p programs IH]; intros st; simpl.
    - apply grows_refl.
    - pose proof (only_adds_run fuel d p st) as H1.
      destruct (run fuel d p st) as [r st1]. simpl in H1.
      specialize (IH st1). destruct (session fuel d programs st1) as [rs st2].
      simpl in *. now apply grows_trans with st1. }
  intros st. split; [apply Hg |].
  intros a fr k Ha Hk.
  destruct (Hg st a fr Ha) as (fr' & Hfr' & Ho & _).
  exists fr'. split; [exact Hfr' |]. split; [exact Ho |].
  now apply (grows_dict_mem st _ a fr fr' k (Hg st)).
Qed.

Lemma session_names_witness :
  exists fr,
    snd (session 10 10 ["(define car 1)"; "(set! cdr car)"] initial_store)
      !! global_env = Some fr /\
    outer fr = None /\
    dict_mem (KStr "cdr") (vars fr) = true.
Proof.
  apply (proj2 (session_names_stay_bound 10 10
                  ["(define car 1)"; "(set! cdr car)"] initial_store)
           global_env standard_env (KStr "cdr"));
    reflexivity.
Defined.

(** ** Arithmetic *)

Lemma height_pos e : (1 <= height e)%nat.
Proof. destruct e; simpl; lia. Qed.

Lemma resolves_evaluate fuel d st env name v :
  wf_store st -> resolves st env name v ->
  evaluate (S fuel) (S d) (Symbol name) env st = (Ok v, st).
Proof.
  intros Hwf (self & fr & Hin & Hfr & Hget).
  now apply evaluate_symbol_innermost with self fr.
Qed.

Lemma evaluate_no_frame fuel x env st :
  evaluate (S fuel) 0 x env st = (Raise RecursionError, st).
Proof. reflexivity. Qed.

Lemma call_arith fuel d o x y st :
  call (S fuel) d (Builtin (op_prim o)) [Int x; Int y] st
  = (Ok (Int (op_fun o x y)), st).
Proof. destruct o; reflexivity. Qed.

Section Arithmetic.

Variables (st : store) (env : nat) (rho : string -> Z).
Hypothesis Hwf : wf_store st.
Hypothesis Hops :
  forall o, resolves st env (op_name o) (Builtin (op_prim o)).

Lemma evaluate_arith e :
  forall fuel d,
    (forall name, In name (names_of e) -> resolves st env name (Int (rho name))) ->
    (height e <= fuel)%nat ->
    ((height e <= d)%nat ->
     evaluate fuel d (expr e) env st = (Ok (Int (denote rho e)), st)) /\
    ((d < height e)%nat ->
     evaluate fuel d (expr e) env st = (Raise RecursionError, st)).
Proof.
  induction e as [z | name | o a IHa b IHb]; intros fuel d Hnames Hfuel;
    simpl in Hfuel; (destruct fuel as [| fuel]; [lia |]).
  - split; intros Hd; simpl in Hd; (destruct d; [try lia |]);
      try lia; reflexivity.
  - split; intros Hd; simpl in Hd; (destruct d; [try lia |]); try lia.
    + apply resolves_evaluate; [exact Hwf |]. apply Hnames. now left.
    + reflexivity.
  - pose proof (height_pos a) as Hpa. pose proof (height_pos b) as Hpb.
    assert (Hna : forall name, In name (names_of a) ->
                               resolves st env name (Int (rho name))).
    { intros name H. apply Hnames. simpl. apply in_or_app. now left. }
    assert (Hnb : forall name, In name (names_of b) ->
                               resolves st env name (Int (rho name))).
    { intros name H. apply Hnames. simpl. apply in_or_app. now right. }
    destruct d as [| d]; [split; [simpl; lia | reflexivity] |].
    cbn [expr height denote].
    rewrite evaluate_apply by (destruct o; reflexivity).
    destruct fuel as [| fuel]; [lia |].
    destruct (IHa (S fuel) d Hna ltac:(lia)) as [Ha_ok Ha_deep].
    destruct (IHb (S fuel) d Hnb ltac:(lia)) as [Hb_ok Hb_deep].
    cbn [mapM]. unfold bind.
    destruct d as [| d].
    { rewrite evaluate_no_frame. split; [lia | reflexivity]. }
    rewrite (resolves_evaluate fuel d st env _ _ Hwf (Hops o)).
    destruct (Nat.le_gt_cases (height a) (S d)) as [Ha | Ha].
    + rewrite (Ha_ok Ha).
      destruct (Nat.le_gt_cases (height b) (S d)) as [Hb | Hb].
      * rewrite (Hb_ok Hb). unfold ret. split; [| lia]. intros _.
        destruct o; apply call_arith.
      * rewrite (Hb_deep Hb). split; [lia | reflexivity].
    + rewrite (Ha_deep Ha). split; [lia | reflexivity].
Qed.

End Arithmetic.

(** X3. Arithmetic is exact and needs one activation of [evaluate] per
    level. Where "+", "-" and "*" are the host functions of
    [standard_env] and the names of an expression are bound to integers,
    an expression made of integer literals, names and these three
    operations evaluates to the integer it stands for, of any size, and
    leaves the store as it was, as soon as the stack has room for as many
    activations of [evaluate] as the expression has levels; with room for
    fewer, the evaluation raises [RecursionError]. *)
Theorem arithmetic_is_exact :
  forall st env rho e fuel d,
    wf_store st ->
    (forall o, resolves st env (op_name o) (Builtin (op_prim o))) ->
    (forall name, In name (names_of e) -> resolves st env name (Int (rho name))) ->
    (height e <= fuel)%nat ->
    ((height e <= d)%nat ->
     evaluate fuel d (expr e) env st = (Ok (Int (denote rho e)), st)) /\
    ((d < height e)%nat ->
     evaluate fuel d (expr e) env st = (Raise RecursionError, st)).
Proof.
  intros st env rho e fuel d Hwf Hops Hnames Hfuel.
  now apply evaluate_arith.
Qed.

Lemma arithmetic_witness :
  parse "(+ 2 (* 3 4))"
  = Ok (expr (Bin Add (Num 2) (Bin Mul (Num 3) (Num 4)))) /\
  evaluate 3 3 (expr (Bin Add (Num 2) (Bin Mul (Num 3) (Num 4)))) global_env
    initial_store
  = (Ok (Int 14), initial_store) /\
  evaluate 3 2 (expr (Bin Add (Num 2) (Bin Mul (Num 3) (Num 4)))) global_env
    initial_store
  = (Raise RecursionError, initial_store).
Proof.
  assert (H : forall o, resolves initial_store global_env (op_name o)
                          (Builtin (op_prim o))).
  { intros o. exists global_env, standard_env.
    split; [| split; [reflexivity | destruct o; reflexivity]].
    apply inner_here with standard_env; [reflexivity | destruct o; reflexivity]. }
  split; [reflexivity |].
  split.
  - apply (arithmetic_is_exact initial_store global_env (fun _ => 0)
             (Bin Add (Num 2) (Bin Mul (Num 3) (Num 4))) 3 3);
      [apply wf_initial_store | exact H | intros name [] | simpl; lia
      | simpl; lia].
  - apply (arithmetic_is_exact initial_store global_env (fun _ => 0)
             (Bin Add (Num 2) (Bin Mul (Num 3) (Num 4))) 3 2);
      [apply wf_initial_store | exact H | intros name [] | simpl; lia
      | simpl; lia].
Defined.

(** ** The stack the parser needs *)

Lemma levels_List l : levels (List l) = S (deepest l).
Proof.
  reflexivity.
Qed.

Lemma levels_atom token : levels (atom token) = 1%nat.
Proof.
  unfold atom. destruct (py_int token); [reflexivity |].
  destruct (py_float token); reflexivity.
Qed.

Lemma read_list_shape (fuel : nat) :
  forall tokens L v rest,
    read_list fuel tokens L = Ok (v, rest) -> exists l, v = List (L ++ l).
Proof.
  induction fuel as [| fuel IH]; intros tokens L v rest H; [discriminate |].
  destruct tokens as [| t tokens]; [discriminate |].
  cbn [read_list] in H. destruct (String.eqb t ")").
  - injection H as <- _. exists []. now rewrite app_nil_r.
  - destruct (tokens_to_syntax_tree fuel (t :: tokens)) as [[y r] | | |];
      try discriminate.
    cbn [res_bind fst snd] in H. destruct (IH _ _ _ _ H) as (l & ->).
    exists (y :: l). now rewrite <- app_assoc.
Qed.

Lemma parse_tree_stack (fuel : nat) :
  (forall tokens d x rest,
      tokens_to_syntax_tree fuel tokens = Ok (x, rest) ->
      ((levels x <= d)%nat ->
       tokens_to_syntax_tree_within fuel d tokens = Ok (x, rest)) /\
      ((d < levels x)%nat ->
       tokens_to_syntax_tree_within fuel d tokens = Raise RecursionError)) /\
  (forall tokens d L l rest,
      read_list fuel tokens L = Ok (List (L ++ l), rest) ->
      ((deepest l <= d)%nat ->
       read_list_within fuel d tokens L = Ok (List (L ++ l), rest)) /\
      ((d < deepest l)%nat ->
       read_list_within fuel d tokens L = Raise RecursionError)).
Proof.
  induction fuel as [| fuel [IHtree IHlist]]; [split; discriminate |].
  split.
  - intros tokens d x rest H. destruct tokens as [| t tokens]; [discriminate |].
    cbn [tokens_to_syntax_tree] in H. cbn [tokens_to_syntax_tree_within].
    destruct (String.eqb t "(").
    + destruct (read_list_shape _ _ _ _ _ H) as (l & ->). cbn [app] in *.
      rewrite levels_List. destruct d as [| d]; [split; [lia | reflexivity] |].
      destruct (IHlist tokens d [] l rest H) as [Hok Hdeep].
      split; intros Hd; [apply Hok | apply Hdeep]; lia.
    + destruct (String.eqb t ")"); [discriminate |].
      injection H as <- <-. rewrite levels_atom.
      destruct d as [| d]; split; intros Hd; try lia; reflexivity.
  - intros tokens d L l rest H. destruct tokens as [| t tokens]; [discriminate |].
    cbn [read_list] in H. cbn [read_list_within].
    destruct (String.eqb t ")").
    + injection H as Hl <-.
      assert (l = []) as ->.
      { apply (app_inv_head L). now rewrite app_nil_r. }
      split; [now rewrite app_nil_r | simpl; lia].
    + destruct (tokens_to_syntax_tree fuel (t :: tokens)) as [[y r] | | |] eqn:E;
        try discriminate.
      cbn [res_bind fst snd] in H.
      destruct (read_list_shape _ _ _ _ _ H) as (l' & Hl').
      injection Hl' as Hl'. rewrite <- app_assoc in Hl'.
      apply app_inv_head in Hl'. subst l.
      rewrite (app_assoc L [y] l') in H |- *.
      change (deepest ([y] ++ l')) with (Nat.max (levels y) (deepest l')).
      destruct (IHtree (t :: tokens) d y r E) as [Hy_ok Hy_deep].
      destruct (IHlist r d (L ++ [y]) l' rest H) as [Hl_ok Hl_deep].
      destruct (Nat.le_gt_cases (levels y) d) as [Hy | Hy].
      * rewrite (Hy_ok Hy). cbn [res_bind fst snd].
        split; intros Hd; [apply Hl_ok | apply Hl_deep]; lia.
      * rewrite (Hy_deep Hy). split; intros Hd; [lia | reflexivity].
Qed.

Lemma parse_tree_within_cases (fuel : nat) :
  (forall tokens d,
      tokens_to_syntax_tree_within fuel d tokens
      = tokens_to_syntax_tree fuel tokens \/
      tokens_to_syntax_tree_within fuel d tokens = Raise RecursionError) /\
  (forall tokens d L,
      read_list_within fuel d tokens L = read_list fuel tokens L \/
      read_list_within fuel d tokens L = Raise RecursionError).
Proof.
  induction fuel as [| fuel [IHtree IHlist]]; [split; intros; now left |].
  split.
  - intros tokens d. cbn [tokens_to_syntax_tree_within tokens_to_syntax_tree].
    destruct d as [| d]; [now right |].
    destruct tokens as [| t tokens]; [now left |].
    destruct (String.eqb t "("); [apply IHlist |].
    destruct (String.eqb t ")"); now left.
  - intros tokens d L. cbn [read_list_within read_list].
    destruct tokens as [| t tokens]; [now left |].
    destruct (String.eqb t ")"); [now left |].
    destruct (IHtree (t :: tokens) d) as [-> | ->]; [| now right].
    destruct (tokens_to_syntax_tree fuel (t :: tokens)) as [[y r] | | |];
      try now left.
    cbn [res_bind fst snd]. apply IHlist.
Qed.

(** X13. The parser needs one activation of [tokens_to_syntax_tree] per
    level of the tree it returns, however long the text is. When [parse]
    returns a tree (the stack left aside), the parser on a stack with room
    for [depth] activations returns the same tree if the tree has [depth]
    levels or fewer, and raises [RecursionError] if it has more. On any
    text the parser on a bounded stack answers what [parse] answers, or
    raises [RecursionError]. *)
Theorem parse_stack_use :
  forall depth program,
    (parse_within depth program = parse program \/
     parse_within depth program = Raise RecursionError) /\
    (forall x,
        parse program = Ok x ->
        ((levels x <= depth)%nat -> parse_within depth program = Ok x) /\
        ((depth < levels x)%nat ->
         parse_within depth program = Raise RecursionError)).
Proof.
  intros depth program. unfold parse_within, parse. split.
  - destruct (proj1 (parse_tree_within_cases (parse_fuel (tokenize program)))
                (tokenize program) depth) as [-> | ->];
      [now left | now right].
  - intros x H.
    destruct (tokens_to_syntax_tree _ _) as [[y rest] | | |] eqn:E;
      try discriminate.
    cbn [res_bind fst] in H. injection H as ->.
    destruct (proj1 (parse_tree_stack _) _ depth _ _ E) as [Hok Hdeep].
    split; intros Hd; [rewrite (Hok Hd) | rewrite (Hdeep Hd)]; reflexivity.
Qed.

(** ** The parser ends on every input *)

Lemma parse_tree_within_room (fuel : nat) :
  (forall tokens d,
      (1 <= fuel)%nat -> (2 * length tokens <= fuel)%nat ->
      (1 <= d)%nat -> (length tokens <= d)%nat ->
      tokens_to_syntax_tree_within fuel d tokens
      = tokens_to_syntax_tree fuel tokens) /\
  (forall tokens d L,
      (2 * length tokens + 1 <= fuel)%nat -> (length tokens <= d)%nat ->
      read_list_within fuel d tokens L = read_list fuel tokens L).
Proof.
  induction fuel as [| fuel [IHtree IHlist]].
  - split; [intros tokens d H; lia | intros tokens d L H; lia].
  - split.
    + intros tokens d _ Hfuel Hd Hlen.
      destruct d as [| d]; [lia |].
      destruct tokens as [| t tokens]; [reflexivity |].
      cbn [tokens_to_syntax_tree_within tokens_to_syntax_tree].
      simpl in Hfuel, Hlen.
      destruct (String.eqb t "("); [| reflexivity].
      apply IHlist; lia.
    + intros tokens d L Hfuel Hlen.
      destruct tokens as [| t tokens]; [reflexivity |].
      cbn [read_list_within read_list].
      destruct (String.eqb t ")"); [reflexivity |].
      simpl in Hfuel. pose proof Hlen as Hlen'. simpl in Hlen'.
      rewrite (IHtree (t :: tokens) d) by (simpl; lia).
      pose proof (proj1 (parse_tree_total fuel) (t :: tokens)
                    ltac:(lia) ltac:(simpl; lia)) as Hrest.
      destruct (tokens_to_syntax_tree fuel (t :: tokens)) as [[y r] | | |];
        try reflexivity.
      cbn [res_bind fst snd]. simpl in Hrest. apply IHlist; lia.
Qed.

(** X2. The parser ends on every text, with one of four answers and
    nothing else: a tree, [SyntaxError], [IndexError], or
    [RecursionError] when the stack has no room for the nesting of the
    text. With room for as many activations of [tokens_to_syntax_tree]
    as the text has tokens, the answer is one of the first three. *)
Theorem parse_terminates :
  forall depth program,
    ((exists x, parse_within depth program = Ok x) \/
     parse_within depth program = Raise SyntaxError \/
     parse_within depth program = Raise IndexError \/
     parse_within depth program = Raise RecursionError) /\
    ((1 <= depth)%nat -> (length (tokenize program) <= depth)%nat ->
     (exists x, parse_within depth program = Ok x) \/
     parse_within depth program = Raise SyntaxError \/
     parse_within depth program = Raise IndexError).
Proof.
  intros depth program.
  assert (Hfree :
            (exists x, res_bind
                         (tokens_to_syntax_tree
                            (parse_fuel (tokenize program)) (tokenize program))
                         (fun r => Ok (fst r)) = Ok x) \/
            res_bind
              (tokens_to_syntax_tree
                 (parse_fuel (tokenize program)) (tokenize program))
              (fun r => Ok (fst r)) = Raise SyntaxError \/
            res_bind
              (tokens_to_syntax_tree
                 (parse_fuel (tokenize program)) (tokenize program))
              (fun r => Ok (fst r)) = Raise IndexError).
  { pose proof (proj1 (parse_tree_total (parse_fuel (tokenize program)))
                  (tokenize program)) as H.
    unfold parse_fuel in *. specialize (H ltac:(lia) ltac:(lia)).
    destruct (tokens_to_syntax_tree _ _) as [[x rest] | e | |]; simpl in *.
    - left. now exists x.
    - right. destruct H as [-> | ->]; [now left | now right].
    - contradiction.
    - contradiction. }
  unfold parse_within. split.
  - destruct (proj1 (parse_tree_within_cases (parse_fuel (tokenize program)))
                (tokenize program) depth) as [-> | ->].
    + destruct Hfree as [H | [H | H]]; [now left | right; now left |].
      right; right. now left.
    + right; right; right. reflexivity.
  - intros Hdepth Hroom.
    rewrite (proj1 (parse_tree_within_room (parse_fuel (tokenize program)))
               (tokenize program) depth);
      [exact Hfree | | | exact Hdepth | exact Hroom];
      unfold parse_fuel; lia.
Qed.

(** ** What [atom] makes of a token *)

Lemma list_ascii_of_list s : list_ascii_of_string (string_of_list_ascii s) = s.
Proof. apply list_ascii_of_string_of_list_ascii. Qed.

Lemma py_int_digits (neg : bool) (ds : list ascii) :
  ds <> [] -> forallb is_digit ds = true ->
  (length ds <= int_max_str_digits)%nat ->
  match strip_underscores None ds with
  | Some ds' =>
      if negb (forallb is_digit ds') then None
      else if (length ds' =? 0)%nat then None
      else if ((0 <? int_max_str_digits)
               && (int_max_str_digits <? length ds'))%nat
      then None
      else Some (if neg then - digits_value ds' else digits_value ds')
  | None => None
  end = Some (if neg then - digits_value ds else digits_value ds).
Proof.
  intros Hne Hdig Hlen.
  rewrite (strip_underscores_digits ds Hdig None I). rewrite Hdig.
  assert ((int_max_str_digits <? length ds)%nat = false) as ->
    by (apply Nat.ltb_ge; exact Hlen).
  rewrite andb_false_r.
  destruct ds as [| c ds]; [now elim Hne | reflexivity].
Qed.

Lemma split_sign_other c rest :
  c <> "-"%char -> c <> "+"%char -> split_sign (c :: rest) = (false, c :: rest).
Proof.
  intros Hm Hp.
  destruct c as [[] [] [] [] [] [] [] []]; try reflexivity;
    first [now elim Hm | now elim Hp].
Qed.

Lemma strip_underscores_head c rest ds :
  strip_underscores None (c :: rest) = Some ds -> exists ds', ds = c :: ds'.
Proof.
  cbn [strip_underscores]. destruct (Ascii.eqb c "_"); [discriminate |].
  destruct (strip_underscores (Some c) rest) as [ds' |]; [| discriminate].
  intros [= <-]. now exists ds'.
Qed.

(** X14. [atom] on the tokens of a program. A token made of decimal
    digits (4300 at most, leading zeros allowed), alone or after one sign,
    is the integer it writes, of any size. A token whose first character is
    no digit, sign, point or underscore and no letter "i" or "n" (the
    first letters of "inf" and "nan") is a symbol, with the token as its
    text. *)
Theorem atom_reads_tokens :
  (forall ds,
      ds <> [] -> forallb is_digit ds = true ->
      (length ds <= int_max_str_digits)%nat ->
      atom (string_of_list_ascii ds) = Int (digits_value ds) /\
      atom (String "-" (string_of_list_ascii ds)) = Int (- digits_value ds) /\
      atom (String "+" (string_of_list_ascii ds)) = Int (digits_value ds)) /\
  (forall c rest,
      atom_text (String c rest) = true ->
      is_digit c = false ->
      ~ In c ["+"; "-"; "."; "_"]%char ->
      ~ In (lower c) ["i"; "n"]%char ->
      atom (String c rest) = Symbol (String c rest)).
Proof.
  split.
  - intros ds Hne Hdig Hlen. unfold atom, py_int.
    cbn [list_ascii_of_string]. rewrite !list_ascii_of_list.
    cbn [split_sign].
    rewrite (py_int_digits true ds Hne Hdig Hlen).
    rewrite (py_int_digits false ds Hne Hdig Hlen).
    split; [| now split].
    destruct ds as [| c ds]; [now elim Hne |].
    pose proof Hdig as Hc. simpl in Hc. apply andb_prop in Hc as [Hc _].
    rewrite (digit_not_sign c ds Hc).
    now rewrite (py_int_digits false (c :: ds) Hne Hdig Hlen).
  - intros c rest _ Hdigit Hsign Hword.
    assert (Hs : forall s, split_sign (c :: s) = (false, c :: s)).
    { intros s. apply split_sign_other; intros ->; apply Hsign; simpl; auto 6. }
    assert (Hi : Ascii.eqb (lower c) "i" = false).
    { apply Ascii.eqb_neq. intros E. apply Hword. simpl. now left. }
    assert (Hn : Ascii.eqb (lower c) "n" = false).
    { apply Ascii.eqb_neq. intros E. apply Hword. simpl; auto 6. }
    assert (Hpoint : c <> "."%char).
    { intros ->. apply Hsign. simpl; auto 6. }
    unfold atom.
    assert (py_int (String c rest) = None) as ->.
    { unfold py_int. cbn [list_ascii_of_string]. rewrite Hs.
      destruct (strip_underscores None (c :: list_ascii_of_string rest))
        as [ds |] eqn:E; [| reflexivity].
      destruct (strip_underscores_head _ _ _ E) as (ds' & ->).
      cbn [forallb]. now rewrite Hdigit. }
    assert (py_float (String c rest) = None) as ->; [| reflexivity].
    unfold py_float. cbn [list_ascii_of_string].
    destruct (strip_underscores None (c :: list_ascii_of_string rest))
      as [s |] eqn:E; [| reflexivity].
    destruct (strip_underscores_head _ _ _ E) as (s' & ->).
    rewrite Hs. cbn [map string_of_list_ascii String.eqb].
    rewrite Hi, Hn. cbn [orb span_digits]. rewrite Hdigit.
    assert (Hr : match c :: s' with
                 | "."%char :: r1 => span_digits r1
                 | _ => ([], c :: s')
                 end = ([], c :: s')).
    { destruct c as [[] [] [] [] [] [] [] []]; try reflexivity.
      now elim Hpoint. }
    rewrite Hr. reflexivity.
Qed.

(** ** Sequences and lists *)

Lemma evaluate_Ok_positive fuel d x env st v st1 :
  evaluate fuel d x env st = (Ok v, st1) ->
  exists fuel' d', fuel = S fuel' /\ d = S d'.
Proof.
  destruct fuel as [| fuel]; [discriminate |].
  destruct d as [| d]; [discriminate |]. intros _. now exists fuel, d.
Qed.

Lemma evaluate_unary fuel d name p e env st v st1 :
  wf_store st -> special_form (Symbol name) = false ->
  resolves st env name (Builtin p) ->
  evaluate (S fuel) (S d) e env st = (Ok v, st1) ->
  evaluate (S (S fuel)) (S (S d)) (List [Symbol name; e]) env st
  = call (S fuel) (S d) (Builtin p) [v] st1.
Proof.
  intros Hwf Hform Hname He.
  rewrite evaluate_apply by exact Hform. cbn [mapM]. unfold bind.
  rewrite (resolves_evaluate fuel d st env _ _ Hwf Hname).
  rewrite He. reflexivity.
Qed.

Lemma evaluate_binary fuel d name p a b env st va st1 vb st2 :
  wf_store st -> special_form (Symbol name) = false ->
  resolves st env name (Builtin p) ->
  evaluate (S fuel) (S d) a env st = (Ok va, st1) ->
  evaluate (S fuel) (S d) b env st1 = (Ok vb, st2) ->
  evaluate (S (S fuel)) (S (S d)) (List [Symbol name; a; b]) env st
  = call (S fuel) (S d) (Builtin p) [va; vb] st2.
Proof.
  intros Hwf Hform Hname Ha Hb.
  rewrite evaluate_apply by exact Hform. cbn [mapM]. unfold bind.
  rewrite (resolves_evaluate fuel d st env _ _ Hwf Hname).
  rewrite Ha, Hb. reflexivity.
Qed.

(** X15. The operands of "begin" are evaluated from left to right, each
    in the store that the one before left, and all of them before
    anything is returned; the value is that of the last operand. The
    first operand that raises ends the evaluation with its exception, and
    "(begin)", without operand, raises [IndexError]. *)
Theorem begin_sequences :
  forall fuel d env st es r st',
    wf_store st ->
    resolves st env "begin" (Builtin p_begin) ->
    mapM (fun a => evaluate (S fuel) (S d) a env) es st = (r, st') ->
    evaluate (S (S fuel)) (S (S d)) (List (Symbol "begin" :: es)) env st
    = (res_bind r (fun vs =>
         match last vs with
         | Some v => Ok v
         | None => Raise IndexError
         end), st').
Proof.
  intros fuel d env st es r st' Hwf Hbegin Hes.
  rewrite evaluate_apply by reflexivity. cbn [mapM]. unfold bind.
  rewrite (resolves_evaluate fuel d st env _ _ Hwf Hbegin).
  rewrite Hes. destruct r as [vs | e | |]; try reflexivity.
  unfold ret. cbn [call apply_prim res_bind].
  destruct (last vs); reflexivity.
Qed.

Lemma begin_sequences_witness :
  evaluate 3 3
    (List [Symbol "begin"; List [Symbol "define"; Symbol "x"; Int 1];
           Symbol "x"]) global_env initial_store
  = (Ok (Int 1),
     [mkEnv (dict_set (KStr "x") (Int 1) (vars standard_env)) None]).
Proof.
  apply (begin_sequences 1 1 global_env initial_store
           [List [Symbol "define"; Symbol "x"; Int 1]; Symbol "x"]
           (Ok [NoneV; Int 1])).
  - apply wf_initial_store.
  - exists global_env, standard_env.
    split; [now apply inner_here with standard_env | now split].
  - reflexivity.
Defined.

(** X16. The list operations fit together. Where "cons", "car", "cdr",
    "length" and "null?" are the host functions of [standard_env] and
    the operands [a] and [b] evaluate to a value [x] and to a list [l]:
    "(car (cons a b))" is [x], "(cdr (cons a b))" is [l],
    "(length (cons a b))" is one more than the length of [l] and
    "(null? (cons a b))" is false. On the empty list "car" raises
    [IndexError], while "cdr" answers the empty list. *)
Theorem list_operations_compose :
  forall fuel d env st a b x l st1 st2,
    wf_store st ->
    resolves st env "cons" (Builtin p_cons) ->
    resolves st env "car" (Builtin p_car) ->
    resolves st env "cdr" (Builtin p_cdr) ->
    resolves st env "length" (Builtin py_len) ->
    resolves st env "null?" (Builtin p_null_p) ->
    evaluate (S fuel) (S d) a env st = (Ok x, st1) ->
    evaluate (S fuel) (S d) b env st1 = (Ok (List l), st2) ->
    let pair := List [Symbol "cons"; a; b] in
    let result x := evaluate (S (S (S fuel))) (S (S (S d))) x env st in
    result (List [Symbol "car"; pair]) = (Ok x, st2) /\
    result (List [Symbol "cdr"; pair]) = (Ok (List l), st2) /\
    result (List [Symbol "length"; pair])
    = (Ok (Int (Z.of_nat (S (length l)))), st2) /\
    result (List [Symbol "null?"; pair]) = (Ok (Bool false), st2) /\
    call (S fuel) d (Builtin p_car) [List []] st2 = (Raise IndexError, st2) /\
    call (S fuel) d (Builtin p_cdr) [List []] st2 = (Ok (List []), st2).
Proof.
  intros fuel d env st a b x l st1 st2 Hwf Hcons Hcar Hcdr Hlen Hnull Ha Hb
    pair result.
  assert (Hpair : evaluate (S (S fuel)) (S (S d)) pair env st
                  = (Ok (List (x :: l)), st2)).
  { unfold pair.
    now rewrite (evaluate_binary fuel d "cons" p_cons a b env st x st1
                   (List l) st2). }
  unfold result.
  rewrite (evaluate_unary (S fuel) (S d) "car" p_car pair env st
             (List (x :: l)) st2 Hwf eq_refl Hcar Hpair).
  rewrite (evaluate_unary (S fuel) (S d) "cdr" p_cdr pair env st
             (List (x :: l)) st2 Hwf eq_refl Hcdr Hpair).
  rewrite (evaluate_unary (S fuel) (S d) "length" py_len pair env st
             (List (x :: l)) st2 Hwf eq_refl Hlen Hpair).
  rewrite (evaluate_unary (S fuel) (S d) "null?" p_null_p pair env st
             (List (x :: l)) st2 Hwf eq_refl Hnull Hpair).
  repeat split; reflexivity.
Qed.

Lemma list_operations_witness :
  evaluate 4 4
    (List [Symbol "car";
           List [Symbol "cons"; Int 1; List [Symbol "list"; Int 2; Int 3]]])
    global_env initial_store
  = (Ok (Int 1), initial_store).
Proof.
  assert (H : forall name p,
             dict_get (KStr name) (vars standard_env) = Some (Builtin p) ->
             resolves initial_store global_env name (Builtin p)).
  { intros name p Hget. exists global_env, standard_env.
    split; [| now split].
    apply inner_here with standard_env; [reflexivity |].
    unfold dict_mem. now rewrite Hget. }
  apply (list_operations_compose 1 1 global_env initial_store (Int 1)
           (List [Symbol "list"; Int 2; Int 3]) (Int 1) [Int 2; Int 3]
           initial_store initial_store);
    try (apply H; reflexivity); try reflexivity.
  apply wf_initial_store.
Defined.

(** ** The stack limit shows only as [RecursionError] *)

(** X17. Nothing in [evaluate] catches an exception, so the room left on
    the stack shows in one way only. An evaluation that ends with a value,
    or with an exception other than [RecursionError], ends with the same
    answer and the same store on any stack with more room. *)
Theorem more_stack_same_answer :
  forall fuel fuel' d d' x env st r st',
    evaluate fuel d x env st = (r, st') ->
    final r = true ->
    (fuel <= fuel')%nat -> (d <= d')%nat ->
    evaluate fuel' d' x env st = (r, st').
Proof.
  intros fuel fuel' d d' x env st r st' H Hfinal Hfuel Hd.
  exact (proj1 (evaluate_call_mono fuel) fuel' d d' x env Hfuel Hd
           st r st' H Hfinal).
Qed.

Lemma more_stack_witness :
  evaluate 5 1000 (List [Symbol "car"; List [Symbol "list"]]) global_env
    initial_store
  = (Raise IndexError, initial_store).
Proof.
  apply (more_stack_same_answer 3 5 3 1000
           (List [Symbol "car"; List [Symbol "list"]]) global_env
           initial_store (Raise IndexError) initial_store);
    [reflexivity | reflexivity | lia | lia].
Defined.

(** ** Names read after they are written *)

Lemma Env_find_from_update st a fr name v k :
  st !! a = Some fr ->
  dict_mem k (dict_set (KStr name) v (vars fr)) = dict_mem k (vars fr) ->
  forall n e,
    Env_find_from n
      (<[a := mkEnv (dict_set (KStr name) v (vars fr)) (outer fr)]> st) e k
    = Env_find_from n st e k.
Proof.
  intros Ha Hmem. induction n as [| n IH]; intros e; [reflexivity |].
  cbn [Env_find_from]. destruct (decide (e = a)) as [-> | Hne].
  - rewrite list_lookup_insert_eq by now apply lookup_lt_Some with fr.
    rewrite Ha. cbn [vars outer]. rewrite Hmem.
    destruct (dict_mem k (vars fr)); [reflexivity |].
    destruct (outer fr); [apply IH | reflexivity].
  - rewrite list_lookup_insert_ne by congruence.
    destruct (st !! e) as [fe |]; [| reflexivity].
    destruct (dict_mem k (vars fe)); [reflexivity |].
    destruct (outer fe); [apply IH | reflexivity].
Qed.

Lemma dict_mem_set_other name k v d :
  k <> KStr name -> dict_mem k (dict_set (KStr name) v d) = dict_mem k d.
Proof. intros H. unfold dict_mem. now rewrite dict_get_set_other. Qed.

Lemma dict_mem_set_bound name v d :
  dict_mem (KStr name) d = true ->
  dict_mem (KStr name) (dict_set (KStr name) v d) = dict_mem (KStr name) d.
Proof. intros H. rewrite H. unfold dict_mem. now rewrite dict_get_set_same. Qed.

(** A name other than the one written is read as before. *)
Lemma evaluate_symbol_after_update f d st a fr name v other e :
  st !! a = Some fr -> other <> name ->
  evaluate (S f) (S d) (Symbol other) e
    (<[a := mkEnv (dict_set (KStr name) v (vars fr)) (outer fr)]> st)
  = (fst (evaluate (S f) (S d) (Symbol other) e st),
     <[a := mkEnv (dict_set (KStr name) v (vars fr)) (outer fr)]> st).
Proof.
  intros Ha Hne. rewrite !evaluate_symbol. unfold bind, Env_find.
  rewrite length_insert.
  assert (Hk : KStr other <> KStr name) by congruence.
  rewrite (Env_find_from_update st a fr name v (KStr other) Ha
             (dict_mem_set_other name _ v _ Hk)).
  destruct (Env_find_from (length st) st e (KStr other)) as [s | | |];
    try reflexivity.
  unfold Env_getitem. destruct (decide (s = a)) as [-> | Hs].
  - rewrite list_lookup_insert_eq by now apply lookup_lt_Some with fr.
    rewrite Ha. cbn [vars]. rewrite (dict_get_set_other name _ v _ Hk).
    destruct (dict_get (KStr other) (vars fr)); reflexivity.
  - rewrite list_lookup_insert_ne by congruence.
    destruct (st !! s) as [fs |]; [| reflexivity].
    destruct (dict_get (KStr other) (vars fs)); reflexivity.
Qed.

(** The name written, where it was bound already, is read as the new
    value from the environments that reach the binding, and as before from
    the others. *)
Lemma evaluate_symbol_after_set f d st self fr name v e s :
  wf_store st -> st !! self = Some fr ->
  dict_mem (KStr name) (vars fr) = true ->
  innermost st (KStr name) e s ->
  evaluate (S f) (S d) (Symbol name) e
    (<[self := mkEnv (dict_set (KStr name) v (vars fr)) (outer fr)]> st)
  = (if decide (s = self) then Ok v
     else fst (evaluate (S f) (S d) (Symbol name) e st),
     <[self := mkEnv (dict_set (KStr name) v (vars fr)) (outer fr)]> st).
Proof.
  intros Hwf Hself Hmem Hin. rewrite !evaluate_symbol. unfold bind.
  rewrite (Env_find_innermost st e (KStr name) s Hwf Hin).
  unfold Env_find. rewrite length_insert.
  rewrite (Env_find_from_update st self fr name v (KStr name) Hself
             (dict_mem_set_bound name v _ Hmem)).
  pose proof (Env_find_innermost st e (KStr name) s Hwf Hin) as Hfind.
  unfold Env_find in Hfind. injection Hfind as ->.
  unfold Env_getitem. destruct (decide (s = self)) as [-> | Hs].
  - rewrite list_lookup_insert_eq by now apply lookup_lt_Some with fr.
    cbn [vars]. now rewrite dict_get_set_same.
  - rewrite list_lookup_insert_ne by congruence.
    destruct (st !! s) as [fs |]; [| reflexivity].
    destruct (dict_get (KStr name) (vars fs)); reflexivity.
Qed.

(** X18. What "define" writes is what a reference reads. When the
    expression of "(define name exp)" evaluates to a value, the name,
    evaluated in the same environment afterwards, has this value, whether
    or not an outer environment binds the name too; and every other name,
    in every environment, is read as before the definition. *)
Theorem define_then_lookup :
  forall fuel d name exp env st v st1,
    evaluate fuel d exp env st = (Ok v, st1) ->
    is_Some (st1 !! env) ->
    exists st2,
      evaluate (S fuel) (S d) (List [Symbol "define"; Symbol name; exp]) env st
      = (Ok NoneV, st2) /\
      (forall f d',
          evaluate (S f) (S d') (Symbol name) env st2 = (Ok v, st2)) /\
      (forall f d' other e,
          other <> name ->
          evaluate (S f) (S d') (Symbol other) e st2
          = (fst (evaluate (S f) (S d') (Symbol other) e st1), st2)).
Proof.
  intros fuel d name exp env st v st1 Hexp [fr Hfr].
  exists (<[env := mkEnv (dict_set (KStr name) v (vars fr)) (outer fr)]> st1).
  split; [now apply evaluate_define_name |]. split.
  - intros f d'. rewrite evaluate_symbol. unfold bind, Env_find.
    assert (Hlt : (env < length st1)%nat) by now apply lookup_lt_Some with fr.
    rewrite length_insert. destruct (length st1) as [| n] eqn:Hn; [lia |].
    cbn [Env_find_from]. rewrite <- Hn in *.
    rewrite list_lookup_insert_eq by exact Hlt. cbn [vars].
    unfold dict_mem. rewrite dict_get_set_same.
    unfold Env_getitem. rewrite list_lookup_insert_eq by exact Hlt.
    cbn [vars]. now rewrite dict_get_set_same.
  - intros f d' other e Hne. now apply evaluate_symbol_after_update.
Qed.

Lemma define_then_lookup_witness :
  exists st2,
    evaluate 2 2 (List [Symbol "define"; Symbol "car"; Int 7]) global_env
      initial_store
    = (Ok NoneV, st2) /\
    (forall f d', evaluate (S f) (S d') (Symbol "car") global_env st2
                  = (Ok (Int 7), st2)) /\
    (forall f d' other e,
        other <> "car" ->
        evaluate (S f) (S d') (Symbol other) e st2
        = (fst (evaluate (S f) (S d') (Symbol other) e initial_store), st2)).
Proof.
  apply (define_then_lookup 1 1 "car" (Int 7) global_env initial_store
           (Int 7) initial_store).
  - reflexivity.
  - exists standard_env. reflexivity.
Defined.

(** X19. What "set!" writes is read wherever the binding is seen. When
    the expression of "(set! name exp)" evaluates to a value and the name
    resolves, from the environment of the assignment, to the environment
    [self], then afterwards the name has the new value from every
    environment that resolves it to [self] (the procedures that share the
    binding see the change), keeps its value from the environments that
    resolve it elsewhere, and every other name is read as before. *)
Theorem set_then_lookup :
  forall fuel d name exp env st v st1 self,
    evaluate fuel d exp env st = (Ok v, st1) ->
    wf_store st1 ->
    innermost st1 (KStr name) env self ->
    exists st2,
      evaluate (S fuel) (S d) (List [Symbol "set!"; Symbol name; exp]) env st
      = (Ok NoneV, st2) /\
      (forall f d', evaluate (S f) (S d') (Symbol name) env st2 = (Ok v, st2)) /\
      (forall f d' e s,
          innermost st1 (KStr name) e s ->
          evaluate (S f) (S d') (Symbol name) e st2
          = (if decide (s = self) then Ok v
             else fst (evaluate (S f) (S d') (Symbol name) e st1), st2)) /\
      (forall f d' other e,
          other <> name ->
          evaluate (S f) (S d') (Symbol other) e st2
          = (fst (evaluate (S f) (S d') (Symbol other) e st1), st2)).
Proof.
  intros fuel d name exp env st v st1 self Hexp Hwf Hin.
  destruct (innermost_binds _ _ _ _ Hin) as (fr & Hfr & Hmem).
  exists (<[self := mkEnv (dict_set (KStr name) v (vars fr)) (outer fr)]> st1).
  split; [now apply evaluate_set_name |].
  assert (Hseen : forall f d' e s,
             innermost st1 (KStr name) e s ->
             evaluate (S f) (S d') (Symbol name) e
               (<[self := mkEnv (dict_set (KStr name) v (vars fr)) (outer fr)]>
                  st1)
             = (if decide (s = self) then Ok v
                else fst (evaluate (S f) (S d') (Symbol name) e st1),
                <[self := mkEnv (dict_set (KStr name) v (vars fr)) (outer fr)]>
                  st1)).
  { intros f d' e s He. now apply evaluate_symbol_after_set. }
  split; [| split].
  - intros f d'. rewrite (Hseen f d' env self Hin).
    now destruct (decide (self = self)).
  - exact Hseen.
  - intros f d' other e Hne. now apply evaluate_symbol_after_update.
Qed.

Lemma set_then_lookup_witness :
  exists st2,
    evaluate 2 2 (List [Symbol "set!"; Symbol "car"; Int 7]) global_env
      initial_store
    = (Ok NoneV, st2) /\
    evaluate 1 1 (Symbol "car") global_env st2 = (Ok (Int 7), st2).
Proof.
  destruct (set_then_lookup 1 1 "car" (Int 7) global_env initial_store
              (Int 7) initial_store global_env) as (st2 & Hset & Hget & _).
  - reflexivity.
  - apply wf_initial_store.
  - now apply inner_here with standard_env.
  - exists st2. split; [exact Hset | apply Hget].
Defined.

(** ** Host functions called with a wrong number of arguments *)

(** X20. The host functions of [standard_env] that take a fixed number of
    arguments check it: called with another number, each raises
    [TypeError] and the store is left as it was. (The procedures made by
    "lambda" do not: the arguments in excess are dropped and the
    parameters in excess are left unbound.) *)
Theorem host_functions_check_arity :
  forall c p args st n,
    prim_arity p = Some n ->
    length args <> n ->
    apply_prim c p args st = (Raise TypeError, st).
Proof.
  intros c p args st n Hp Hlen.
  destruct p; try discriminate Hp; injection Hp as <-;
    destruct args as [| a [| b [| x args]]];
    try reflexivity; now elim Hlen.
Qed.

Lemma host_functions_arity_witness :
  apply_prim (call 1 1) p_car [List [Int 1]; Int 0] initial_store
  = (Raise TypeError, initial_store).
Proof.
  apply (host_functions_check_arity (call 1 1) p_car [List [Int 1]; Int 0]
           initial_store 1%nat); [reflexivity | simpl; lia].
Defined.
